(** * glad: an mmap-backed arena allocator

    A shallow embedding of the single-header allocator [glad.h]
    (chunk manager, arena allocation, push, crop-and-coalesce, copy,
    clear, reset, free) and the properties of it that the specification
    states.

    The C code works on a pointer-linked chain of chunks.  The embedding
    keeps that shape: chunk headers and arena structs live in finite maps
    indexed by their address, [0] is the null pointer, and every function
    is a state transformer that may also fault (a dereference of null or
    of released memory, an out-of-bounds [memcpy]/[memset]), abort (a
    failed [assert]) or run out of loop fuel.  The operating system is a
    script of answers to the successive [open]/[mmap] pairs, so that a
    statement about all scripts is a statement about all behaviours of
    the OS; [munmap] follows the Linux call on x86-64, with its pages of
    4096 bytes, and the pages that it leaves mapped are kept on record.  Integers are [Z] with the conversions of the C types written
    out ([sint] for [ptrdiff_t], [uint] for [size_t] and [uintptr_t]). *)

From Stdlib Require Import ZArith Lia List Bool.
From stdpp Require Import base option list gmap.

Local Open Scope Z_scope.

(** ** Machine integers (LP64: [ptrdiff_t] is 64-bit signed,
       [size_t]/[uintptr_t] are 64-bit unsigned) *)

Module Int.

Definition modulus : Z := 2 ^ 64.
Definition half : Z := 2 ^ 63.

(** Conversion to [size_t] / [uintptr_t]. *)
Definition uint (z : Z) : Z := z mod modulus.

(** Conversion to [ptrdiff_t] (two's complement wrap-around). *)
Definition sint (z : Z) : Z := (z + half) mod modulus - half.

Definition is_ptrdiff (z : Z) : Prop := - half <= z < half.

End Int.

Import Int.

(** ** Constants and macros of glad.h *)

(** [sizeof(chunk)]: three 8-byte fields, the flexible array adds nothing. *)
Definition sizeof_chunk : Z := 24.
Definition sizeof_char : Z := 1.
(** [sizeof(chunk* )]: what [sizeof(chunk)] means inside [free_chunk],
    whose parameter [chunk* chunk] hides the type of the same name. *)
Definition sizeof_pointer : Z := 8.

(** The page size, and the size of the user address space of Linux on
    x86-64 (four-level page tables). *)
Definition PAGE_SIZE : Z := 4096.
Definition TASK_SIZE : Z := 2 ^ 47 - PAGE_SIZE.

(** The bytes of the pages that a range of [len] bytes touches when it
    starts on a page boundary ([PAGE_ALIGN(len)]). *)
Definition page_span (len : Z) : Z := PAGE_SIZE * ((len + PAGE_SIZE - 1) / PAGE_SIZE).

Definition ZEROMEM : Z := 1.
Definition SOFTFAIL : Z := 16.

Definition flag_set (flags flag : Z) : bool := negb (Z.land flags flag =? 0).

(** [#define DEFAULT_CHUNK_SIZE (4096L*1024L)/(sizeof(char))]: a [long]
    divided by a [size_t], hence an unsigned value. *)
Definition DEFAULT_CHUNK_SIZE : Z := uint (4096 * 1024) / sizeof_char.

(** [#define CHUNK_ALLOC_SIZE(X) (sizeof(chunk) + (sizeof(char) * X))],
    computed in [size_t] and stored in a [ptrdiff_t]. *)
Definition CHUNK_ALLOC_SIZE (X : Z) : Z :=
  sint (uint (sizeof_chunk + uint (sizeof_char * uint X))).

(** [#define ROUND_UP(val, size) ((val + size - 1) & -size)] at type
    [ptrdiff_t] (the use [ROUND_UP(num_bytes, alignment)]). *)
Definition ROUND_UP (val size : Z) : Z :=
  Z.land (sint (sint (val + size) - 1)) (sint (- size)).

(** The use [ROUND_UP(alloc_size, DEFAULT_CHUNK_SIZE)]: the macro argument
    is substituted textually, giving
    [(alloc_size + (4096L*1024L)/(sizeof(char)) - 1) & -(4096L*1024L)/(sizeof(char))]
    which is evaluated in [size_t] and stored in a [ptrdiff_t]. *)
Definition ROUND_UP_DEFAULT (val : Z) : Z :=
  sint (Z.land (uint (uint (uint val + DEFAULT_CHUNK_SIZE) - 1))
               (uint (- (4096 * 1024)) / sizeof_char)).

(** ** Data model *)

Record chunk : Type := mkChunk {
  ch_next : Z;              (* chunk* ch_next, 0 is null *)
  ch_size : Z;              (* ptrdiff_t ch_size *)
  ch_offset : Z;            (* ptrdiff_t ch_offset *)
  ch_data : list Byte.byte  (* char ch_data[]: the mapped data region *)
}.

Record arena : Type := mkArena {
  ar_head : Z;
  ar_tail : Z
}.

(** What the operating system answers to one chunk acquisition
    ([open] of /dev/zero followed by [mmap]). *)
Inductive os_reply : Type :=
| OpenFails               (* open returns -1 *)
| MapFails                (* mmap returns MAP_FAILED *)
| Mapped (a : Z).         (* mmap returns the address a *)

Record state : Type := mkState {
  arenas : gmap Z arena;       (* the caller's arena structs, by address *)
  chunks : gmap Z chunk;       (* the mapped chunks, by base address *)
  os : list os_reply;          (* the answers of the OS to the coming acquisitions *)
  leaked : list (Z * Z)        (* ranges (address, bytes) that stayed mapped when
                                  the header page of their chunk was unmapped *)
}.

Definition set_next (c : chunk) (v : Z) : chunk :=
  mkChunk v (ch_size c) (ch_offset c) (ch_data c).
Definition set_size (c : chunk) (v : Z) : chunk :=
  mkChunk (ch_next c) v (ch_offset c) (ch_data c).
Definition set_offset (c : chunk) (v : Z) : chunk :=
  mkChunk (ch_next c) (ch_size c) v (ch_data c).
Definition set_data (c : chunk) (d : list Byte.byte) : chunk :=
  mkChunk (ch_next c) (ch_size c) (ch_offset c) d.

Definition set_chunks (st : state) (h : gmap Z chunk) : state :=
  mkState (arenas st) h (os st) (leaked st).
Definition set_arenas (st : state) (m : gmap Z arena) : state :=
  mkState m (chunks st) (os st) (leaked st).
Definition set_os (st : state) (l : list os_reply) : state :=
  mkState (arenas st) (chunks st) l (leaked st).

(** ** The monad of C computations *)

Inductive outcome (A : Type) : Type :=
| Ret (v : A) (st : state)   (* normal return *)
| Fault                      (* invalid memory access *)
| Abort                      (* assert failed *)
| Timeout.                   (* loop fuel exhausted *)
Arguments Ret {A} v st.
Arguments Fault {A}.
Arguments Abort {A}.
Arguments Timeout {A}.

Definition M (A : Type) : Type := state → outcome A.

#[global] Instance M_ret : MRet M := λ A v st, Ret v st.
#[global] Instance M_bind : MBind M := λ A B f m st,
  match m st with
  | Ret v st' => f v st'
  | Fault => Fault
  | Abort => Abort
  | Timeout => Timeout
  end.

Definition fault {A} : M A := λ _, Fault.
Definition abort {A} : M A := λ _, Abort.
Definition timeout {A} : M A := λ _, Timeout.

(** [assert(b)] *)
Definition c_assert (b : bool) : M unit := if b then mret tt else abort.

(** *** Memory accesses *)

Definition load_chunk (p : Z) : M chunk := λ st,
  if p =? 0 then Fault else
  match chunks st !! p with
  | Some c => Ret c st
  | None => Fault
  end.

Definition store_chunk (p : Z) (c : chunk) : M unit := λ st,
  if p =? 0 then Fault else
  match chunks st !! p with
  | Some _ => Ret tt (set_chunks st (<[p := c]> (chunks st)))
  | None => Fault
  end.

(** [p->field = v] *)
Definition store_field (p : Z) (upd : chunk → Z → chunk) (v : Z) : M unit :=
  c ← load_chunk p; store_chunk p (upd c v).

Definition load_arena (p : Z) : M arena := λ st,
  if p =? 0 then Fault else
  match arenas st !! p with
  | Some a => Ret a st
  | None => Fault
  end.

Definition store_arena (p : Z) (a : arena) : M unit := λ st,
  if p =? 0 then Fault else
  match arenas st !! p with
  | Some _ => Ret tt (set_arenas st (<[p := a]> (arenas st)))
  | None => Fault
  end.

(** [&c->ch_data[off]] as a [uintptr_t]. *)
Definition data_addr (c off : Z) : Z := uint (c + sizeof_chunk + off).

Definition zeros (n : Z) : list Byte.byte := replicate (Z.to_nat n) Byte.x00.

(** [fits l n]: the region [l] holds at least [n] bytes. *)
Fixpoint fits (l : list Byte.byte) (n : Z) : bool :=
  if n <=? 0 then true else
  match l with
  | [] => false
  | _ :: l' => fits l' (n - 1)
  end.

(** [memcpy(&dst[at], src, n)] on the data regions of two chunks, where
    [n] has been converted to [size_t]; no byte may lie outside either
    region. *)
Definition memcpy_data (dst : list Byte.byte) (at_ : Z) (src : list Byte.byte) (n : Z)
  : option (list Byte.byte) :=
  let n := uint n in
  if n =? 0 then Some dst
  else if (0 <=? at_) && fits dst (at_ + n) && fits src n
  then Some (take (Z.to_nat at_) dst ++ take (Z.to_nat n) src ++ drop (Z.to_nat (at_ + n)) dst)
  else None.

(** [memset(d, 0, n)] on a data region. *)
Definition memset_data (d : list Byte.byte) (n : Z) : option (list Byte.byte) :=
  let n := uint n in
  if fits d n
  then Some (zeros n ++ drop (Z.to_nat n) d)
  else None.

(** *** The operating system *)

(** The next answer of the OS; a system whose script is exhausted has no
    descriptor left to give. *)
Definition next_reply : M os_reply := λ st,
  match os st with
  | [] => Ret OpenFails st
  | r :: rs => Ret r (set_os st rs)
  end.

(** A successful [mmap] of /dev/zero at [a]: a zero-filled block whose
    data region holds [size] bytes. *)
Definition map_block (a size : Z) : M unit := λ st,
  Ret tt (set_chunks st (<[a := mkChunk 0 0 0 (zeros size)]> (chunks st))).

(** The mapping of a chunk: [mmap] rounds the header and the data region
    up to whole pages. *)
Definition extent (c : chunk) : Z :=
  page_span (sizeof_chunk + Z.of_nat (length (ch_data c))).

(** What [munmap(p, len)] leaves mapped of the chunk [c] at [p]: the
    pages behind the ones that [len] bytes touch. *)
Definition kept (p : Z) (c : chunk) (len : Z) : list (Z * Z) :=
  if page_span len <? extent c
  then [(p + page_span len, extent c - page_span len)]
  else [].

(** The state after [munmap(p, len)] at the base of the chunk [c]: the
    page that holds the header is gone, so the chunk can no longer be
    accessed; the pages that a too small [len] leaves mapped are lost to
    the program. *)
Definition unmapped (st : state) (p : Z) (c : chunk) (len : Z) : state :=
  mkState (arenas st) (delete p (chunks st)) (os st) (kept p c len ++ leaked st).

(** [munmap(p, len)] at the base of a mapped chunk, the only place where
    glad.h calls it; [len] is a [size_t].  The call fails with [EINVAL]
    for a length of 0 and for a length beyond the address space, and
    otherwise unmaps the pages of the chunk that the range touches.  The
    model has no layout of the address space: it treats every chunk as a
    mapping of its own, so a range that reached beyond the mapping of the
    chunk would leave the neighbours alone here.  No chunk that glad.h
    builds records a size beyond its data region, and the statements
    about [free_chunk] below ask for a range inside the mapping. *)
Definition munmap (p len : Z) : M Z := λ st,
  if (len =? 0) || (TASK_SIZE <? len) then Ret (-1) st else
  match chunks st !! p with
  | Some c => Ret 0 (unmapped st p c len)
  | None => Fault
  end.

(** ** Chunk manager *)

Definition alloc_chunk (size flags : Z) : M Z :=
  if size =? 0 then mret 0 else
  let allocation_size := CHUNK_ALLOC_SIZE size in
  if allocation_size <? size then mret 0 else
  r ← next_reply;
  match r with
  | OpenFails => mret 0
  | MapFails => if flag_set flags SOFTFAIL then mret 0 else abort
  | Mapped ret_chunk =>
      map_block ret_chunk size;;
      (if flag_set flags ZEROMEM
       then c ← load_chunk ret_chunk;
            store_chunk ret_chunk (mkChunk 0 0 0 (map (λ _, Byte.x00) (ch_data c)))
       else mret tt);;
      store_field ret_chunk set_next 0;;
      store_field ret_chunk set_size size;;
      store_field ret_chunk set_offset 0;;
      mret ret_chunk
  end.

(** [CHUNK_ALLOC_SIZE(chunk->ch_size)] as [free_chunk] computes it.  The
    parameter of [void free_chunk(chunk* chunk)] hides the type [chunk],
    so the [sizeof(chunk)] of the macro is the size of the pointer there:
    the length is [8 + ch_size], computed in [size_t] and stored in a
    [ptrdiff_t]. *)
Definition free_chunk_size (X : Z) : Z :=
  sint (uint (sizeof_pointer + uint (sizeof_char * uint X))).

Definition free_chunk (chunk : Z) : M unit :=
  if chunk =? 0 then mret tt else
  c ← load_chunk chunk;
  let allocation_size := free_chunk_size (ch_size c) in
  check ← munmap chunk (uint allocation_size);
  c_assert (check =? 0).

(** ** Arena operations

    Every [while (cursor)] loop is a fixpoint on a fuel argument; running
    out of fuel is [Timeout].  A chain of [n] chunks needs [n] units. *)

(** The first-fit scan of [arena_alloc]: [Some start_addr] when the loop
    returns from inside, [None] when it falls through. *)
Fixpoint alloc_scan (fuel : nat) (cursor alloc_size alignment : Z) : M (option Z) :=
  if cursor =? 0 then mret None else
  match fuel with
  | O => timeout
  | S fuel' =>
      c ← load_chunk cursor;
      let current_address := data_addr cursor (ch_offset c) in
      let misalignment := current_address `mod` uint alignment in
      (if misalignment =? 0 then mret tt
       else store_field cursor set_offset
              (sint (uint (ch_offset c + uint (alignment - misalignment)))));;
      c1 ← load_chunk cursor;
      if alloc_size <=? sint (ch_size c1 - ch_offset c1) then
        let start_addr := data_addr cursor (ch_offset c1) in
        store_field cursor set_offset (sint (ch_offset c1 + alloc_size));;
        mret (Some start_addr)
      else alloc_scan fuel' (ch_next c1) alloc_size alignment
  end.

(** The growth step of [arena_alloc], after the scan fell through. *)
Definition alloc_grow (arena alloc_size chunk_size alignment flags : Z) : M Z :=
  new_chunk ← alloc_chunk chunk_size flags;
  if new_chunk =? 0 then mret 0 else
  c ← load_chunk new_chunk;
  let current_address := data_addr new_chunk 0 in
  let misalignment := current_address `mod` uint alignment in
  (if misalignment =? 0 then mret tt
   else store_field new_chunk set_offset
          (sint (uint (ch_offset c + uint (alignment - misalignment)))));;
  c1 ← load_chunk new_chunk;
  let start_addr := data_addr new_chunk (ch_offset c1) in
  store_field new_chunk set_offset (sint (ch_offset c1 + alloc_size));;
  ar ← load_arena arena;
  store_field (ar_tail ar) set_next new_chunk;;
  ar ← load_arena arena;
  store_arena arena (mkArena (ar_head ar) new_chunk);;
  mret start_addr.

(** [arena_alloc] after its argument check and the initialisation of an
    empty arena. *)
Definition alloc_find (fuel : nat) (arena alloc_size chunk_size alignment flags : Z) : M Z :=
  ar ← load_arena arena;
  r ← alloc_scan fuel (ar_head ar) alloc_size alignment;
  match r with
  | Some start_addr => mret start_addr
  | None => alloc_grow arena alloc_size chunk_size alignment flags
  end.

Definition arena_alloc (fuel : nat) (arena num_bytes alignment flags : Z) : M Z :=
  if (arena =? 0) || (num_bytes =? 0) || (alignment =? 0)
     || negb (Z.land alignment (sint (alignment - 1)) =? 0)
  then mret 0 else
  let alloc_size := ROUND_UP num_bytes alignment in
  let chunk_size := ROUND_UP_DEFAULT alloc_size in
  ar ← load_arena arena;
  if ar_tail ar =? 0 then
    c_assert (ar_head ar =? 0);;
    new_head ← alloc_chunk chunk_size flags;
    if new_head =? 0 then mret 0 else
    store_arena arena (mkArena new_head (ar_tail ar));;
    ar ← load_arena arena;
    store_arena arena (mkArena (ar_head ar) (ar_head ar));;
    alloc_find fuel arena alloc_size chunk_size alignment flags
  else alloc_find fuel arena alloc_size chunk_size alignment flags.

(** [memcpy(dst, src, n)] where [dst] is a raw address: the bytes go to
    the mapped chunk whose data region contains the destination range. *)
Definition store_bytes (dst : Z) (src : list Byte.byte) (n : Z) : M unit := λ st,
  match find (λ '(p, c), (p + sizeof_chunk <=? dst)
                         && fits (ch_data c) (dst - (p + sizeof_chunk) + uint n))
             (map_to_list (chunks st)) with
  | Some (p, c) =>
      match memcpy_data (ch_data c) (dst - (p + sizeof_chunk)) src n with
      | Some bytes => Ret tt (set_chunks st (<[p := set_data c bytes]> (chunks st)))
      | None => Fault
      end
  | None => Fault
  end.

(** [arena_push]; the caller's buffer is [None] when the pointer is null. *)
Definition arena_push (fuel : nat) (arena : Z) (data : option (list Byte.byte))
    (size alignment flags : Z) : M Z :=
  match data with
  | None => mret 0
  | Some buffer =>
      if arena =? 0 then mret 0 else
      start_addr ← arena_alloc fuel arena size alignment flags;
      if start_addr =? 0 then mret 0 else
      store_bytes start_addr buffer (sizeof_char * size);;
      mret start_addr
  end.

Fixpoint get_size_loop (fuel : nat) (cursor size : Z) : M Z :=
  if cursor =? 0 then mret size else
  match fuel with
  | O => timeout
  | S fuel' =>
      c ← load_chunk cursor;
      get_size_loop fuel' (ch_next c) (sint (size + ch_offset c))
  end.

Definition arena_get_size (fuel : nat) (arena : Z) : M Z :=
  if arena =? 0 then mret 0 else
  ar ← load_arena arena;
  get_size_loop fuel (ar_head ar) 0.

(** The copy loop of [arena_crop_and_coalesce]. *)
Fixpoint crop_loop (fuel : nat) (cropped cursor curr_offset : Z) : M unit :=
  if cursor =? 0 then mret tt else
  match fuel with
  | O => timeout
  | S fuel' =>
      c ← load_chunk cursor;
      d ← load_chunk cropped;
      match memcpy_data (ch_data d) curr_offset (ch_data c) (sizeof_char * ch_offset c) with
      | None => fault
      | Some bytes =>
          store_chunk cropped (set_data d bytes);;
          c ← load_chunk cursor;
          let curr_offset := sint (curr_offset + ch_offset c) in
          let prev := cursor in
          let cursor := ch_next c in
          free_chunk prev;;
          crop_loop fuel' cropped cursor curr_offset
      end
  end.

Definition arena_crop_and_coalesce (fuel : nat) (arena flags : Z) : M Z :=
  if arena =? 0 then mret 0 else
  alloc_size ← arena_get_size fuel arena;
  cropped ← alloc_chunk alloc_size flags;
  if cropped =? 0 then mret 0 else
  ar ← load_arena arena;
  crop_loop fuel cropped (ar_head ar) 0;;
  ar ← load_arena arena;
  store_arena arena (mkArena cropped (ar_tail ar));;
  ar ← load_arena arena;
  store_arena arena (mkArena (ar_head ar) (ar_head ar));;
  mret (data_addr cropped 0).

Fixpoint clear_loop (fuel : nat) (cursor : Z) : M unit :=
  if cursor =? 0 then mret tt else
  match fuel with
  | O => timeout
  | S fuel' =>
      c ← load_chunk cursor;
      match memset_data (ch_data c) (sizeof_char * ch_size c) with
      | None => fault
      | Some bytes =>
          store_chunk cursor (set_data c bytes);;
          store_field cursor set_offset 0;;
          c ← load_chunk cursor;
          clear_loop fuel' (ch_next c)
      end
  end.

Definition arena_clear (fuel : nat) (arena : Z) : M unit :=
  if arena =? 0 then mret tt else
  ar ← load_arena arena;
  clear_loop fuel (ar_head ar).

Fixpoint reset_loop (fuel : nat) (cursor : Z) : M unit :=
  if cursor =? 0 then mret tt else
  match fuel with
  | O => timeout
  | S fuel' =>
      store_field cursor set_offset 0;;
      c ← load_chunk cursor;
      reset_loop fuel' (ch_next c)
  end.

Definition arena_reset (fuel : nat) (arena : Z) : M unit :=
  if arena =? 0 then mret tt else
  ar ← load_arena arena;
  reset_loop fuel (ar_head ar).

(** [memset(cursor, 0, CHUNK_ALLOC_SIZE(cursor->ch_size))]: the range
    starts at the chunk itself, so the header is zeroed with the data. *)
Definition memset_chunk (cursor : Z) : M unit :=
  c ← load_chunk cursor;
  match memset_data (ch_data c) (CHUNK_ALLOC_SIZE (ch_size c) - sizeof_chunk) with
  | None => fault
  | Some bytes => store_chunk cursor (mkChunk 0 0 0 bytes)
  end.

Fixpoint free_loop (fuel : nat) (cursor flags : Z) : M unit :=
  if cursor =? 0 then mret tt else
  match fuel with
  | O => timeout
  | S fuel' =>
      (if flag_set flags ZEROMEM then memset_chunk cursor else mret tt);;
      let prev := cursor in
      c ← load_chunk cursor;
      let cursor := ch_next c in
      free_chunk prev;;
      free_loop fuel' cursor flags
  end.

Definition arena_free (fuel : nat) (arena flags : Z) : M unit :=
  if arena =? 0 then mret tt else
  ar ← load_arena arena;
  free_loop fuel (ar_head ar) flags.

(** [new->ch_offset = src->ch_offset; new->ch_size = src->ch_size;
    memcpy(new->ch_data, src->ch_data, src->ch_offset)] *)
Definition copy_chunk (new src : Z) : M unit :=
  s ← load_chunk src;
  store_field new set_offset (ch_offset s);;
  s ← load_chunk src;
  store_field new set_size (ch_size s);;
  s ← load_chunk src;
  n ← load_chunk new;
  match memcpy_data (ch_data n) 0 (ch_data s) (sizeof_char * ch_offset s) with
  | None => fault
  | Some bytes => store_chunk new (set_data n bytes)
  end.

(** The loop of [arena_copy]; [free_fuel] is the fuel of the [arena_free]
    that cleans up after a failed acquisition. *)
Fixpoint copy_loop (free_fuel fuel : nat) (copy_dst src_cursor dst_cursor flags : Z)
  : M unit :=
  if src_cursor =? 0 then mret tt else
  match fuel with
  | O => timeout
  | S fuel' =>
      s ← load_chunk src_cursor;
      new_chunk ← alloc_chunk (ch_size s) flags;
      if new_chunk =? 0 then arena_free free_fuel copy_dst flags else
      copy_chunk new_chunk src_cursor;;
      store_field dst_cursor set_next new_chunk;;
      d ← load_arena copy_dst;
      store_arena copy_dst (mkArena (ar_head d) new_chunk);;
      s ← load_chunk src_cursor;
      copy_loop free_fuel fuel' copy_dst (ch_next s) new_chunk flags
  end.

Definition arena_copy (fuel : nat) (copy_dst copy_src flags : Z) : M unit :=
  if (copy_dst =? 0) || (copy_src =? 0) then mret tt else
  src ← load_arena copy_src;
  if (ar_head src =? 0) || (ar_tail src =? 0) then mret tt else
  h ← load_chunk (ar_head src);
  dst_head ← alloc_chunk (ch_size h) flags;
  copy_chunk dst_head (ar_head src);;
  d ← load_arena copy_dst;
  store_arena copy_dst (mkArena dst_head (ar_tail d));;
  d ← load_arena copy_dst;
  store_arena copy_dst (mkArena (ar_head d) (ar_head d));;
  src ← load_arena copy_src;
  h ← load_chunk (ar_head src);
  copy_loop (S fuel) fuel copy_dst (ch_next h) dst_head flags.

(** ** Specification vocabulary *)

(** [chain h p l]: following [ch_next] from [p] in the heap [h] visits
    exactly the chunks at the addresses [l] and then reaches null. *)
Fixpoint chain (h : gmap Z chunk) (p : Z) (l : list Z) : Prop :=
  match l with
  | [] => p = 0
  | a :: l' => p = a ∧ a ≠ 0 ∧ ∃ c, h !! a = Some c ∧ chain h (ch_next c) l'
  end.

(** The sum that [arena_get_size] accumulates along a chain. *)
Fixpoint sum_offsets (h : gmap Z chunk) (l : list Z) (size : Z) : Z :=
  match l with
  | [] => size
  | a :: l' =>
      match h !! a with
      | Some c => sum_offsets h l' (sint (size + ch_offset c))
      | None => size
      end
  end.

(** The offset of a chunk after the alignment fix-up that [arena_alloc]
    applies to it for a request of the given alignment. *)
Definition fixup (cursor : Z) (c : chunk) (alignment : Z) : Z :=
  let mis := data_addr cursor (ch_offset c) `mod` uint alignment in
  if mis =? 0 then ch_offset c
  else sint (uint (ch_offset c + uint (alignment - mis))).

(** The state in which the chunk at [p] has been overwritten by [c]. *)
Definition put_chunk (st : state) (p : Z) (c : chunk) : state :=
  set_chunks st (<[p := c]> (chunks st)).

(** The in-use bytes of the chunks at [l], in order: each chunk's first
    [ch_offset] bytes. *)
Fixpoint live_bytes (h : gmap Z chunk) (l : list Z) : list Byte.byte :=
  match l with
  | [] => []
  | a :: l' =>
      match h !! a with
      | Some c => take (Z.to_nat (ch_offset c)) (ch_data c) ++ live_bytes h l'
      | None => []
      end
  end.

(** The exact sum of the offsets of the chunks at [l]. *)
Fixpoint total_offsets (h : gmap Z chunk) (l : list Z) : Z :=
  match l with
  | [] => 0
  | a :: l' =>
      match h !! a with
      | Some c => ch_offset c + total_offsets h l'
      | None => 0
      end
  end.

(** The used part of every chunk at [l] lies inside its data region. *)
Definition offsets_in_bounds (h : gmap Z chunk) (l : list Z) : Prop :=
  ∀ a c, a ∈ l → h !! a = Some c → 0 <= ch_offset c <= Z.of_nat (length (ch_data c)).

(** Two versions of a chunk that differ at most in the offset. *)
Definition same_layout (c c' : chunk) : Prop :=
  ch_next c' = ch_next c ∧ ch_size c' = ch_size c ∧ ch_data c' = ch_data c.

(** A coarse frame for the scan, enough to see that links, sizes and
    data survive it: the scan touches nothing but the offset, and one
    that found no room ([r = None]) leaves alone a chunk whose used part
    ends on a multiple of [alignment].  What such a scan writes into the
    offsets exactly is lemma [alloc_scan_fallthrough]. *)
Definition padded (alignment : Z) (r : option Z) (p : Z) (c c' : chunk) : Prop :=
  same_layout c c' ∧
  (r = None → data_addr p (ch_offset c) `mod` uint alignment = 0 →
   ch_offset c' = ch_offset c).

(** [frame_rel R st st']: the two states have the same arenas and the
    same chunk addresses, and the chunks at each address are related by
    [R]. *)
Definition frame_rel (R : Z → chunk → chunk → Prop) (st st' : state) : Prop :=
  arenas st' = arenas st ∧
  ∀ p, match chunks st !! p, chunks st' !! p with
       | Some c, Some c' => R p c c'
       | None, None => True
       | _, _ => False
       end.

(** The OS never hands out the address of a block that is still mapped. *)
Definition os_fresh (st : state) : Prop :=
  ∀ a, Mapped a ∈ os st → chunks st !! a = None.

(** The same as a test. *)
Definition os_freshb (st : state) : bool :=
  forallb (λ r, match r with
                | Mapped a => match chunks st !! a with None => true | Some _ => false end
                | _ => true
                end) (os st).

(** The invariant of [arena_copy] with respect to the heap [h0] in which
    it was called: the arena struct at [src] and every chunk of [h0] are
    as they were, the chunks mapped since then only link to each other,
    and the OS will only hand out addresses outside [h0]. *)
Definition copy_inv (h0 : gmap Z chunk) (src : Z) (a0 : option arena) (st : state) : Prop :=
  arenas st !! src = a0 ∧
  (∀ p c, h0 !! p = Some c → chunks st !! p = Some c) ∧
  (∀ p c, h0 !! p = None → chunks st !! p = Some c →
          ch_next c ≠ 0 → h0 !! ch_next c = None) ∧
  (∀ a, Mapped a ∈ os st → h0 !! a = None).

(** The calls that a client makes on its arenas, and sequences of them. *)
Inductive call : Type :=
| Allocate (arena num_bytes alignment flags : Z)
| Push (arena : Z) (data : option (list Byte.byte)) (size alignment flags : Z)
| CropAndCoalesce (arena flags : Z)
| Copy (copy_dst copy_src flags : Z)
| Clear (arena : Z)
| Reset (arena : Z).

Definition exec (fuel : nat) (c : call) : M unit :=
  match c with
  | Allocate arena num_bytes alignment flags =>
      arena_alloc fuel arena num_bytes alignment flags;; mret tt
  | Push arena data size alignment flags =>
      arena_push fuel arena data size alignment flags;; mret tt
  | CropAndCoalesce arena flags => arena_crop_and_coalesce fuel arena flags;; mret tt
  | Copy copy_dst copy_src flags => arena_copy fuel copy_dst copy_src flags
  | Clear arena => arena_clear fuel arena
  | Reset arena => arena_reset fuel arena
  end.

Fixpoint exec_all (fuel : nat) (cs : list call) : M unit :=
  match cs with
  | [] => mret tt
  | c :: cs' => exec fuel c;; exec_all fuel cs'
  end.

(** A state is reachable when some sequence of calls leads to it from
    empty arenas, for some behaviour of the OS. *)
Definition reachable (empty : list os_reply → state) (st : state) : Prop :=
  ∃ fuel cs replies, exec_all fuel cs (empty replies) = Ret tt st.

(** The data-model invariant [0 <= offset <= size], for every chunk. *)
Definition offsets_within_capacity (st : state) : Prop :=
  ∀ p c, chunks st !! p = Some c → 0 <= ch_offset c <= ch_size c.

(** The last chunk of a chain, null for the chain without chunks. *)
Definition chain_last (l : list Z) : Z := default 0 (last l).

(** A well-formed arena: its struct is mapped, following [ch_next] from
    its head visits the mapped chunks [l] and reaches null, and its tail
    is the last of them (both ends are null when [l] is empty). *)
Definition arena_wf (st : state) (arena : Z) (l : list Z) : Prop :=
  ∃ ar, arenas st !! arena = Some ar ∧
        chain (chunks st) (ar_head ar) l ∧ ar_tail ar = chain_last l.

(** The addresses that the OS is going to hand out, in order. *)
Definition script_addresses (l : list os_reply) : list Z :=
  omap (λ r, match r with Mapped a => Some a | _ => None end) l.

(** A well-behaved OS: it never maps a block at null, never hands out
    the address of a block that is still mapped, and never the same
    address twice. *)
Definition os_sound (st : state) : Prop :=
  NoDup (script_addresses (os st)) ∧
  ∀ a, a ∈ script_addresses (os st) → a ≠ 0 ∧ chunks st !! a = None.

(** The padding of the scan for the alignment [2 ^ k] does not wrap
    around on any chunk of [st]. *)
Definition pad_safe (k : Z) (st : state) : Prop :=
  ∀ p c, chunks st !! p = Some c →
    0 <= ch_size c < half ∧ 0 <= ch_offset c <= fixup p c (2 ^ k) ∧
    fixup p c (2 ^ k) < ch_offset c + 2 ^ k ∧ fixup p c (2 ^ k) < half.

(** The recorded size of every chunk at [l] is the size of its data
    region (at most: the region is a whole number of pages). *)
Definition sizes_in_bounds (h : gmap Z chunk) (l : list Z) : Prop :=
  ∀ a c, a ∈ l → h !! a = Some c →
    0 <= ch_size c <= Z.of_nat (length (ch_data c)) ∧ ch_size c < half.

(** A chunk after [arena_clear]: offset 0 and the first [ch_size] bytes
    zero. *)
Definition cleared (c : chunk) : chunk :=
  mkChunk (ch_next c) (ch_size c) 0
          (zeros (ch_size c) ++ drop (Z.to_nat (ch_size c)) (ch_data c)).

(** What [arena_copy] needs of the chunks [l] of its source: sizes that
    [alloc_chunk] accepts, and a used part that lies inside the data
    region and inside the recorded size. *)
Definition copyable (h : gmap Z chunk) (l : list Z) : Prop :=
  ∀ a c, a ∈ l → h !! a = Some c →
    0 < ch_size c < half - sizeof_chunk ∧
    0 <= ch_offset c <= ch_size c ∧
    ch_offset c <= Z.of_nat (length (ch_data c)).

(** The chunk at [b] in [h'] is a copy of the chunk at [a] in [h]: same
    size, same offset, the same used bytes, and zeros behind them. *)
Definition copied (h h' : gmap Z chunk) (a b : Z) : Prop :=
  ∃ ca cb, h !! a = Some ca ∧ h' !! b = Some cb ∧
    ch_size cb = ch_size ca ∧ ch_offset cb = ch_offset ca ∧
    ch_data cb = take (Z.to_nat (ch_offset ca)) (ch_data ca)
                   ++ zeros (ch_size ca - ch_offset ca).

(** What [free_chunk] needs of the chunks at [l]: a length
    [8 + ch_size] that [munmap] accepts, and that stays inside the
    mapping of the chunk. *)
Definition releasable (h : gmap Z chunk) (l : list Z) : Prop :=
  ∀ a c, a ∈ l → h !! a = Some c →
    - sizeof_pointer < ch_size c <= TASK_SIZE - sizeof_pointer ∧
    page_span (sizeof_pointer + ch_size c) <= extent c.

(** The pages that stay mapped when [free_chunk] releases the chunks at
    [l] one after the other; the remains of the last release come
    first. *)
Fixpoint left_mapped (h : gmap Z chunk) (l : list Z) : list (Z * Z) :=
  match l with
  | [] => []
  | a :: l' =>
      left_mapped h l' ++
      match h !! a with
      | Some c => kept a c (sizeof_pointer + ch_size c)
      | None => []
      end
  end.

(** The calls that work on the arena at [arena] and leave it in the
    caller's hands: everything but [Copy]. *)
Definition targets (arena : Z) (c : call) : Prop :=
  match c with
  | Allocate a _ _ _ | Push a _ _ _ _ | CropAndCoalesce a _ | Clear a | Reset a => a = arena
  | Copy _ _ _ => False
  end.

(** [chain] as a test. *)
Fixpoint chainb (h : gmap Z chunk) (p : Z) (l : list Z) : bool :=
  match l with
  | [] => p =? 0
  | a :: l' =>
      (p =? a) && negb (a =? 0) &&
      match h !! a with
      | Some c => chainb h (ch_next c) l'
      | None => false
      end
  end.

(** [arena_wf] as a test. *)
Definition arena_wfb (st : state) (arena : Z) (l : list Z) : bool :=
  match arenas st !! arena with
  | Some ar => chainb (chunks st) (ar_head ar) l && (ar_tail ar =? chain_last l)
  | None => false
  end.

Fixpoint distinct (l : list Z) : bool :=
  match l with
  | [] => true
  | a :: l' => negb (existsb (Z.eqb a) l') && distinct l'
  end.

(** [os_sound] as a test. *)
Definition os_soundb (st : state) : bool :=
  distinct (script_addresses (os st)) &&
  forallb (λ a, negb (a =? 0) &&
                match chunks st !! a with None => true | Some _ => false end)
          (script_addresses (os st)).

(** A property of the chunks at [l], as a test. *)
Definition chunks_allb (P : Z → chunk → bool) (h : gmap Z chunk) (l : list Z) : bool :=
  forallb (λ a, match h !! a with Some c => P a c | None => true end) l.

(** ** States used in examples

    All of them arise from a caller that owns one arena struct at address
    [100] (and, for copies, a second one at [200]), initialised to
    [{0}], on a system that hands out page-aligned blocks. *)

Definition chunk_header : Type := Z * Z * Z.

(** The state reached by a computation, [st] itself if it does not return. *)
Definition final {A} (m : M A) (st : state) : state :=
  match m st with
  | Ret _ st' => st'
  | _ => st
  end.

(** The value returned by a computation, if it returns. *)
Definition value {A} (m : M A) (st : state) : option A :=
  match m st with
  | Ret v _ => Some v
  | _ => None
  end.

(** Header fields of the chunk at [p]: next, size, offset. *)
Definition header (st : state) (p : Z) : option chunk_header :=
  c ← chunks st !! p; Some (ch_next c, ch_size c, ch_offset c).

(** What a computation returns, and the arena structs and chunk headers
    that it leaves at the given addresses. *)
Definition observe {A} (m : M A) (st : state) (arena_ptrs chunk_ptrs : list Z)
  : option (A * list (option arena) * list (option chunk_header)) :=
  match m st with
  | Ret v st' =>
      Some (v, map (λ a, arenas st' !! a) arena_ptrs, map (header st') chunk_ptrs)
  | _ => None
  end.

Definition fresh_state (replies : list os_reply) : state :=
  mkState {[ 100 := mkArena 0 0; 200 := mkArena 0 0 ]} ∅ replies [].

(** 16 bytes were allocated, then the arena was cropped: one chunk of 16
    bytes remains. *)
Definition cropped_state : state :=
  final (arena_alloc 1 100 16 8 0;; arena_crop_and_coalesce 1 100 0)
        (fresh_state [Mapped 65536; Mapped 16777216]).

(** 8 bytes were allocated, then the arena was reset. *)
Definition reset_state : state :=
  final (arena_alloc 1 100 8 8 0;; arena_reset 1 100)
        (fresh_state [Mapped 65536; Mapped 16777216]).

(** 8 bytes were allocated in a fresh arena: one default-sized chunk. *)
Definition one_chunk_state : state :=
  final (arena_alloc 1 100 8 8 0) (fresh_state [Mapped 65536; Mapped 16777216]).

(** Then 4 MiB more were requested, which the first chunk cannot hold. *)
Definition grown_state : state :=
  final (arena_alloc 2 100 4194304 1 0) one_chunk_state.


(** Eight bytes are in use and the OS has no memory left to map. *)
Definition even_exhausted_state : state :=
  final (arena_alloc 1 100 8 8 0) (fresh_state [Mapped 65536; MapFails]).

(** 8 bytes are in use in one chunk and the system has no file
    descriptor left: [open] fails. *)
Definition no_descriptor_state : state :=
  final (arena_alloc 1 100 8 8 0) (fresh_state [Mapped 65536; OpenFails]).

(** An arena of three chunks that was reset and then used for 8 bytes;
    the OS can map two more blocks. *)
Definition three_chunk_state : state :=
  final (arena_alloc 1 100 8 8 0;; arena_alloc 2 100 4194304 1 0;;
         arena_alloc 3 100 4194304 1 0;; arena_reset 3 100;;
         arena_alloc 3 100 8 8 0)
        (fresh_state [Mapped 65536; Mapped 16777216; Mapped 33554432;
                      Mapped 50331648; Mapped 67108864; MapFails]).

(** The int 42 and then two more bytes were pushed into a fresh arena
    (the first push is the scenario of the repository's test of crop and
    coalesce). *)
Definition pushed_state : state :=
  final (arena_push 1 100 (Some [Byte.x2a; Byte.x00; Byte.x00; Byte.x00]) 4 4 0;;
         arena_push 1 100 (Some [Byte.x01; Byte.x02]) 2 1 0)
        (fresh_state [Mapped 65536; Mapped 16777216]).

(** A request for exactly 4 MiB filled the first chunk. *)
Definition full_chunk_state : state :=
  final (arena_alloc 1 100 4194304 1 0) (fresh_state [Mapped 65536; Mapped 16777216]).

(** A heap with small chunks.  The arena at [100] owns the chain
    [4096 → 8192], with 5 of 16 and 3 of 32 bytes in use; the arena at
    [200] is empty; the OS can map two more blocks. *)
Definition small_head : chunk :=
  mkChunk 8192 16 5 ([Byte.x01; Byte.x02; Byte.x03; Byte.x04; Byte.x05] ++ zeros 11).

Definition small_second : chunk :=
  mkChunk 0 32 3 ([Byte.x0a; Byte.x0b; Byte.x0c] ++ zeros 29).

Definition small_state : state :=
  mkState {[ 100 := mkArena 4096 8192; 200 := mkArena 0 0 ]}
          {[ 4096 := small_head; 8192 := small_second ]}
          [Mapped 12288; Mapped 16384; MapFails] [].

(** The calls of a short session on the arena at [100]. *)
Definition session : list call :=
  [Allocate 100 8 8 0; Push 100 (Some [Byte.x01; Byte.x02]) 2 1 0; Reset 100;
   Allocate 100 16 16 0; CropAndCoalesce 100 0; Clear 100].

(** * Reasoning principles *)

(** ** Machine arithmetic *)

Section IntFacts.

Lemma modulus_eq : modulus = 18446744073709551616.
Proof. reflexivity. Qed.

Lemma half_eq : half = 9223372036854775808.
Proof. reflexivity. Qed.

Lemma uint_range z : 0 <= uint z < modulus.
Proof. unfold uint. apply Z.mod_pos_bound. reflexivity. Qed.

Lemma sint_range z : is_ptrdiff (sint z).
Proof.
  unfold is_ptrdiff, sint.
  pose proof (Z.mod_pos_bound (z + half) modulus eq_refl).
  rewrite modulus_eq, half_eq in *. lia.
Qed.

Lemma uint_small z : 0 <= z < modulus → uint z = z.
Proof. intros. unfold uint. apply Z.mod_small. lia. Qed.

Lemma sint_small z : is_ptrdiff z → sint z = z.
Proof.
  unfold is_ptrdiff, sint. rewrite modulus_eq, half_eq. intros.
  rewrite Z.mod_small; lia.
Qed.

(** Both conversions only move a value by a multiple of [2^64]. *)
Lemma uint_spec z : ∃ q, uint z = z + q * modulus.
Proof.
  exists (- (z / modulus)). unfold uint.
  rewrite (Z.mod_eq z modulus) by (rewrite modulus_eq; lia). lia.
Qed.

Lemma sint_spec z : ∃ q, sint z = z + q * modulus.
Proof.
  exists (- ((z + half) / modulus)). unfold sint.
  rewrite (Z.mod_eq (z + half) modulus) by (rewrite modulus_eq; lia). lia.
Qed.

(** A power of two that a [ptrdiff_t] can hold divides [2^64]. *)
Lemma pow2_divides_modulus k : 0 <= k < 63 → ∃ t, modulus = 2 ^ k * t.
Proof.
  intros Hk. exists (2 ^ (64 - k)).
  rewrite <- Z.pow_add_r by lia. unfold modulus. f_equal. lia.
Qed.

Lemma pow2_ptrdiff k : 0 <= k < 63 → 0 < 2 ^ k < half.
Proof.
  intros Hk. split; [apply Z.pow_pos_nonneg; lia|].
  unfold half. apply Z.pow_lt_mono_r; lia.
Qed.

End IntFacts.

Lemma CHUNK_ALLOC_SIZE_exact size :
  0 <= size < half - sizeof_chunk → CHUNK_ALLOC_SIZE size = sizeof_chunk + size.
Proof.
  unfold CHUNK_ALLOC_SIZE, sizeof_chunk, sizeof_char. rewrite half_eq. intros H.
  rewrite (uint_small size) by (rewrite modulus_eq; lia).
  rewrite Z.mul_1_l.
  rewrite (uint_small size) by (rewrite modulus_eq; lia).
  rewrite uint_small by (rewrite modulus_eq; lia).
  apply sint_small. unfold is_ptrdiff. rewrite half_eq. lia.
Qed.

Lemma land_high_mask x :
  0 <= x < modulus →
  Z.land x (uint (- (4096 * 1024)) / sizeof_char) = 4194304 * (x / 4194304).
Proof.
  intros Hx.
  replace (uint (- (4096 * 1024)) / sizeof_char) with (Z.shiftl (Z.ones 42) 22)
    by reflexivity.
  transitivity (Z.ldiff x (Z.ones 22)).
  - apply Z.bits_inj'. intros n Hn.
    rewrite Z.land_spec, Z.ldiff_spec, Z.shiftl_spec by done.
    destruct (Z.testbit x n) eqn:Ex; [|done]. simpl.
    destruct (Z_lt_ge_dec n 64) as [Hlt|Hge].
    + destruct (Z_lt_ge_dec n 22).
      * rewrite Z.testbit_neg_r by lia. rewrite Z.ones_spec_low by lia. done.
      * rewrite Z.ones_spec_low by lia. rewrite Z.ones_spec_high by lia. done.
    + exfalso. assert (Z.testbit x n = false); [|congruence].
      destruct (Z.eq_dec x 0) as [->|]; [apply Z.bits_0|].
      apply Z.bits_above_log2; [lia|].
      assert (Z.log2 x < 64); [|lia].
      apply Z.log2_lt_pow2; [lia|]. unfold modulus in Hx. lia.
  - rewrite Z.ldiff_ones_r by lia.
    rewrite Z.shiftl_mul_pow2, Z.shiftr_div_pow2 by lia.
    change (2 ^ 22) with 4194304. lia.
Qed.

Lemma ROUND_UP_DEFAULT_bounds v :
  0 <= v <= half - DEFAULT_CHUNK_SIZE →
  v <= ROUND_UP_DEFAULT v < v + DEFAULT_CHUNK_SIZE ∧
  ROUND_UP_DEFAULT v `mod` DEFAULT_CHUNK_SIZE = 0.
Proof.
  change DEFAULT_CHUNK_SIZE with 4194304. rewrite half_eq. intros Hv.
  unfold ROUND_UP_DEFAULT. change DEFAULT_CHUNK_SIZE with 4194304.
  rewrite (uint_small v) by (rewrite modulus_eq; lia).
  rewrite (uint_small (v + _)) by (rewrite modulus_eq; lia).
  rewrite (uint_small (v + _ - 1)) by (rewrite modulus_eq; lia).
  rewrite land_high_mask by (rewrite modulus_eq; lia).
  pose proof (Z.mod_eq (v + 4194304 - 1) 4194304 ltac:(lia)) as Hm.
  pose proof (Z.mod_pos_bound (v + 4194304 - 1) 4194304 ltac:(lia)) as Hb.
  rewrite sint_small by (unfold is_ptrdiff; rewrite half_eq; lia).
  split; [lia|]. rewrite Z.mul_comm. apply Z.mod_mul. lia.
Qed.

Lemma pow2_land_pred k : 0 <= k → Z.land (2 ^ k) (2 ^ k - 1) = 0.
Proof.
  intros Hk. replace (2 ^ k - 1) with (Z.ones k) by (rewrite Z.ones_equiv; lia).
  rewrite Z.land_ones by done. apply Z.mod_same. apply Z.pow_nonzero; lia.
Qed.

Lemma not_pow2_land_pred a :
  0 < a → (∀ k, 0 <= k → a ≠ 2 ^ k) → Z.land a (a - 1) ≠ 0.
Proof.
  intros Ha Hnp Hland.
  pose proof (Z.log2_spec a Ha) as [Hlo Hhi].
  pose proof (Z.log2_nonneg a) as Hk.
  assert (2 ^ Z.log2 a <> a) as Hne by (intros E; by apply (Hnp (Z.log2 a))).
  assert (Z.log2 (a - 1) = Z.log2 a) as Hlog.
  { apply Z.log2_unique; [done|]. lia. }
  assert (Z.testbit (Z.land a (a - 1)) (Z.log2 a) = true) as Hbit.
  { rewrite Z.land_spec, Z.bit_log2 by done.
    rewrite <- Hlog. rewrite Z.bit_log2; [done|].
    assert (0 < 2 ^ Z.log2 a) by (apply Z.pow_pos_nonneg; lia). lia. }
  rewrite Hland, Z.bits_0 in Hbit. done.
Qed.

(** *** Rounding up to a power of two *)

Lemma land_neg_pow2 x k : 0 <= k → Z.land x (- 2 ^ k) = 2 ^ k * (x / 2 ^ k).
Proof.
  intros Hk.
  replace (- 2 ^ k) with (Z.lnot (Z.ones k))
    by (rewrite Z.ones_equiv; unfold Z.lnot; lia).
  rewrite <- Z.ldiff_land, Z.ldiff_ones_r by done.
  rewrite Z.shiftl_mul_pow2, Z.shiftr_div_pow2 by done. lia.
Qed.

Lemma ROUND_UP_exact val k :
  0 <= k < 63 → - half <= val → val + 2 ^ k < half →
  ROUND_UP val (2 ^ k) = 2 ^ k * ((val + 2 ^ k - 1) / 2 ^ k).
Proof.
  intros Hk Hlo Hhi. pose proof (pow2_ptrdiff k Hk) as Hp.
  unfold ROUND_UP.
  rewrite (sint_small (val + 2 ^ k)) by (unfold is_ptrdiff; lia).
  rewrite (sint_small (val + 2 ^ k - 1)) by (unfold is_ptrdiff; lia).
  rewrite (sint_small (- 2 ^ k)) by (unfold is_ptrdiff; lia).
  apply land_neg_pow2. lia.
Qed.

Lemma ROUND_UP_bounds val k :
  0 <= k < 63 → - half <= val → val + 2 ^ k < half →
  val <= ROUND_UP val (2 ^ k) < val + 2 ^ k.
Proof.
  intros Hk Hlo Hhi. pose proof (pow2_ptrdiff k Hk) as Hp.
  rewrite ROUND_UP_exact by done.
  pose proof (Z.mod_eq (val + 2 ^ k - 1) (2 ^ k) ltac:(lia)) as Hm.
  pose proof (Z.mod_pos_bound (val + 2 ^ k - 1) (2 ^ k) ltac:(lia)) as Hb.
  lia.
Qed.

(** X1. [ROUND_UP(val, size)] with [size] a power of two, as
    [arena_alloc] uses it on the requested size: as long as
    [val + size] does not overflow [ptrdiff_t], the result is the least
    multiple of [size] that is not below [val].  It lies in
    [val .. val + size - 1], it is a multiple of [size], and a [val] that
    is already a multiple is returned as it is.  The sign of [val] plays
    no role. *)
Theorem ROUND_UP_pow2 val k :
  0 <= k < 63 → - half <= val → val + 2 ^ k < half →
  val <= ROUND_UP val (2 ^ k) < val + 2 ^ k ∧
  ROUND_UP val (2 ^ k) `mod` 2 ^ k = 0 ∧
  (val `mod` 2 ^ k = 0 → ROUND_UP val (2 ^ k) = val).
Proof.
  intros Hk Hlo Hhi. pose proof (pow2_ptrdiff k Hk) as Hp.
  rewrite ROUND_UP_exact by done.
  pose proof (Z.mod_eq (val + 2 ^ k - 1) (2 ^ k) ltac:(lia)) as Hm.
  pose proof (Z.mod_pos_bound (val + 2 ^ k - 1) (2 ^ k) ltac:(lia)) as Hb.
  split; [lia|]. split.
  - rewrite Z.mul_comm. apply Z.mod_mul. lia.
  - intros Hal. apply Z.mod_divide in Hal as [q ->]; [|lia].
    replace (q * 2 ^ k + 2 ^ k - 1) with ((2 ^ k - 1) + q * 2 ^ k) by lia.
    rewrite Z.div_add by lia. rewrite Z.div_small by lia. lia.
Qed.

Lemma ROUND_UP_pow2_witness :
  13 <= ROUND_UP 13 (2 ^ 3) < 13 + 2 ^ 3 ∧
  ROUND_UP 13 (2 ^ 3) `mod` 2 ^ 3 = 0 ∧
  (13 `mod` 2 ^ 3 = 0 → ROUND_UP 13 (2 ^ 3) = 13).
Proof. apply (ROUND_UP_pow2 13 3); vm_compute; done. Defined.

(** *** Conversions that do not wrap *)

(** [sint z] is the one value of [ptrdiff_t] that differs from [z] by a
    multiple of [2^64]. *)
Lemma sint_unique z v : is_ptrdiff v → (∃ q, v = z + q * modulus) → sint z = v.
Proof.
  intros Hv [q Hq]. destruct (sint_spec z) as [q' Hq'].
  pose proof (sint_range z) as Hr. unfold is_ptrdiff in *.
  rewrite half_eq, modulus_eq in *. lia.
Qed.

Lemma sint_uint z : is_ptrdiff z → sint (uint z) = z.
Proof.
  intros Hz. apply sint_unique; [done|].
  destruct (uint_spec z) as [q Hq]. exists (- q). lia.
Qed.

(** [CHUNK_ALLOC_SIZE] adds the header size to every size that stays
    [sizeof(chunk)] below [PTRDIFF_MAX], whatever its sign. *)
Lemma CHUNK_ALLOC_SIZE_signed size :
  - half <= size < half - sizeof_chunk → CHUNK_ALLOC_SIZE size = sizeof_chunk + size.
Proof.
  intros H. unfold CHUNK_ALLOC_SIZE. apply sint_unique.
  { unfold is_ptrdiff, sizeof_chunk in *. lia. }
  destruct (uint_spec size) as [q1 H1].
  destruct (uint_spec (sizeof_char * uint size)) as [q2 H2].
  destruct (uint_spec (sizeof_chunk + uint (sizeof_char * uint size))) as [q3 H3].
  exists (- (q1 + q2 + q3)). rewrite H3, H2, H1. unfold sizeof_char. lia.
Qed.

(** ** Data regions *)

Lemma zeros_length n : length (zeros n) = Z.to_nat n.
Proof. unfold zeros. apply length_replicate. Qed.

Lemma zeros_zeroed n : map (λ _, Byte.x00) (zeros n) = zeros n.
Proof. unfold zeros. induction (Z.to_nat n); simpl; congruence. Qed.

Lemma fits_spec l : ∀ n, fits l n = true ↔ n <= Z.of_nat (length l).
Proof.
  induction l as [|x l IH]; intros n; simpl.
  - destruct (Z.leb_spec n 0); split; (done || lia).
  - destruct (Z.leb_spec n 0); [split; (done || lia)|].
    rewrite IH. lia.
Qed.

Lemma memcpy_data_append done k src n :
  0 <= n <= Z.of_nat (length src) → n <= k → k < half →
  memcpy_data (done ++ zeros k) (Z.of_nat (length done)) src (sizeof_char * n) =
    Some (done ++ take (Z.to_nat n) src ++ zeros (k - n)).
Proof.
  intros Hn Hk Hh. unfold memcpy_data. change (sizeof_char * n) with (1 * n).
  rewrite Z.mul_1_l, uint_small by (rewrite modulus_eq; rewrite half_eq in Hh; lia).
  destruct (Z.eqb_spec n 0) as [->|Hnz].
  { simpl. by rewrite Z.sub_0_r. }
  assert (fits (done ++ zeros k) (Z.of_nat (length done) + n) = true) as ->.
  { apply fits_spec. rewrite length_app, zeros_length. lia. }
  assert (fits src n = true) as -> by (apply fits_spec; lia).
  destruct (Z.leb_spec 0 (Z.of_nat (length done))); [|lia]. simpl.
  rewrite Nat2Z.id, take_app_length. do 3 f_equal.
  replace (Z.to_nat (Z.of_nat (length done) + n)) with (length done + Z.to_nat n)%nat by lia.
  rewrite drop_app_add. unfold zeros. rewrite drop_replicate. f_equal. lia.
Qed.

Lemma memset_data_run d n :
  0 <= n <= Z.of_nat (length d) → n < half →
  memset_data d (sizeof_char * n) = Some (zeros n ++ drop (Z.to_nat n) d).
Proof.
  intros Hn Hlt. unfold memset_data. change (sizeof_char * n) with (1 * n).
  rewrite Z.mul_1_l, uint_small by (rewrite modulus_eq; rewrite half_eq in Hlt; lia).
  assert (fits d n = true) as -> by (apply fits_spec; lia). done.
Qed.

(** A [memcpy] of a positive number of bytes that succeeds stayed inside
    both regions. *)
Lemma memcpy_data_inv dst at_ src n bytes :
  0 < n < half → memcpy_data dst at_ src (sizeof_char * n) = Some bytes →
  0 <= at_ ∧ at_ + n <= Z.of_nat (length dst) ∧ n <= Z.of_nat (length src) ∧
  bytes = take (Z.to_nat at_) dst ++ take (Z.to_nat n) src ++ drop (Z.to_nat (at_ + n)) dst.
Proof.
  intros Hn. unfold memcpy_data. change (sizeof_char * n) with (1 * n).
  rewrite Z.mul_1_l, uint_small by (rewrite modulus_eq; rewrite half_eq in Hn; lia).
  destruct (Z.eqb_spec n 0); [lia|].
  destruct (Z.leb_spec 0 at_); [|done]. simpl.
  destruct (fits dst (at_ + n)) eqn:E1; [|done].
  destruct (fits src n) eqn:E2; [|done]. simpl. intros [= <-].
  apply fits_spec in E1, E2. done.
Qed.

(** ** Running monadic code *)

Lemma bind_inv {A B} (m : M A) (f : A → M B) st v st' :
  (m ≫= f) st = Ret v st' → ∃ x st1, m st = Ret x st1 ∧ f x st1 = Ret v st'.
Proof.
  unfold mbind, M_bind. destruct (m st) as [x st1| | |]; try discriminate.
  intros H. by exists x, st1.
Qed.

Lemma bind_run {A B} (m : M A) (f : A → M B) st x st1 :
  m st = Ret x st1 → (m ≫= f) st = f x st1.
Proof. unfold mbind, M_bind. by intros ->. Qed.

(** After [arena_free] the arena struct still holds the addresses of the
    released chunks, so a second [arena_free] reads released memory. *)
Lemma bind_fault {A B} (m : M A) (f : A → M B) st :
  m st = Fault → (m ≫= f) st = Fault.
Proof. unfold mbind, M_bind. by intros ->. Qed.

Lemma ret_inv {A} (x v : A) st st' :
  (mret x : M A) st = Ret v st' → v = x ∧ st' = st.
Proof. unfold mret, M_ret. by inversion 1. Qed.

Lemma ret_value_final {A} (m : M A) st v :
  value m st = Some v → m st = Ret v (final m st).
Proof. unfold value, final. destruct (m st); naive_solver. Qed.

Lemma load_chunk_inv p st c st' :
  load_chunk p st = Ret c st' → st' = st ∧ p ≠ 0 ∧ chunks st !! p = Some c.
Proof.
  unfold load_chunk. destruct (Z.eqb_spec p 0); [discriminate|].
  destruct (chunks st !! p); [|discriminate]. by inversion 1.
Qed.

Lemma load_chunk_run p st c :
  p ≠ 0 → chunks st !! p = Some c → load_chunk p st = Ret c st.
Proof.
  intros Hp Hc. unfold load_chunk. destruct (Z.eqb_spec p 0); [done|]. by rewrite Hc.
Qed.

Lemma load_chunk_fault p st : chunks st !! p = None → load_chunk p st = Fault.
Proof. intros H. unfold load_chunk. rewrite H. by destruct (p =? 0). Qed.

Lemma store_chunk_inv p c st u st' :
  store_chunk p c st = Ret u st' →
  st' = set_chunks st (<[p := c]> (chunks st)) ∧ p ≠ 0 ∧ is_Some (chunks st !! p).
Proof.
  unfold store_chunk. destruct (Z.eqb_spec p 0); [discriminate|].
  destruct (chunks st !! p) eqn:E; [|discriminate]. inversion 1. eauto.
Qed.

Lemma store_chunk_run p c st c0 :
  p ≠ 0 → chunks st !! p = Some c0 →
  store_chunk p c st = Ret tt (set_chunks st (<[p := c]> (chunks st))).
Proof.
  intros Hp Hc. unfold store_chunk. destruct (Z.eqb_spec p 0); [done|]. by rewrite Hc.
Qed.

Lemma store_field_inv p upd v st u st' :
  store_field p upd v st = Ret u st' →
  ∃ c, p ≠ 0 ∧ chunks st !! p = Some c ∧
       st' = set_chunks st (<[p := upd c v]> (chunks st)).
Proof.
  unfold store_field. intros H. apply bind_inv in H as (c & st1 & H1 & H2).
  apply load_chunk_inv in H1 as (-> & Hp & Hc).
  apply store_chunk_inv in H2 as (-> & _ & _). eauto.
Qed.

Lemma store_field_run p upd v st c :
  p ≠ 0 → chunks st !! p = Some c →
  store_field p upd v st = Ret tt (set_chunks st (<[p := upd c v]> (chunks st))).
Proof.
  intros Hp Hc. unfold store_field.
  rewrite (bind_run _ _ _ _ _ (load_chunk_run _ _ _ Hp Hc)).
  by apply store_chunk_run with c.
Qed.

Lemma load_arena_inv p st a st' :
  load_arena p st = Ret a st' → st' = st ∧ p ≠ 0 ∧ arenas st !! p = Some a.
Proof.
  unfold load_arena. destruct (Z.eqb_spec p 0); [discriminate|].
  destruct (arenas st !! p); [|discriminate]. by inversion 1.
Qed.

Lemma load_arena_run p st a :
  p ≠ 0 → arenas st !! p = Some a → load_arena p st = Ret a st.
Proof.
  intros Hp Ha. unfold load_arena. destruct (Z.eqb_spec p 0); [done|]. by rewrite Ha.
Qed.

Lemma store_arena_inv p a st u st' :
  store_arena p a st = Ret u st' →
  st' = set_arenas st (<[p := a]> (arenas st)) ∧ p ≠ 0 ∧ is_Some (arenas st !! p).
Proof.
  unfold store_arena. destruct (Z.eqb_spec p 0); [discriminate|].
  destruct (arenas st !! p) eqn:E; [|discriminate]. inversion 1. eauto.
Qed.

Lemma store_arena_run p a st a0 :
  p ≠ 0 → arenas st !! p = Some a0 →
  store_arena p a st = Ret tt (set_arenas st (<[p := a]> (arenas st))).
Proof.
  intros Hp Ha. unfold store_arena. destruct (Z.eqb_spec p 0); [done|]. by rewrite Ha.
Qed.

Lemma c_assert_inv b st u st' : c_assert b st = Ret u st' → b = true ∧ st' = st.
Proof. destruct b; simpl; [by inversion 1 | discriminate]. Qed.

Lemma put_chunk_same st p c : chunks st !! p = Some c → put_chunk st p c = st.
Proof.
  intros H. unfold put_chunk, set_chunks. rewrite insert_id by done. by destruct st.
Qed.

(** Decompose a hypothesis stating that a sequence of steps returned. *)
Ltac step_in H :=
  let x := fresh "x" in
  let s := fresh "st" in
  let H1 := fresh "Hrun" in
  apply bind_inv in H as (x & s & H1 & H).

Tactic Notation "step" hyp(H) "as" ident(x) ident(s) ident(H1) :=
  apply bind_inv in H as (x & s & H1 & H).

Ltac inv_prim :=
  repeat match goal with
  | H : load_chunk _ _ = Ret _ _ |- _ =>
      let Hp := fresh "Hnz" in let Hc := fresh "Hch" in
      apply load_chunk_inv in H as (-> & Hp & Hc)
  | H : load_arena _ _ = Ret _ _ |- _ =>
      let Hp := fresh "Hnz" in let Hc := fresh "Har" in
      apply load_arena_inv in H as (-> & Hp & Hc)
  | H : store_chunk _ _ _ = Ret _ _ |- _ =>
      let Hp := fresh "Hnz" in let Hc := fresh "Hsome" in
      apply store_chunk_inv in H as (-> & Hp & Hc)
  | H : store_arena _ _ _ = Ret _ _ |- _ =>
      let Hp := fresh "Hnz" in let Hc := fresh "Hsome" in
      apply store_arena_inv in H as (-> & Hp & Hc)
  | H : store_field _ _ _ _ = Ret _ _ |- _ =>
      let c := fresh "c" in
      let Hp := fresh "Hnz" in let Hc := fresh "Hch" in
      apply store_field_inv in H as (c & Hp & Hc & ->)
  | H : c_assert _ _ = Ret _ _ |- _ =>
      let Hb := fresh "Hassert" in
      apply c_assert_inv in H as (Hb & ->)
  | H : mret _ _ = Ret _ _ |- _ =>
      let Hv := fresh "Hv" in
      apply ret_inv in H as (Hv & ->)
  end.

Lemma set_offset_same c : set_offset c (ch_offset c) = c.
Proof. by destruct c. Qed.

(** ** The script of the OS *)

Lemma app_cons_neq_tail {A} (pre : list A) x l : pre ++ x :: l ≠ l.
Proof.
  intros H. apply (f_equal length) in H. rewrite length_app in H. simpl in H. lia.
Qed.


Lemma os_freshb_spec st : os_freshb st = true → os_fresh st.
Proof.
  unfold os_freshb, os_fresh. rewrite forallb_forall. intros H a Hin.
  apply list_elem_of_In in Hin. specialize (H _ Hin). simpl in H.
  by destruct (chunks st !! a).
Qed.

Lemma script_addresses_cons_mapped a l :
  script_addresses (Mapped a :: l) = a :: script_addresses l.
Proof. done. Qed.

Lemma script_addresses_cons_failure r l :
  (∀ a, r ≠ Mapped a) → script_addresses (r :: l) = script_addresses l.
Proof. intros H. destruct r; by try (by destruct (H a)). Qed.

Lemma script_addresses_elem a l : Mapped a ∈ l → a ∈ script_addresses l.
Proof.
  intros H. unfold script_addresses. apply list_elem_of_omap.
  by exists (Mapped a).
Qed.

(** What is left of a sound script is sound, as long as only the
    addresses that were handed out have become chunks. *)
Lemma os_sound_same st st' :
  os_sound st → os st' = os st →
  (∀ q, chunks st !! q = None → chunks st' !! q = None) → os_sound st'.
Proof.
  unfold os_sound. intros [Hnd Hfresh] -> Hsame. split; [done|].
  intros a Ha. destruct (Hfresh a Ha). auto.
Qed.

Lemma os_sound_failure st st' r :
  os_sound st → os st = r :: os st' → (∀ a, r ≠ Mapped a) →
  (∀ q, chunks st !! q = None → chunks st' !! q = None) → os_sound st'.
Proof.
  unfold os_sound. intros [Hnd Hfresh] Hos Hr Hsame.
  rewrite Hos, script_addresses_cons_failure in Hnd, Hfresh by done.
  split; [done|]. intros a Ha. destruct (Hfresh a Ha). auto.
Qed.

Lemma os_sound_mapped st st' b :
  os_sound st → os st = Mapped b :: os st' →
  (∀ q, q ≠ b → chunks st !! q = None → chunks st' !! q = None) → os_sound st'.
Proof.
  unfold os_sound. intros [Hnd Hfresh] Hos Hsame.
  rewrite Hos, script_addresses_cons_mapped in Hnd, Hfresh.
  apply NoDup_cons in Hnd as [Hb Hnd]. split; [done|]. intros a Ha.
  destruct (Hfresh a ltac:(by right)) as [? ?]. split; [done|].
  apply Hsame; [|done]. by intros ->.
Qed.

Lemma os_sound_next st b rest :
  os_sound st → os st = Mapped b :: rest → b ≠ 0 ∧ chunks st !! b = None.
Proof.
  unfold os_sound. intros [_ Hfresh] Hos. apply Hfresh.
  rewrite Hos. by left.
Qed.

Lemma os_sound_nonzero st a : os_sound st → Mapped a ∈ os st → a ≠ 0.
Proof. intros [_ Hfresh] Ha. by apply Hfresh, script_addresses_elem. Qed.

Lemma distinct_spec l : distinct l = true → NoDup l.
Proof.
  induction l as [|a l IH]; simpl; [constructor|].
  intros H. apply andb_prop in H as [Ha Hl]. constructor; [|by apply IH].
  intros Hin. apply negb_true_iff in Ha.
  assert (existsb (Z.eqb a) l = true); [|congruence].
  apply existsb_exists. exists a. split; [by apply list_elem_of_In|apply Z.eqb_refl].
Qed.

Lemma os_soundb_spec st : os_soundb st = true → os_sound st.
Proof.
  unfold os_soundb, os_sound. intros H. apply andb_prop in H as [Hd Hf].
  split; [by apply distinct_spec|]. intros a Ha.
  rewrite forallb_forall in Hf. apply list_elem_of_In, Hf in Ha.
  apply andb_prop in Ha as [Hnz Hnone]. apply negb_true_iff, Z.eqb_neq in Hnz.
  by destruct (chunks st !! a).
Qed.

(** ** Chains of chunks *)

Lemma chain_functional h p l1 l2 : chain h p l1 → chain h p l2 → l1 = l2.
Proof.
  revert p l2. induction l1 as [|a l1 IH]; intros p [|b l2]; simpl.
  - done.
  - intros -> (<- & Hb & _). done.
  - intros (<- & Ha & _) ->. done.
  - intros (<- & Ha & c & Hc & H1) (<- & _ & c' & Hc' & H2).
    rewrite Hc in Hc'. injection Hc' as <-. f_equal. eauto.
Qed.

Lemma chain_suffix h p l a l1 l2 :
  chain h p l → l = l1 ++ a :: l2 → chain h a (a :: l2).
Proof.
  revert p l. induction l1 as [|b l1 IH]; intros p l Hc ->; simpl in *.
  - destruct Hc as (-> & ? & ?). eauto.
  - destruct Hc as (-> & ? & c & ? & Hc). eapply IH; eauto.
Qed.

(** A chain that reaches null never visits a chunk twice. *)
Lemma chain_NoDup h p l : chain h p l → NoDup l.
Proof.
  revert p. induction l as [|a l IH]; intros p Hc; [constructor|].
  pose proof Hc as (-> & Ha & c & Hh & Hl).
  constructor; [|eauto].
  intros Hin. apply list_elem_of_split in Hin as (l1 & l2 & ->).
  pose proof (chain_suffix _ _ _ _ _ _ Hl eq_refl) as Hs.
  pose proof (chain_functional _ _ _ _ Hc Hs) as Heq.
  apply (f_equal length) in Heq. simpl in Heq. rewrite length_app in Heq.
  simpl in Heq. lia.
Qed.

Lemma chain_frame h h' : ∀ l p,
  (∀ q, q ∈ l → h' !! q = h !! q) → chain h p l → chain h' p l.
Proof.
  induction l as [|a l IH]; intros p Hsame; simpl; [done|].
  intros (-> & Ha & c & Hc & Hl). repeat split; try done. exists c. split.
  - rewrite Hsame; [done|left].
  - apply IH; [|done]. intros q Hq. apply Hsame. by right.
Qed.

Lemma chain_preserved h h' : ∀ l p,
  (∀ q c, h !! q = Some c → h' !! q = Some c) → chain h p l → chain h' p l.
Proof.
  induction l as [|a l IH]; intros p Hsub; simpl; [done|].
  intros (-> & Ha & c & Hc & Hl). repeat split; try done. exists c. eauto.
Qed.

Lemma live_bytes_frame h h' l :
  (∀ q, q ∈ l → h' !! q = h !! q) → live_bytes h' l = live_bytes h l.
Proof.
  induction l as [|a l IH]; intros Hsame; simpl; [done|].
  rewrite Hsame by left. rewrite IH; [done|]. intros q Hq. apply Hsame. by right.
Qed.

Lemma total_offsets_frame h h' l :
  (∀ q, q ∈ l → h' !! q = h !! q) → total_offsets h' l = total_offsets h l.
Proof.
  induction l as [|a l IH]; intros Hsame; simpl; [done|].
  rewrite Hsame by left. rewrite IH; [done|]. intros q Hq. apply Hsame. by right.
Qed.

Lemma total_offsets_nonneg h l : offsets_in_bounds h l → 0 <= total_offsets h l.
Proof.
  induction l as [|a l IH]; intros Hb; simpl; [done|].
  assert (0 <= total_offsets h l).
  { apply IH. intros q c Hq. apply Hb. by right. }
  destruct (h !! a) as [c|] eqn:E; [|done].
  pose proof (Hb a c ltac:(left) E). lia.
Qed.

Lemma live_bytes_length h l :
  offsets_in_bounds h l → Z.of_nat (length (live_bytes h l)) = total_offsets h l.
Proof.
  induction l as [|a l IH]; intros Hb; simpl; [done|].
  destruct (h !! a) as [c|] eqn:E; [|done].
  rewrite length_app, Nat2Z.inj_add, IH.
  2:{ intros q c' Hq. apply Hb. by right. }
  pose proof (Hb a c ltac:(left) E).
  rewrite length_take_le by lia. lia.
Qed.

(** Without overflow the sum that [arena_get_size] computes is exact. *)
Lemma sum_offsets_exact h : ∀ l size,
  offsets_in_bounds h l → 0 <= size → size + total_offsets h l < half →
  sum_offsets h l size = size + total_offsets h l.
Proof.
  induction l as [|a l IH]; intros size Hb Hs Hlt; simpl in *; [lia|].
  assert (offsets_in_bounds h l) as Hb' by (intros q c Hq; apply Hb; by right).
  pose proof (total_offsets_nonneg _ _ Hb').
  destruct (h !! a) as [c|] eqn:E; [|lia].
  pose proof (Hb a c ltac:(left) E).
  rewrite sint_small by (unfold is_ptrdiff; rewrite half_eq in *; lia).
  rewrite IH; [lia|done|lia|lia].
Qed.

Lemma sum_offsets_reset h l :
  (∀ a c, a ∈ l → h !! a = Some c → ch_offset c = 0) → sum_offsets h l 0 = 0.
Proof.
  induction l as [|a l IH]; intros Hz; simpl; [done|].
  destruct (h !! a) as [c|] eqn:E; [|done].
  rewrite (Hz a c); [|left|done]. simpl.
  change (sint (0 + 0)) with 0. apply IH. intros. eapply Hz; [by right|done].
Qed.

Lemma chain_mapped h : ∀ l p a, chain h p l → a ∈ l → a ≠ 0 ∧ is_Some (h !! a).
Proof.
  induction l as [|b l IH]; intros p a Hch Ha; [by apply not_elem_of_nil in Ha|].
  simpl in Hch. destruct Hch as (-> & Hnz & c & Hc & Hch).
  apply elem_of_cons in Ha as [->|Ha]; [by eauto|]. by eapply IH.
Qed.

Lemma chain_last_cons a l : l ≠ [] → chain_last (a :: l) = chain_last l.
Proof. unfold chain_last. by destruct l. Qed.

Lemma chain_last_elem l : l ≠ [] → chain_last l ∈ l.
Proof.
  induction l as [|a l IH]; [done|]. intros _.
  destruct l as [|b l]; [left|]. rewrite chain_last_cons by done.
  right. by apply IH.
Qed.

Lemma chain_last_snoc l a : chain_last (l ++ [a]) = a.
Proof. unfold chain_last. by rewrite last_snoc. Qed.

(** An arena whose tail is null has no chunk; otherwise its tail is a
    mapped chunk. *)
Lemma arena_wf_tail st arena l ar :
  arena_wf st arena l → arenas st !! arena = Some ar →
  (ar_tail ar = 0 → l = [] ∧ ar_head ar = 0) ∧
  (ar_tail ar ≠ 0 → l ≠ [] ∧ is_Some (chunks st !! ar_tail ar)).
Proof.
  intros (ar' & Har & Hch & Ht) Har'. assert (ar' = ar) as -> by congruence.
  destruct l as [|a l].
  - simpl in Hch. split; [done|]. by rewrite Ht.
  - pose proof (chain_last_elem (a :: l) ltac:(done)) as Hin.
    rewrite <- Ht in Hin. destruct (chain_mapped _ _ _ _ Hch Hin) as [Hnz Hsome].
    split; [done|]. done.
Qed.

(** Linking a new last chunk behind the tail of a chain. *)
Lemma chain_snoc h new cn : ∀ l p t,
  chain h p l → l ≠ [] → new ∉ l → new ≠ 0 → ch_next cn = 0 →
  h !! chain_last l = Some t →
  chain (<[chain_last l := set_next t new]> (<[new := cn]> h)) p (l ++ [new]).
Proof.
  induction l as [|a l IH]; intros p t Hch Hne Hnin Hnz Hcn Ht; [done|].
  pose proof (chain_NoDup _ _ _ Hch) as Hnd. apply NoDup_cons in Hnd as [Hal Hnd].
  apply not_elem_of_cons in Hnin as [Hna Hnin].
  simpl in Hch. destruct Hch as (-> & Ha & c & Hc & Hch).
  destruct l as [|b l].
  - simpl in Hch. unfold chain_last in *. simpl in *.
    assert (t = c) as -> by congruence.
    repeat split; [done|]. exists (set_next c new). split; [apply lookup_insert_eq|].
    simpl. repeat split; [done|]. exists cn.
    rewrite lookup_insert_ne, lookup_insert_eq by done. by rewrite Hcn.
  - rewrite chain_last_cons in * by done.
    pose proof (chain_last_elem (b :: l) ltac:(done)) as Hin.
    simpl. repeat split; [done|]. exists c. split.
    + rewrite !lookup_insert_ne; [done|done|]. intros E. apply Hal. by rewrite <- E.
    + by apply IH.
Qed.

Lemma chainb_spec h : ∀ l p, chainb h p l = true → chain h p l.
Proof.
  induction l as [|a l IH]; intros p H; simpl in *.
  - by apply Z.eqb_eq.
  - apply andb_prop in H as [H Hc]. apply andb_prop in H as [Hp Ha].
    apply Z.eqb_eq in Hp. apply negb_true_iff, Z.eqb_neq in Ha.
    destruct (h !! a) as [c|]; [|done]. split; [done|]. split; [done|]. eauto.
Qed.

Lemma arena_wfb_spec st arena l : arena_wfb st arena l = true → arena_wf st arena l.
Proof.
  unfold arena_wfb, arena_wf. destruct (arenas st !! arena) as [ar|]; [|done].
  intros H. apply andb_prop in H as [Hc Ht]. apply Z.eqb_eq in Ht.
  exists ar. eauto using chainb_spec.
Qed.

Lemma chunks_allb_spec P h l :
  chunks_allb P h l = true → ∀ a c, a ∈ l → h !! a = Some c → P a c = true.
Proof.
  unfold chunks_allb. rewrite forallb_forall. intros H a c Ha Hc.
  apply list_elem_of_In, H in Ha. by rewrite Hc in Ha.
Qed.

(** ** Frames *)

Lemma frame_rel_refl R st : (∀ p c, R p c c) → frame_rel R st st.
Proof.
  intros HR. repeat split. intros p. destruct (chunks st !! p); auto.
Qed.

Lemma frame_rel_trans R st1 st2 st3 :
  (∀ p a b c, R p a b → R p b c → R p a c) →
  frame_rel R st1 st2 → frame_rel R st2 st3 → frame_rel R st1 st3.
Proof.
  intros HR (Ha & H12) (Ha' & H23).
  split; [congruence|]. intros p.
  specialize (H12 p). specialize (H23 p).
  destruct (chunks st1 !! p), (chunks st2 !! p), (chunks st3 !! p); naive_solver.
Qed.

Lemma frame_rel_put R st q c c2 :
  (∀ p c, R p c c) → chunks st !! q = Some c → R q c c2 →
  frame_rel R st (put_chunk st q c2).
Proof.
  intros HR Hq Hc. repeat split. intros p. simpl.
  destruct (decide (q = p)) as [->|Hne].
  - by rewrite lookup_insert_eq, Hq.
  - rewrite lookup_insert_ne by done. destruct (chunks st !! p); auto.
Qed.

Lemma frame_rel_lookup R st st' p c :
  frame_rel R st st' → chunks st !! p = Some c →
  ∃ c', chunks st' !! p = Some c' ∧ R p c c'.
Proof.
  intros (_ & H) Hc. specialize (H p). rewrite Hc in H.
  destruct (chunks st' !! p); [eauto|done].
Qed.

Lemma same_layout_refl c : same_layout c c.
Proof. by repeat split. Qed.

Lemma same_layout_trans a b c : same_layout a b → same_layout b c → same_layout a c.
Proof. unfold same_layout. intuition congruence. Qed.

Lemma same_layout_set_offset c v : same_layout c (set_offset c v).
Proof. by repeat split. Qed.

Lemma padded_refl al r p c : padded al r p c c.
Proof. split; [apply same_layout_refl | done]. Qed.

Lemma padded_trans al r p a b c :
  padded al r p a b → padded al r p b c → padded al r p a c.
Proof.
  intros (L1 & O1) (L2 & O2). split; [by eapply same_layout_trans|].
  intros Hr Hal. rewrite <- (O1 Hr Hal). apply O2; [done|].
  by rewrite (O1 Hr Hal).
Qed.

(** A change that keeps every mapped chunk mapped with the same link
    keeps every chain. *)
Lemma chain_frame_rel R st st' l p :
  (∀ q c c', R q c c' → ch_next c' = ch_next c) →
  frame_rel R st st' → chain (chunks st) p l → chain (chunks st') p l.
Proof.
  intros HR Hfr. revert p. induction l as [|a l IH]; intros p Hch; [done|].
  simpl in *. destruct Hch as (-> & Ha & c & Hc & Hch).
  destruct (frame_rel_lookup _ _ _ _ _ Hfr Hc) as (c' & Hc' & Hrel).
  repeat split; [done|]. exists c'. split; [done|].
  rewrite (HR _ _ _ Hrel). by apply IH.
Qed.

Lemma frame_rel_None R st st' p :
  frame_rel R st st' → chunks st !! p = None → chunks st' !! p = None.
Proof.
  intros [_ H] Hp. specialize (H p). rewrite Hp in H.
  by destruct (chunks st' !! p).
Qed.

Lemma arena_wf_frame_rel R st st' arena l :
  (∀ q c c', R q c c' → ch_next c' = ch_next c) →
  frame_rel R st st' → arena_wf st arena l → arena_wf st' arena l.
Proof.
  intros HR Hfr (ar & Har & Hch & Ht). exists ar.
  destruct Hfr as [Ha Hc]. rewrite Ha. split; [done|]. split; [|done].
  by apply (chain_frame_rel R st st').
Qed.

Lemma os_sound_frame_rel R st st' :
  frame_rel R st st' → os st' = os st → os_sound st → os_sound st'.
Proof.
  intros Hfr Hos Hs. apply (os_sound_same st); [done..|].
  intros q. by apply (frame_rel_None R).
Qed.

(** ** The small heap of the examples *)

Lemma small_state_wf : arena_wf small_state 100 [4096; 8192].
Proof. apply arena_wfb_spec. vm_compute. reflexivity. Qed.

Lemma small_state_sound : os_sound small_state.
Proof. apply os_soundb_spec. vm_compute. reflexivity. Qed.

(** Case analysis on the chunks of an explicit chain. *)
Ltac each_chunk :=
  let a := fresh "a" in
  let c := fresh "c" in
  let Ha := fresh "Ha" in
  let Hc := fresh "Hc" in
  intros a c Ha Hc;
  repeat (apply elem_of_cons in Ha as [->|Ha];
          [vm_compute in Hc; injection Hc as <-|]);
  [..|by apply not_elem_of_nil in Ha].

(** * The chunk manager *)

Lemma alloc_chunk_inv size flags st a st' :
  alloc_chunk size flags st = Ret a st' →
  (a = 0 ∧ arenas st' = arenas st ∧ chunks st' = chunks st ∧
   (os st' = os st ∨ ∃ r, os st = r :: os st' ∧ ∀ x, r ≠ Mapped x))
  ∨ (a ≠ 0 ∧ os st = Mapped a :: os st' ∧ arenas st' = arenas st ∧
     chunks st' = <[a := mkChunk 0 size 0 (zeros size)]> (chunks st)).
Proof.
  unfold alloc_chunk. intros H.
  destruct (size =? 0); [inv_prim; left; eauto|].
  destruct (_ <? size); [inv_prim; left; eauto|].
  step_in H. unfold next_reply in Hrun.
  destruct (os st) as [|r rest] eqn:Eos.
  { simplify_eq. inv_prim. left. eauto. }
  simplify_eq. destruct x as [| |p].
  - inv_prim. left. simpl. repeat split; try done. right. exists OpenFails. done.
  - destruct (flag_set flags SOFTFAIL); [|done]. inv_prim. left. simpl.
    repeat split; try done. right. exists MapFails. done.
  - right. step H as u1 s1 H1. unfold map_block in H1. simplify_eq.
    step H as u2 s2 H2.
    assert (s2 = set_chunks (set_os st rest) (<[p:=mkChunk 0 0 0 (zeros size)]> (chunks st))) as ->.
    { destruct (flag_set flags ZEROMEM).
      - step_in H2. inv_prim. simpl in *. simplify_map_eq. simpl.
        rewrite zeros_zeroed. unfold set_chunks. simpl. by rewrite insert_insert_eq.
      - by inv_prim. }
    do 3 (step_in H; inv_prim; simpl in *; simplify_map_eq).
    inv_prim. simpl. repeat split; try done.
    unfold set_next, set_size, set_offset; simpl.
    by rewrite !insert_insert_eq.
Qed.

(** A successful acquisition, run forward. *)
Lemma alloc_chunk_run size flags st a rest :
  0 < size < half - sizeof_chunk → os st = Mapped a :: rest → a ≠ 0 →
  alloc_chunk size flags st =
    Ret a (mkState (arenas st) (<[a := mkChunk 0 size 0 (zeros size)]> (chunks st)) rest
                   (leaked st)).
Proof.
  intros Hsz Hos Ha. unfold alloc_chunk.
  destruct (Z.eqb_spec size 0); [lia|].
  rewrite CHUNK_ALLOC_SIZE_exact by lia.
  destruct (Z.ltb_spec (sizeof_chunk + size) size); [unfold sizeof_chunk in *; lia|].
  unfold next_reply at 1. unfold mbind at 1, M_bind at 1. rewrite Hos.
  unfold map_block. unfold mbind at 1, M_bind at 1.
  set (s1 := set_chunks (set_os st rest) _).
  assert (chunks s1 !! a = Some (mkChunk 0 0 0 (zeros size))) as H1
    by apply lookup_insert_eq.
  assert ((if flag_set flags ZEROMEM
           then c ← load_chunk a;
                store_chunk a (mkChunk 0 0 0 (map (λ _, Byte.x00) (ch_data c)))
           else mret tt) s1 = Ret tt s1) as Hz.
  { destruct (flag_set flags ZEROMEM); [|done].
    rewrite (bind_run _ _ _ _ _ (load_chunk_run _ _ _ Ha H1)). simpl.
    rewrite zeros_zeroed. erewrite store_chunk_run by done.
    f_equal. unfold s1, set_chunks. simpl. by rewrite insert_insert_eq. }
  rewrite (bind_run _ _ _ _ _ Hz).
  erewrite bind_run; [|by apply store_field_run].
  erewrite bind_run; [|apply store_field_run; [done|apply lookup_insert_eq]].
  erewrite bind_run; [|apply store_field_run; [done|apply lookup_insert_eq]].
  unfold mret, M_ret. f_equal. unfold set_chunks, s1; simpl.
  unfold set_next, set_size, set_offset; simpl.
  by rewrite !insert_insert_eq.
Qed.

(** ** The size check *)

(** The size check of [alloc_chunk] lets every size through that is not
    zero and stays [sizeof(chunk)] below [PTRDIFF_MAX], negative ones
    included. *)
Lemma alloc_chunk_size_check size :
  - half <= size < half - sizeof_chunk → size ≠ 0 →
  (size =? 0) = false ∧ (CHUNK_ALLOC_SIZE size <? size) = false.
Proof.
  intros H Hnz. rewrite CHUNK_ALLOC_SIZE_signed by done. split.
  - by apply Z.eqb_neq.
  - apply Z.ltb_ge. unfold sizeof_chunk. lia.
Qed.

(** X2. [alloc_chunk] refuses a size of zero, and a size so close to
    [PTRDIFF_MAX] that adding the header wraps around
    ([allocation_size < size]): it returns null, the OS is not asked for
    anything and the state is untouched. *)
Theorem alloc_chunk_rejects size flags st :
  size = 0 ∨ half - sizeof_chunk <= size < half →
  alloc_chunk size flags st = Ret 0 st.
Proof.
  intros [->|H]; [done|]. unfold alloc_chunk.
  destruct (Z.eqb_spec size 0); [done|].
  assert (CHUNK_ALLOC_SIZE size = sizeof_chunk + size - modulus) as ->.
  { unfold CHUNK_ALLOC_SIZE. apply sint_unique.
    { unfold is_ptrdiff, sizeof_chunk in *. rewrite modulus_eq, half_eq in *. lia. }
    destruct (uint_spec size) as [q1 H1].
    destruct (uint_spec (sizeof_char * uint size)) as [q2 H2].
    destruct (uint_spec (sizeof_chunk + uint (sizeof_char * uint size))) as [q3 H3].
    exists (- (q1 + q2 + q3) - 1). rewrite H3, H2, H1. unfold sizeof_char. lia. }
  destruct (Z.ltb_spec (sizeof_chunk + size - modulus) size); [done|].
  unfold sizeof_chunk in *. rewrite modulus_eq, half_eq in *. lia.
Qed.

Lemma alloc_chunk_rejects_witness :
  alloc_chunk (half - 1) 0 small_state = Ret 0 small_state.
Proof.
  apply (alloc_chunk_rejects (half - 1) 0). right. vm_compute.
  split; [discriminate|reflexivity].
Defined.

(** ** A successful acquisition *)

(** What [alloc_chunk] does once the size has passed the check and the
    OS has mapped a block. *)
Lemma alloc_chunk_mapped_run size flags st a rest :
  (size =? 0) = false → (CHUNK_ALLOC_SIZE size <? size) = false →
  os st = Mapped a :: rest → a ≠ 0 →
  alloc_chunk size flags st =
    Ret a (mkState (arenas st) (<[a := mkChunk 0 size 0 (zeros size)]> (chunks st)) rest
                   (leaked st)).
Proof.
  intros E1 E2 Hos Ha. unfold alloc_chunk. rewrite E1, E2.
  unfold next_reply at 1. unfold mbind at 1, M_bind at 1. rewrite Hos.
  unfold map_block. unfold mbind at 1, M_bind at 1.
  set (s1 := set_chunks (set_os st rest) _).
  assert (chunks s1 !! a = Some (mkChunk 0 0 0 (zeros size))) as H1
    by apply lookup_insert_eq.
  assert ((if flag_set flags ZEROMEM
           then c ← load_chunk a;
                store_chunk a (mkChunk 0 0 0 (map (λ _, Byte.x00) (ch_data c)))
           else mret tt) s1 = Ret tt s1) as Hz.
  { destruct (flag_set flags ZEROMEM); [|done].
    rewrite (bind_run _ _ _ _ _ (load_chunk_run _ _ _ Ha H1)). simpl.
    rewrite zeros_zeroed. erewrite store_chunk_run by done.
    f_equal. unfold s1, set_chunks. simpl. by rewrite insert_insert_eq. }
  rewrite (bind_run _ _ _ _ _ Hz).
  erewrite bind_run; [|by apply store_field_run].
  erewrite bind_run; [|apply store_field_run; [done|apply lookup_insert_eq]].
  erewrite bind_run; [|apply store_field_run; [done|apply lookup_insert_eq]].
  unfold mret, M_ret. f_equal. unfold set_chunks, s1; simpl.
  unfold set_next, set_size, set_offset; simpl.
  by rewrite !insert_insert_eq.
Qed.

(** X3. When the OS maps a block at [a], [alloc_chunk] returns [a], and
    the chunk at [a] has no successor, the requested size, offset 0 and
    [size] zero bytes of data; the arenas and all other chunks are as
    before, and one answer of the OS has been consumed.  This holds for
    every size that passes the check, the negative ones included, and
    [ZEROMEM] makes no difference: the block comes zeroed from
    /dev/zero. *)
Theorem alloc_chunk_maps size flags st a rest :
  - half <= size < half - sizeof_chunk → size ≠ 0 →
  os st = Mapped a :: rest → a ≠ 0 →
  alloc_chunk size flags st =
    Ret a (mkState (arenas st) (<[a := mkChunk 0 size 0 (zeros size)]> (chunks st)) rest
                   (leaked st)) ∧
  alloc_chunk size (Z.lor flags ZEROMEM) st = alloc_chunk size flags st.
Proof.
  intros Hsz Hnz Hos Ha.
  destruct (alloc_chunk_size_check size Hsz Hnz) as [E1 E2].
  by rewrite !(alloc_chunk_mapped_run size _ st a rest).
Qed.

Lemma alloc_chunk_maps_witness :
  alloc_chunk (-8) 0 small_state =
    Ret 12288 (mkState (arenas small_state)
                 (<[12288 := mkChunk 0 (-8) 0 (zeros (-8))]> (chunks small_state))
                 [Mapped 16384; MapFails] (leaked small_state)) ∧
  alloc_chunk (-8) (Z.lor 0 ZEROMEM) small_state = alloc_chunk (-8) 0 small_state.
Proof.
  apply (alloc_chunk_maps (-8) 0 small_state 12288 [Mapped 16384; MapFails]).
  - vm_compute. split; [discriminate|reflexivity].
  - lia.
  - reflexivity.
  - lia.
Defined.

(** ** Failures *)

(** With [SOFTFAIL], and an OS that maps no block at null, [alloc_chunk]
    returns. *)
Lemma alloc_chunk_total size flags st :
  flag_set flags SOFTFAIL = true → (∀ a, Mapped a ∈ os st → a ≠ 0) →
  ∃ a st', alloc_chunk size flags st = Ret a st'.
Proof.
  intros Hsoft Hos.
  destruct (size =? 0) eqn:E1; [unfold alloc_chunk; rewrite E1; eauto|].
  destruct (CHUNK_ALLOC_SIZE size <? size) eqn:E2;
    [unfold alloc_chunk; rewrite E1, E2; eauto|].
  destruct (os st) as [|[| |a] rest] eqn:Eos.
  - unfold alloc_chunk. rewrite E1, E2.
    unfold next_reply, mbind, M_bind. rewrite Eos. eauto.
  - unfold alloc_chunk. rewrite E1, E2.
    unfold next_reply, mbind, M_bind. rewrite Eos. eauto.
  - unfold alloc_chunk. rewrite E1, E2.
    unfold next_reply, mbind, M_bind. rewrite Eos, Hsoft. eauto.
  - erewrite alloc_chunk_mapped_run; [eauto|done..|]. apply Hos. left.
Qed.

(** X4. [alloc_chunk] runs into [assert(0)] in exactly one situation:
    the size has passed the check, [mmap] fails and [SOFTFAIL] is not
    set.  In particular a failing [open] never aborts, with or without
    [SOFTFAIL], and with [SOFTFAIL] nothing does. *)
Theorem alloc_chunk_abort_iff size flags st :
  alloc_chunk size flags st = Abort ↔
  size ≠ 0 ∧ ¬ CHUNK_ALLOC_SIZE size < size ∧
  flag_set flags SOFTFAIL = false ∧ ∃ rest, os st = MapFails :: rest.
Proof.
  unfold alloc_chunk.
  destruct (Z.eqb_spec size 0) as [->|Hnz]; [split; [done|by intros [? _]]|].
  destruct (Z.ltb_spec (CHUNK_ALLOC_SIZE size) size) as [Hlt|Hge];
    [split; [done|by intros (_ & ? & _)]|].
  unfold next_reply at 1. unfold mbind at 1, M_bind at 1.
  destruct (os st) as [|[| |a] rest] eqn:Eos.
  - split; [done|]. by intros (_ & _ & _ & ? & ?).
  - split; [done|]. by intros (_ & _ & _ & ? & ?).
  - destruct (flag_set flags SOFTFAIL).
    + split; [done|]. by intros (_ & _ & ? & _).
    + split; [|done]. intros _. repeat split; [done|lia|]. by exists rest.
  - split; [|by intros (_ & _ & _ & ? & ?)]. intros H. exfalso. revert H.
    unfold map_block. unfold mbind at 1, M_bind at 1.
    set (s1 := set_chunks (set_os st rest) _).
    destruct (Z.eqb_spec a 0) as [->|Ha].
    { destruct (flag_set flags ZEROMEM); done. }
    assert (chunks s1 !! a = Some (mkChunk 0 0 0 (zeros size))) as H1
      by apply lookup_insert_eq.
    assert (∃ s2, (if flag_set flags ZEROMEM
             then c ← load_chunk a;
                  store_chunk a (mkChunk 0 0 0 (map (λ _, Byte.x00) (ch_data c)))
             else mret tt) s1 = Ret tt s2 ∧ is_Some (chunks s2 !! a)) as (s2 & Hz & [c2 H2]).
    { destruct (flag_set flags ZEROMEM); [|by exists s1].
      rewrite (bind_run _ _ _ _ _ (load_chunk_run _ _ _ Ha H1)).
      erewrite store_chunk_run by done. eexists. split; [done|].
      simpl. rewrite lookup_insert_eq. done. }
    rewrite (bind_run _ _ _ _ _ Hz).
    erewrite bind_run; [|by apply store_field_run].
    erewrite bind_run; [|apply store_field_run; [done|apply lookup_insert_eq]].
    erewrite bind_run; [|apply store_field_run; [done|apply lookup_insert_eq]].
    done.
Qed.

(** ** Release *)

Lemma alloc_chunk_leaked size flags st a st' :
  alloc_chunk size flags st = Ret a st' → leaked st' = leaked st.
Proof.
  unfold alloc_chunk. intros H.
  destruct (size =? 0); [by inv_prim|].
  destruct (_ <? size); [by inv_prim|].
  step_in H. unfold next_reply in Hrun.
  destruct (os st) as [|r rest] eqn:Eos.
  { simplify_eq. by inv_prim. }
  simplify_eq. destruct x as [| |p].
  - by inv_prim.
  - destruct (flag_set flags SOFTFAIL); [|done]. by inv_prim.
  - step H as u1 s1 H1. unfold map_block in H1. simplify_eq.
    step H as u2 s2 H2.
    assert (leaked s2 = leaked st) as Hl.
    { destruct (flag_set flags ZEROMEM).
      - step_in H2. by inv_prim.
      - by inv_prim. }
    do 3 (step_in H; inv_prim; simpl in * ).
    by inv_prim.
Qed.

(** The length that [free_chunk] passes to [munmap] is [8 + ch_size],
    reduced to a [size_t]. *)
Lemma free_chunk_size_uint size :
  uint (free_chunk_size size) = (sizeof_pointer + size) `mod` modulus.
Proof.
  unfold free_chunk_size, uint, sint, sizeof_pointer, sizeof_char.
  rewrite modulus_eq, half_eq. Z.div_mod_to_equations. lia.
Qed.

Lemma free_chunk_size_exact size :
  - sizeof_pointer <= size < half →
  uint (free_chunk_size size) = sizeof_pointer + size.
Proof.
  intros H. rewrite free_chunk_size_uint. apply Z.mod_small.
  revert H. unfold sizeof_pointer. rewrite modulus_eq, half_eq. lia.
Qed.

Lemma TASK_SIZE_eq : TASK_SIZE = 140737488351232.
Proof. reflexivity. Qed.

(** [munmap] refuses the length when [ch_size] is -8 or less: the sum is
    zero, or wraps around to more than the address space holds. *)
Lemma free_chunk_size_refused size :
  - half <= size < half →
  size <= - sizeof_pointer ∨ TASK_SIZE - sizeof_pointer < size →
  let len := uint (free_chunk_size size) in
  (len =? 0) || (TASK_SIZE <? len) = true.
Proof.
  intros Hr H. simpl. rewrite free_chunk_size_uint. apply orb_true_iff.
  revert Hr H. unfold sizeof_pointer, TASK_SIZE, PAGE_SIZE.
  rewrite modulus_eq, half_eq. intros Hr H.
  change (2 ^ 47) with 140737488355328 in *.
  destruct (Z.eq_dec size (-8)) as [->|Hne]; [by left|]. right.
  apply Z.ltb_lt. Z.div_mod_to_equations. lia.
Qed.

(** Every mapping has at least the page of its header, and the pages
    that a range touches hold the range. *)
Lemma page_span_bounds len : len <= page_span len < len + PAGE_SIZE.
Proof. unfold page_span, PAGE_SIZE. Z.div_mod_to_equations. lia. Qed.

Lemma page_span_mono a b : a <= b → page_span a <= page_span b.
Proof. unfold page_span, PAGE_SIZE. intros. Z.div_mod_to_equations. lia. Qed.

Lemma page_span_one len : 0 < len <= PAGE_SIZE → page_span len = PAGE_SIZE.
Proof. unfold page_span, PAGE_SIZE. intros. Z.div_mod_to_equations. lia. Qed.

Lemma extent_header c : PAGE_SIZE <= extent c.
Proof.
  unfold extent. rewrite <- (page_span_one sizeof_chunk) by done.
  apply page_span_mono. lia.
Qed.

(** [free_chunk] is short of the mapping by one page exactly when the 16
    bytes that it leaves out of the length reach into a further page. *)
Lemma page_span_short size :
  - sizeof_pointer < size →
  page_span (sizeof_chunk + size) - page_span (sizeof_pointer + size) =
    if (4073 <=? size `mod` PAGE_SIZE) && (size `mod` PAGE_SIZE <=? 4088)
    then PAGE_SIZE else 0.
Proof.
  unfold page_span, sizeof_chunk, sizeof_pointer, PAGE_SIZE. intros H.
  destruct (Z.leb_spec 4073 (size `mod` 4096));
    destruct (Z.leb_spec (size `mod` 4096) 4088); simpl;
    Z.div_mod_to_equations; lia.
Qed.

(** What [free_chunk] leaves mapped of a chunk as [alloc_chunk] makes
    it. *)
Lemma kept_fresh_chunk p size next off :
  - sizeof_pointer < size →
  kept p (mkChunk next size off (zeros size)) (sizeof_pointer + size) =
    if (4073 <=? size `mod` PAGE_SIZE) && (size `mod` PAGE_SIZE <=? 4088)
    then [(p + page_span (sizeof_pointer + size), PAGE_SIZE)] else [].
Proof.
  intros H. unfold kept, extent. simpl. rewrite zeros_length.
  destruct (Z.le_gt_cases 0 size) as [Hs|Hs].
  - rewrite Z2Nat.id by done. pose proof (page_span_short size H) as Hd.
    destruct (_ && _);
      destruct (Z.ltb_spec (page_span (sizeof_pointer + size))
                           (page_span (sizeof_chunk + size)));
      try (unfold PAGE_SIZE in *; lia); [|done].
    do 2 f_equal. lia.
  - replace (Z.of_nat (Z.to_nat size)) with 0 by lia. rewrite Z.add_0_r.
    rewrite (page_span_one sizeof_chunk) by done.
    rewrite page_span_one by (unfold sizeof_pointer, PAGE_SIZE in *; lia).
    rewrite Z.ltb_irrefl.
    destruct (Z.leb_spec (size `mod` PAGE_SIZE) 4088); [|by rewrite andb_false_r].
    exfalso. revert H Hs H0. unfold sizeof_pointer, PAGE_SIZE. intros.
    Z.div_mod_to_equations. lia.
Qed.

Lemma free_chunk_run a st c :
  a ≠ 0 → chunks st !! a = Some c →
  - sizeof_pointer < ch_size c <= TASK_SIZE - sizeof_pointer →
  free_chunk a st = Ret tt (unmapped st a c (sizeof_pointer + ch_size c)).
Proof.
  intros Hnz Hc Hsz. unfold free_chunk. destruct (Z.eqb_spec a 0); [done|].
  rewrite (bind_run _ _ _ _ _ (load_chunk_run _ _ _ Hnz Hc)).
  rewrite free_chunk_size_exact.
  2:{ revert Hsz. unfold sizeof_pointer, TASK_SIZE, PAGE_SIZE. rewrite half_eq.
      change (2 ^ 47) with 140737488355328. lia. }
  unfold munmap, mbind, M_bind.
  destruct (Z.eqb_spec (sizeof_pointer + ch_size c) 0); [lia|].
  destruct (Z.ltb_spec TASK_SIZE (sizeof_pointer + ch_size c)); [lia|]. simpl.
  by rewrite Hc.
Qed.

Lemma free_chunk_refused a st c :
  a ≠ 0 → chunks st !! a = Some c → - half <= ch_size c < half →
  ch_size c <= - sizeof_pointer ∨ TASK_SIZE - sizeof_pointer < ch_size c →
  free_chunk a st = Abort.
Proof.
  intros Hnz Hc Hr Hsz. unfold free_chunk. destruct (Z.eqb_spec a 0); [done|].
  rewrite (bind_run _ _ _ _ _ (load_chunk_run _ _ _ Hnz Hc)).
  unfold munmap, mbind, M_bind.
  by rewrite (free_chunk_size_refused _ Hr Hsz).
Qed.

(** A call of [free_chunk] that returns has unmapped the header page of
    the chunk, and nothing of any other chunk. *)
Lemma free_chunk_inv a st u st' :
  free_chunk a st = Ret u st' →
  (a = 0 ∧ st' = st) ∨
  (a ≠ 0 ∧ ∃ c, chunks st !! a = Some c ∧
     st' = unmapped st a c (uint (free_chunk_size (ch_size c)))).
Proof.
  unfold free_chunk. intros H.
  destruct (Z.eqb_spec a 0) as [->|Hnz]; [inv_prim; by left|]. right.
  split; [done|]. step H as c s1 H1. inv_prim. exists c. split; [done|].
  step H as check s2 H2. unfold munmap in H2.
  destruct (_ || _); [simplify_eq; by inv_prim|].
  rewrite Hch in H2. simplify_eq. by inv_prim.
Qed.

Lemma left_mapped_frame h h' : ∀ l,
  (∀ q, q ∈ l → h' !! q = h !! q) → left_mapped h' l = left_mapped h l.
Proof.
  induction l as [|a l IH]; intros Hsame; [done|]. simpl.
  rewrite (Hsame a) by left. f_equal. apply IH. intros q Hq. apply Hsame. by right.
Qed.

(** Nothing stays mapped when the length of each release covers the
    mapping of its chunk. *)
Lemma left_mapped_covered h : ∀ l,
  (∀ a c, a ∈ l → h !! a = Some c → extent c <= page_span (sizeof_pointer + ch_size c)) →
  left_mapped h l = [].
Proof.
  induction l as [|a l IH]; intros Hcov; [done|]. simpl.
  rewrite IH by (intros q c Hq; apply Hcov; by right). simpl.
  destruct (h !! a) as [c|] eqn:Hc; [|done]. unfold kept.
  pose proof (Hcov a c ltac:(left) Hc).
  destruct (Z.ltb_spec (page_span (sizeof_pointer + ch_size c)) (extent c)); [lia|done].
Qed.

(** X5. [free_chunk] on what [alloc_chunk] returned.  For null, the
    result of a failed acquisition, it does nothing.  For a chunk it
    passes [8 + size] to [munmap], not the [24 + size] that were mapped,
    because its parameter hides the type [chunk].  For a size of -8 or
    less (which [alloc_chunk] accepts) or one beyond the address space
    the kernel refuses that length and the [assert] fails.  Otherwise the
    call returns with the arenas and chunks of before the acquisition
    (the address handed out by the OS was not in use); what remains is
    that the answers of the OS have been consumed, and that the last page
    of the chunk stays mapped when [size mod 4096] lies in 4073..4088. *)
Theorem free_chunk_after_alloc_chunk size flags st a st1 :
  - half <= size < half →
  alloc_chunk size flags st = Ret a st1 → chunks st !! a = None →
  (a = 0 → free_chunk a st1 = Ret tt (set_os st (os st1))) ∧
  (a ≠ 0 → size <= - sizeof_pointer ∨ TASK_SIZE - sizeof_pointer < size →
   free_chunk a st1 = Abort) ∧
  (a ≠ 0 → - sizeof_pointer < size <= TASK_SIZE - sizeof_pointer →
   free_chunk a st1 =
     Ret tt (mkState (arenas st) (chunks st) (os st1)
               ((if (4073 <=? size `mod` PAGE_SIZE) && (size `mod` PAGE_SIZE <=? 4088)
                 then [(a + page_span (sizeof_pointer + size), PAGE_SIZE)] else [])
                ++ leaked st))).
Proof.
  intros Hr H Hfresh. pose proof (alloc_chunk_leaked _ _ _ _ _ H) as Hl.
  apply alloc_chunk_inv in H as [(-> & Har & Hch & _)|(Ha & Hos & Har & Hch)].
  { split; [|done]. intros _. simpl. f_equal. destruct st1; simpl in *.
    unfold set_os. by rewrite Har, Hch, Hl. }
  assert (chunks st1 !! a = Some (mkChunk 0 size 0 (zeros size))) as Hc
    by (rewrite Hch; apply lookup_insert_eq).
  split; [done|]. split.
  - intros _ Hsz. by apply (free_chunk_refused a st1 _ Ha Hc).
  - intros _ Hsz. rewrite (free_chunk_run a st1 _ Ha Hc) by done.
    unfold unmapped. simpl. rewrite kept_fresh_chunk by lia.
    rewrite Har, Hch, Hl, delete_insert_eq. by rewrite delete_id.
Qed.

Lemma free_chunk_after_alloc_chunk_witness :
  let st := fresh_state [Mapped 65536; MapFails] in
  let st1 := final (alloc_chunk 4080 ZEROMEM) st in
  (65536 = 0 → free_chunk 65536 st1 = Ret tt (set_os st (os st1))) ∧
  (65536 ≠ 0 → 4080 <= - sizeof_pointer ∨ TASK_SIZE - sizeof_pointer < 4080 →
   free_chunk 65536 st1 = Abort) ∧
  (65536 ≠ 0 → - sizeof_pointer < 4080 <= TASK_SIZE - sizeof_pointer →
   free_chunk 65536 st1 =
     Ret tt (mkState (arenas st) (chunks st) (os st1)
               ((if (4073 <=? 4080 `mod` PAGE_SIZE) && (4080 `mod` PAGE_SIZE <=? 4088)
                 then [(65536 + page_span (sizeof_pointer + 4080), PAGE_SIZE)] else [])
                ++ leaked st))).
Proof.
  apply (free_chunk_after_alloc_chunk 4080 ZEROMEM (fresh_state [Mapped 65536; MapFails])).
  - vm_compute. split; [discriminate|reflexivity].
  - apply ret_value_final. vm_compute. reflexivity.
  - reflexivity.
Defined.

(** * GetUsedSize *)

Lemma get_size_loop_state fuel cursor size st v st' :
  get_size_loop fuel cursor size st = Ret v st' → st' = st.
Proof.
  revert cursor size. induction fuel as [|fuel IH]; intros cursor size; simpl;
    destruct (cursor =? 0); intros H; inv_prim; try done.
  step_in H. inv_prim. eauto.
Qed.

Lemma arena_get_size_state fuel arena st v st' :
  arena_get_size fuel arena st = Ret v st' → st' = st.
Proof.
  unfold arena_get_size. destruct (arena =? 0); intros H; inv_prim; [done|].
  step_in H. inv_prim. eauto using get_size_loop_state.
Qed.

(** On a chain, enough fuel makes the loop return the accumulated sum. *)
Lemma get_size_loop_chain st l : ∀ fuel p size,
  chain (chunks st) p l → (length l ≤ fuel)%nat →
  get_size_loop fuel p size st = Ret (sum_offsets (chunks st) l size) st.
Proof.
  induction l as [|a l IH]; intros fuel p size Hc Hf; simpl in *.
  - subst p. by destruct fuel.
  - destruct Hc as (-> & Ha & c & Hh & Hl).
    destruct fuel as [|fuel]; [lia|]. simpl.
    destruct (Z.eqb_spec a 0); [done|].
    rewrite (bind_run _ _ _ _ _ (load_chunk_run _ _ _ Ha Hh)).
    rewrite Hh. apply IH; [done|lia].
Qed.

Lemma arena_get_size_chain st arena ar l fuel :
  arena ≠ 0 → arenas st !! arena = Some ar →
  chain (chunks st) (ar_head ar) l → (length l ≤ fuel)%nat →
  arena_get_size fuel arena st = Ret (sum_offsets (chunks st) l 0) st.
Proof.
  intros Hnz Har Hc Hf. unfold arena_get_size.
  destruct (Z.eqb_spec arena 0); [done|].
  rewrite (bind_run _ _ _ _ _ (load_arena_run _ _ _ Hnz Har)).
  by apply get_size_loop_chain.
Qed.


(** X6. On a well-formed arena whose chunks have their used part inside
    their data region, [arena_get_size] returns, with one unit of fuel
    per chunk, the exact sum of the offsets (no wrap-around as long as
    the sum fits a [ptrdiff_t]), which is the number of live bytes of the
    arena; it changes nothing. *)
Theorem arena_get_size_counts_live_bytes fuel arena st l :
  arena ≠ 0 → arena_wf st arena l → (length l ≤ fuel)%nat →
  offsets_in_bounds (chunks st) l → total_offsets (chunks st) l < half →
  arena_get_size fuel arena st = Ret (total_offsets (chunks st) l) st ∧
  total_offsets (chunks st) l = Z.of_nat (length (live_bytes (chunks st) l)).
Proof.
  intros Hnz (ar & Har & Hch & _) Hf Hb Hlt. split.
  - rewrite (arena_get_size_chain _ _ _ _ _ Hnz Har Hch Hf).
    rewrite sum_offsets_exact; [done..|lia|lia].
  - by rewrite live_bytes_length.
Qed.

Lemma arena_get_size_counts_live_bytes_witness :
  arena_get_size 2 100 small_state
    = Ret (total_offsets (chunks small_state) [4096; 8192]) small_state ∧
  total_offsets (chunks small_state) [4096; 8192]
    = Z.of_nat (length (live_bytes (chunks small_state) [4096; 8192])).
Proof.
  apply (arena_get_size_counts_live_bytes 2 100 small_state [4096; 8192]).
  - lia.
  - apply small_state_wf.
  - simpl. lia.
  - each_chunk; vm_compute; done.
  - vm_compute. reflexivity.
Defined.

(** * Allocate *)

(** ** The argument check *)

(** X7. What the argument check of [arena_alloc] does implement: an
    absent arena, a size of
    zero, an alignment of zero and a positive alignment that is not a
    power of two are rejected, and the state is untouched. *)
Lemma arena_alloc_rejects fuel arena num_bytes alignment flags st :
  arena = 0 ∨ num_bytes = 0 ∨ alignment = 0 ∨
  (0 < alignment < half ∧ ∀ k, 0 <= k → alignment ≠ 2 ^ k) →
  arena_alloc fuel arena num_bytes alignment flags st = Ret 0 st.
Proof.
  intros Hcase. unfold arena_alloc.
  destruct (Z.eqb_spec arena 0); [done|].
  destruct (Z.eqb_spec num_bytes 0); [done|].
  destruct (Z.eqb_spec alignment 0); [done|].
  destruct Hcase as [?|[?|[?|[Hal Hnp]]]]; [done..|].
  rewrite sint_small by (unfold is_ptrdiff; rewrite half_eq in *; lia).
  destruct (Z.eqb_spec (Z.land alignment (alignment - 1)) 0) as [E|E]; [|done].
  by apply not_pow2_land_pred in E; [|lia|].
Qed.

Lemma arena_alloc_rejects_witness :
  arena_alloc 2 100 0 8 0 small_state = Ret 0 small_state.
Proof.
  apply (arena_alloc_rejects 2 100 0 8 0 small_state). right. left. reflexivity.
Defined.

(** A power of two and a non-zero size pass the check, whatever the sign
    of the size. *)
Lemma arena_alloc_accepts arena num_bytes k :
  arena ≠ 0 → num_bytes ≠ 0 → 0 <= k < 63 →
  (arena =? 0) || (num_bytes =? 0) || (2 ^ k =? 0)
    || negb (Z.land (2 ^ k) (sint (2 ^ k - 1)) =? 0) = false.
Proof.
  intros Ha Hn Hk. pose proof (pow2_ptrdiff k Hk) as Hp.
  destruct (Z.eqb_spec arena 0); [done|].
  destruct (Z.eqb_spec num_bytes 0); [done|].
  destruct (Z.eqb_spec (2 ^ k) 0); [lia|]. simpl.
  rewrite sint_small by (unfold is_ptrdiff; rewrite half_eq in *; lia).
  rewrite pow2_land_pred by lia. done.
Qed.

(** C4 on a concrete call: [num_bytes = -1] is not [> 0], but only
    [num_bytes = 0] is rejected.  On an arena with 8 bytes in use the
    call returns a non-null address and moves the offset back to 7. *)
Theorem arena_alloc_negative_size_accepted :
  let st' := final (arena_alloc 1 100 (-1) 1 0) one_chunk_state in
  value (arena_alloc 1 100 (-1) 1 0) one_chunk_state = Some (65536 + 24 + 8) ∧
  header one_chunk_state 65536 = Some (0, 4194304, 8) ∧
  header st' 65536 = Some (0, 4194304, 7).
Proof. repeat apply conj; vm_compute; reflexivity. Qed.

(** ** The scan and the growth step *)

Lemma fixup_aligned k p c :
  0 <= k < 63 → data_addr p (fixup p c (2 ^ k)) `mod` 2 ^ k = 0.
Proof.
  intros Hk. unfold fixup. set (off := ch_offset c). set (base := p).
  set (m := 2 ^ k).
  pose proof (pow2_ptrdiff k Hk) as Hm. fold m in Hm.
  assert (Hum : uint m = m) by (apply uint_small; rewrite modulus_eq, half_eq in *; lia).
  rewrite Hum.
  destruct (Z.eqb_spec (data_addr base off `mod` m) 0) as [E|E]; [done|].
  destruct (pow2_divides_modulus k Hk) as [t Ht]. fold m in Ht.
  unfold data_addr.
  set (cur := uint (base + sizeof_chunk + off)).
  destruct (uint_spec (base + sizeof_chunk + off)) as [q1 H1]. fold cur in H1.
  destruct (uint_spec (m - cur `mod` m)) as [q2 H2].
  destruct (uint_spec (off + uint (m - cur `mod` m))) as [q3 H3].
  destruct (sint_spec (uint (off + uint (m - cur `mod` m)))) as [q4 H4].
  destruct (uint_spec (base + sizeof_chunk + sint (uint (off + uint (m - cur `mod` m))))) as [q5 H5].
  rewrite H5, H4, H3, H2.
  pose proof (Z.mod_eq cur m ltac:(lia)) as Hmod.
  apply Z.mod_divide; [lia|].
  exists (cur / m + 1 + (q2 + q3 + q4 + q5 - q1) * t).
  rewrite Hmod, Ht. lia.
Qed.

Lemma fixup_aligned_id al p c :
  data_addr p (ch_offset c) `mod` uint al = 0 → fixup p c al = ch_offset c.
Proof. intros H. unfold fixup. by rewrite H. Qed.

Lemma alloc_scan_step fuel cursor alloc_size alignment st r st' :
  cursor ≠ 0 →
  alloc_scan (S fuel) cursor alloc_size alignment st = Ret r st' →
  ∃ c, chunks st !! cursor = Some c ∧
    let off1 := fixup cursor c alignment in
    let st1 := put_chunk st cursor (set_offset c off1) in
    if alloc_size <=? sint (ch_size c - off1)
    then r = Some (data_addr cursor off1) ∧
         st' = put_chunk st cursor (set_offset c (sint (off1 + alloc_size)))
    else alloc_scan fuel (ch_next c) alloc_size alignment st1 = Ret r st'.
Proof.
  intros Hnz H. simpl in H. destruct (Z.eqb_spec cursor 0); [done|].
  step_in H. inv_prim. rename x into c. exists c. split; [done|].
  step_in H. unfold fixup.
  set (mis := data_addr cursor (ch_offset c) `mod` uint alignment) in *.
  destruct (mis =? 0).
  - inv_prim. step_in H. inv_prim. simplify_eq.
    replace (set_offset c (ch_offset c)) with c by (by destruct c).
    rewrite (put_chunk_same st cursor c Hch).
    destruct (alloc_size <=? _); [|done].
    step_in H. inv_prim. simplify_eq. done.
  - inv_prim. simplify_eq.
    step_in H. inv_prim. simpl in *. simplify_map_eq. simpl in *.
    destruct (alloc_size <=? _); [|done].
    step_in H. inv_prim. simpl in *. simplify_map_eq. split; [done|].
    unfold put_chunk, set_chunks; simpl. by rewrite insert_insert_eq.
Qed.

(** The scan only ever writes offsets, and when it falls through it has
    written nothing but alignment padding. *)
Lemma alloc_scan_frame al fuel : ∀ cursor alloc_size st r st',
  alloc_scan fuel cursor alloc_size al st = Ret r st' →
  frame_rel (padded al r) st st' ∧ os st' = os st.
Proof.
  induction fuel as [|fuel IH]; intros cursor alloc_size st r st' H.
  - simpl in H. destruct (cursor =? 0); [|done]. inv_prim.
    split; [|done]. apply frame_rel_refl, padded_refl.
  - destruct (Z.eqb_spec cursor 0) as [->|Hnz].
    { simpl in H. inv_prim. split; [|done]. apply frame_rel_refl, padded_refl. }
    apply alloc_scan_step in H as (c & Hc & H); [|done]. simpl in H.
    destruct (alloc_size <=? _).
    + destruct H as [-> ->]. split; [|done].
      eapply frame_rel_put; eauto using padded_refl.
      split; [apply same_layout_set_offset | done].
    + apply IH in H as [H Hos]. split; [|done].
      eapply frame_rel_trans; [apply padded_trans| |apply H].
      eapply frame_rel_put; eauto using padded_refl.
      split; [apply same_layout_set_offset|]. intros _ Hal. simpl.
      by apply fixup_aligned_id.
Qed.

Lemma alloc_grow_inv arena alloc_size chunk_size alignment flags st a st' :
  alloc_grow arena alloc_size chunk_size alignment flags st = Ret a st' →
  (a = 0 ∧ arenas st' = arenas st ∧ chunks st' = chunks st ∧
   (os st' = os st ∨ ∃ r, os st = r :: os st' ∧ ∀ x, r ≠ Mapped x))
  ∨ ∃ new ar t,
      let c0 := mkChunk 0 chunk_size 0 (zeros chunk_size) in
      let off1 := fixup new c0 alignment in
      let h1 := <[new := set_offset c0 (sint (off1 + alloc_size))]> (chunks st) in
      new ≠ 0 ∧ os st = Mapped new :: os st' ∧
      arenas st !! arena = Some ar ∧
      a = data_addr new off1 ∧
      h1 !! ar_tail ar = Some t ∧
      chunks st' = <[ar_tail ar := set_next t new]> h1 ∧
      arenas st' = <[arena := mkArena (ar_head ar) new]> (arenas st).
Proof.
  unfold alloc_grow. intros H. step H as new s1 Hnew.
  apply alloc_chunk_inv in Hnew as [(-> & Ha & Hc & Ho)|(Hnz & Ho & Ha & Hc)].
  { simpl in H. inv_prim. left. eauto. }
  destruct (Z.eqb_spec new 0); [done|]. right.
  step H as c s2 H2. inv_prim. rewrite Hc, lookup_insert_eq in Hch. simplify_eq.
  step H as u3 s3 H3.
  set (c0 := mkChunk 0 chunk_size 0 (zeros chunk_size)) in *.
  assert (s3 = put_chunk s1 new (set_offset c0 (fixup new c0 alignment))) as ->.
  { unfold fixup. change (ch_offset c0) with 0 in *.
    destruct (_ =? 0).
    - inv_prim. change (set_offset c0 0) with c0.
      rewrite put_chunk_same; [done|]. by rewrite Hc, lookup_insert_eq.
    - inv_prim. rewrite Hc, lookup_insert_eq in Hch. by simplify_eq. }
  step H as c1 s4 H4. inv_prim. simpl in Hch. rewrite lookup_insert_eq in Hch.
  simplify_eq.
  step H as u5 s5 H5. inv_prim. simpl in Hch. rewrite lookup_insert_eq in Hch.
  simplify_eq.
  step H as ar s6 H6. inv_prim.
  step H as u7 s7 H7. inv_prim. rename c into t.
  step H as ar' s8 H8. inv_prim. simpl in *. simplify_eq.
  step H as u9 s9 H9. inv_prim. simpl in *.
  exists new, ar, t. simpl.
  rewrite insert_insert_eq, Hc, insert_insert_eq in Hch.
  rewrite !insert_insert_eq, Hc, insert_insert_eq.
  rewrite <- Ha. repeat split; try done.
Qed.

(** ** Alignment of the returned address *)

Lemma alloc_scan_aligned k fuel : ∀ cursor alloc_size st a st',
  0 <= k < 63 →
  alloc_scan fuel cursor alloc_size (2 ^ k) st = Ret (Some a) st' →
  a `mod` 2 ^ k = 0.
Proof.
  induction fuel as [|fuel IH]; intros cursor alloc_size st a st' Hk H.
  - simpl in H. destruct (cursor =? 0); [by inv_prim | done].
  - destruct (Z.eqb_spec cursor 0) as [->|Hnz]; [simpl in H; by inv_prim|].
    apply alloc_scan_step in H as (c & Hc & H); [|done]. simpl in H.
    destruct (alloc_size <=? _).
    + destruct H as [[= ->] _]. by apply fixup_aligned.
    + eauto.
Qed.

Lemma alloc_grow_aligned k arena alloc_size chunk_size flags st a st' :
  0 <= k < 63 →
  alloc_grow arena alloc_size chunk_size (2 ^ k) flags st = Ret a st' →
  a `mod` 2 ^ k = 0.
Proof.
  intros Hk H. apply alloc_grow_inv in H as [(-> & _)|(new & ar & t & H)].
  - apply Z.mod_0_l. pose proof (pow2_ptrdiff k Hk). lia.
  - simpl in H. destruct H as (_ & _ & _ & -> & _). by apply fixup_aligned.
Qed.

Lemma alloc_find_aligned k fuel arena alloc_size chunk_size flags st a st' :
  0 <= k < 63 →
  alloc_find fuel arena alloc_size chunk_size (2 ^ k) flags st = Ret a st' →
  a `mod` 2 ^ k = 0.
Proof.
  intros Hk H. unfold alloc_find in H.
  step H as ar s1 H1. step H as r s2 H2. destruct r as [p|].
  - inv_prim. subst. eauto using alloc_scan_aligned.
  - eauto using alloc_grow_aligned.
Qed.

(** C2. For a request of [num_bytes > 0] bytes with an alignment that is
    a positive power of two, an address returned by a successful
    [arena_alloc] is a multiple of the alignment, whether it lies in a
    chunk that was already in the chain or in the chunk acquired by this
    call. *)
Theorem arena_alloc_aligned fuel arena num_bytes alignment flags st a st' k :
  0 < num_bytes → 0 <= k < 63 → alignment = 2 ^ k →
  arena_alloc fuel arena num_bytes alignment flags st = Ret a st' →
  a ≠ 0 →
  a `mod` alignment = 0.
Proof.
  intros Hn Hk -> H Ha. unfold arena_alloc in H.
  destruct (_ || _); [by inv_prim|].
  step H as ar s1 H1. destruct (ar_tail ar =? 0).
  - step H as u2 s2 H2. step H as new s3 H3.
    destruct (new =? 0); [by inv_prim|].
    step H as u4 s4 H4. step H as ar' s5 H5. step H as u6 s6 H6.
    eauto using alloc_find_aligned.
  - eauto using alloc_find_aligned.
Qed.

Lemma arena_alloc_aligned_witness : 65600 `mod` 64 = 0.
Proof.
  apply (arena_alloc_aligned 1 100 64 64 0 (fresh_state [Mapped 65536]) 65600
           (final (arena_alloc 1 100 64 64 0) (fresh_state [Mapped 65536])) 6).
  - lia.
  - lia.
  - reflexivity.
  - apply ret_value_final. vm_compute. reflexivity.
  - lia.
Defined.

(** ** The size of a chunk acquired for growth *)

(** After the scan and a possible growth every chunk that was mapped is
    still mapped, with its size or, if the OS handed out its address
    again, with the size of the new chunk. *)
Lemma alloc_find_sizes fuel arena alloc_size chunk_size al flags st a st' p c :
  alloc_find fuel arena alloc_size chunk_size al flags st = Ret a st' →
  chunks st !! p = Some c →
  ∃ c', chunks st' !! p = Some c' ∧
        (ch_size c' = ch_size c ∨ ch_size c' = chunk_size).
Proof.
  unfold alloc_find. intros H Hc.
  step H as ar s1 H1. inv_prim. step H as r s2 H2.
  apply alloc_scan_frame in H2 as [H2 _].
  destruct (frame_rel_lookup _ _ _ _ _ H2 Hc) as (c1 & Hc1 & (_ & Hsz & _) & _).
  destruct r as [q|].
  { inv_prim. exists c1. split; [done|]. by left. }
  apply alloc_grow_inv in H as [(_ & _ & Hch & _)|(new & ar2 & t & H)].
  { exists c1. rewrite Hch. split; [done|]. by left. }
  simpl in H. destruct H as (Hnew & Hos & Har2 & -> & Ht & -> & Har').
  destruct (decide (ar_tail ar2 = p)) as [Heq|Hne].
  - rewrite Heq in *. rewrite lookup_insert_eq. eexists; split; [done|]. simpl.
    destruct (decide (new = p)) as [Heq'|Hne'].
    + rewrite Heq' in *. rewrite lookup_insert_eq in Ht. simplify_eq. by right.
    + rewrite lookup_insert_ne in Ht by done. simplify_eq. by left.
  - rewrite lookup_insert_ne by done.
    destruct (decide (new = p)) as [->|Hne'].
    + rewrite lookup_insert_eq. eexists; split; [done|]. by right.
    + rewrite lookup_insert_ne by done. exists c1. split; [done|]. by left.
Qed.

(** When the scan and growth step moves the tail, the new tail is the
    chunk it acquired. *)
Lemma alloc_find_new_tail fuel arena alloc_size chunk_size al flags st a st' ar ar' :
  alloc_find fuel arena alloc_size chunk_size al flags st = Ret a st' →
  arenas st !! arena = Some ar → arenas st' !! arena = Some ar' →
  ar_tail ar' ≠ ar_tail ar →
  Mapped (ar_tail ar') ∈ os st ∧
  ∃ c, chunks st' !! ar_tail ar' = Some c ∧ ch_size c = chunk_size.
Proof.
  unfold alloc_find. intros H Har Har' Hne.
  step H as ar1 s1 H1. inv_prim. simplify_eq. step H as r s2 H2.
  apply alloc_scan_frame in H2 as ((Ha2 & _) & Ho2).
  destruct r as [q|].
  { inv_prim. rewrite Ha2 in Har'. by simplify_eq. }
  apply alloc_grow_inv in H as [(_ & Ha & _)|(new & ar2 & t & H)].
  { rewrite Ha, Ha2 in Har'. by simplify_eq. }
  simpl in H. destruct H as (Hnew & Hos & Har2 & -> & Ht & -> & Ha).
  rewrite Ha2 in Har2. simplify_eq.
  rewrite Ha, lookup_insert_eq in Har'. simplify_eq. simpl in *.
  split. { rewrite <- Ho2, Hos. left. }
  rewrite lookup_insert_ne by done. rewrite lookup_insert_eq. eauto.
Qed.

(** C6, as the code has it.  When [arena_alloc] moves the tail of the
    arena, the new tail is a chunk that the OS handed out during the call
    and its size is the reservation [ROUND_UP(num_bytes, alignment)]
    rounded up to a multiple of [DEFAULT_CHUNK_SIZE]: at least the
    reservation (for reservations that leave room for the rounding in a
    [ptrdiff_t]) and less than one default chunk more. *)
Theorem arena_alloc_growth_size fuel arena num_bytes alignment flags st a st' ar ar' :
  arena_alloc fuel arena num_bytes alignment flags st = Ret a st' →
  arenas st !! arena = Some ar → arenas st' !! arena = Some ar' →
  ar_tail ar' ≠ ar_tail ar →
  let alloc_size := ROUND_UP num_bytes alignment in
  Mapped (ar_tail ar') ∈ os st ∧
  ∃ c, chunks st' !! ar_tail ar' = Some c ∧
       ch_size c = ROUND_UP_DEFAULT alloc_size ∧
       (0 <= alloc_size <= half - DEFAULT_CHUNK_SIZE →
        alloc_size <= ch_size c < alloc_size + DEFAULT_CHUNK_SIZE ∧
        ch_size c `mod` DEFAULT_CHUNK_SIZE = 0).
Proof.
  intros H Har Har' Hne alloc_size.
  cut (Mapped (ar_tail ar') ∈ os st ∧
       ∃ c, chunks st' !! ar_tail ar' = Some c ∧
            ch_size c = ROUND_UP_DEFAULT alloc_size).
  { intros (Hos & c & Hc & Hsz). split; [done|]. exists c.
    split; [done|]. split; [done|]. rewrite Hsz.
    apply ROUND_UP_DEFAULT_bounds. }
  unfold arena_alloc in H. fold alloc_size in H.
  destruct (_ || _). { inv_prim. by simplify_eq. }
  step H as ar0 s1 H1. inv_prim. assert (ar0 = ar) as -> by congruence.
  destruct (ar_tail ar =? 0); [|by eapply alloc_find_new_tail].
  step H as u2 s2 H2. inv_prim. step H as new s3 H3.
  apply alloc_chunk_inv in H3 as [(-> & Ha & Hc & Ho)|(Hnew & Ho & Ha & Hc)].
  { simpl in H. inv_prim. rewrite Ha in Har'. by simplify_eq. }
  destruct (Z.eqb_spec new 0); [done|].
  step H as u4 s4 H4. inv_prim. step H as ar4 s5 H5. inv_prim.
  step H as u6 s6 H6. inv_prim. simpl in *.
  rewrite lookup_insert_eq in Har1. simplify_eq. simpl in *.
  destruct (decide (ar_tail ar' = new)) as [Heq|Hne'].
  - rewrite Heq. split. { rewrite Ho. left. }
    eapply alloc_find_sizes in H as (c' & Hc' & Hsz).
    2:{ simpl. rewrite Hc. apply lookup_insert_eq. }
    exists c'. split; [done|]. simpl in Hsz. by destruct Hsz.
  - apply (alloc_find_new_tail _ _ _ _ _ _ _ _ _ (mkArena new new) ar')
      in H as (Hin & c & Hc' & Hsz); [| |done|done].
    2:{ simpl. apply lookup_insert_eq. }
    split; [|eauto]. simpl in Hin. rewrite Ho. by right.
Qed.

Lemma arena_alloc_growth_size_witness :
  Mapped 16777216 ∈ os one_chunk_state ∧
  ∃ c, chunks grown_state !! 16777216 = Some c ∧
       ch_size c = ROUND_UP_DEFAULT (ROUND_UP 4194304 1) ∧
       (0 <= ROUND_UP 4194304 1 <= half - DEFAULT_CHUNK_SIZE →
        ROUND_UP 4194304 1 <= ch_size c < ROUND_UP 4194304 1 + DEFAULT_CHUNK_SIZE ∧
        ch_size c `mod` DEFAULT_CHUNK_SIZE = 0).
Proof.
  apply (arena_alloc_growth_size 2 100 4194304 1 0 one_chunk_state 16777240
           grown_state (mkArena 65536 65536) (mkArena 65536 16777216)).
  - apply ret_value_final. vm_compute. reflexivity.
  - vm_compute. reflexivity.
  - vm_compute. reflexivity.
  - simpl. lia.
Defined.

(** C6 as stated fails: the arena holds one chunk with 8 bytes in use, a
    request for 4 MiB does not fit, the arena grows, and the chunk
    appended at the tail has 4 MiB, not the 8 MiB that twice the
    reservation would be. *)
Lemma growth_chunk_below_twice_reservation :
  value (arena_alloc 2 100 4194304 1 0) one_chunk_state = Some 16777240 ∧
  arenas one_chunk_state !! 100 = Some (mkArena 65536 65536) ∧
  arenas grown_state !! 100 = Some (mkArena 65536 16777216) ∧
  header one_chunk_state 16777216 = None ∧
  header grown_state 16777216 = Some (0, 4194304, 4194304) ∧
  ROUND_UP 4194304 1 = 4194304 ∧
  ¬ (2 * ROUND_UP 4194304 1 <= 4194304).
Proof.
  repeat apply conj; try (vm_compute; reflexivity).
  vm_compute. intros H. by apply H.
Qed.

(** ** Offsets and capacity *)

(** The growth step never compares the offset it computes with the
    capacity of the chunk it acquired. *)
Lemma alloc_grow_offset arena alloc_size chunk_size al flags st a st' new :
  alloc_grow arena alloc_size chunk_size al flags st = Ret a st' →
  os st = Mapped new :: os st' →
  ∃ ar c, arenas st' !! arena = Some ar ∧ ar_tail ar = new ∧
          chunks st' !! new = Some c ∧ ch_size c = chunk_size ∧
          ch_offset c =
            sint (fixup new (mkChunk 0 chunk_size 0 (zeros chunk_size)) al + alloc_size).
Proof.
  intros H Hos. apply alloc_grow_inv in H as [(_ & _ & _ & Ho)|(new' & ar & t & H)].
  { destruct Ho as [Ho|(r & Ho & Hr)].
    - rewrite Ho in Hos. symmetry in Hos. by apply (app_cons_neq_tail []) in Hos.
    - rewrite Hos in Ho. injection Ho as <-. by destruct (Hr new). }
  simpl in H. destruct H as (Hnew & Ho & Har & _ & Ht & Hc & Ha).
  rewrite Hos in Ho. injection Ho as <-.
  exists (mkArena (ar_head ar) new). rewrite Ha, Hc, lookup_insert_eq.
  destruct (decide (ar_tail ar = new)) as [Heq|Hne].
  - rewrite Heq in *. rewrite lookup_insert_eq in *. simplify_eq.
    eexists. repeat split; done.
  - rewrite lookup_insert_ne, lookup_insert_eq by done.
    eexists. repeat split; done.
Qed.

(** So whenever the chunk is no larger than the reservation (every
    reservation that is a multiple of the default chunk size) and its
    data does not start at a multiple of the alignment (the data of a
    page-aligned block starts 24 bytes into the page), the offset ends
    beyond the size. *)
Lemma alloc_grow_overruns arena alloc_size chunk_size k flags st a st' new :
  0 <= k < 63 → 0 <= alloc_size → chunk_size <= alloc_size →
  alloc_size + 2 ^ k < half →
  data_addr new 0 `mod` 2 ^ k ≠ 0 →
  alloc_grow arena alloc_size chunk_size (2 ^ k) flags st = Ret a st' →
  os st = Mapped new :: os st' →
  ∃ c, chunks st' !! new = Some c ∧ ch_size c < ch_offset c.
Proof.
  intros Hk Hpos Hle Hlt Hmis H Hos.
  destruct (alloc_grow_offset _ _ _ _ _ _ _ _ _ H Hos)
    as (ar & c & _ & _ & Hc & Hsz & Hoff).
  exists c. split; [done|]. rewrite Hsz, Hoff. unfold fixup. simpl.
  pose proof (pow2_ptrdiff k Hk) as Hp.
  assert (uint (2 ^ k) = 2 ^ k) as Hu
    by (apply uint_small; rewrite modulus_eq, half_eq in *; lia).
  rewrite Hu in *.
  destruct (Z.eqb_spec (data_addr new 0 `mod` 2 ^ k) 0); [done|].
  pose proof (Z.mod_pos_bound (data_addr new 0) (2 ^ k) ltac:(lia)) as Hb.
  rewrite (uint_small (2 ^ k - _)) by (rewrite modulus_eq, half_eq in *; lia).
  rewrite Z.add_0_l.
  rewrite (uint_small (2 ^ k - _)) by (rewrite modulus_eq, half_eq in *; lia).
  rewrite (sint_small (2 ^ k - _)) by (unfold is_ptrdiff; rewrite half_eq in *; lia).
  rewrite sint_small by (unfold is_ptrdiff; rewrite half_eq in *; lia).
  lia.
Qed.

Lemma header_inv st p n s o :
  header st p = Some (n, s, o) →
  ∃ c, chunks st !! p = Some c ∧ ch_next c = n ∧ ch_size c = s ∧ ch_offset c = o.
Proof.
  unfold header. destruct (chunks st !! p) as [c|]; [|done].
  simpl. intros [= <- <- <-]. eauto.
Qed.

(** C3 on a concrete run: a fresh arena, a request for 4 MiB aligned to
    64.  The first chunk is 4 MiB; its data starts 24 bytes after a page
    boundary, the scan pads its offset to 40, and the request no longer
    fits.  The chunk acquired for growth is 4 MiB as well; its offset is
    padded to 40 and then advanced by 4 MiB without any check, to
    4194344, which is beyond its size 4194304.  The state after this one
    call is reachable and violates [0 <= offset <= size]. *)
Theorem arena_alloc_offset_exceeds_size :
  let st := fresh_state [Mapped 65536; Mapped 16777216] in
  let st' := final (exec_all 1 [Allocate 100 4194304 64 0]) st in
  observe (arena_alloc 1 100 4194304 64 0) st [100] [65536; 16777216]
    = Some (16777216 + sizeof_chunk + 40, [Some (mkArena 65536 16777216)],
            [Some (16777216, 4194304, 40); Some (0, 4194304, 4194344)]) ∧
  reachable fresh_state st' ∧
  ¬ offsets_within_capacity st'.
Proof.
  repeat apply conj.
  - vm_compute. reflexivity.
  - exists 1%nat, [Allocate 100 4194304 64 0], [Mapped 65536; Mapped 16777216].
    apply ret_value_final. vm_compute. reflexivity.
  - intros Hinv.
    assert (header (final (exec_all 1 [Allocate 100 4194304 64 0])
                      (fresh_state [Mapped 65536; Mapped 16777216])) 16777216
            = Some (0, 4194304, 4194344)) as Hh by (vm_compute; reflexivity).
    apply header_inv in Hh as (c & Hc & _ & Hs & Ho).
    specialize (Hinv _ _ Hc). lia.
Qed.

(** The scan violates the same bound on a chunk that is full: the first
    chunk has offset = size, its used part ends 24 bytes after a multiple
    of 64, and a request aligned to 64 pads the offset by 40 before the
    fit is tested. *)
Lemma arena_alloc_scan_pads_full_chunk :
  header full_chunk_state 65536 = Some (0, 4194304, 4194304) ∧
  observe (arena_alloc 1 100 64 64 0) full_chunk_state [100] [65536; 16777216]
    = Some (16777216 + sizeof_chunk + 40, [Some (mkArena 65536 16777216)],
            [Some (16777216, 4194304, 4194344); Some (0, 4194304, 104)]).
Proof. repeat apply conj; vm_compute; reflexivity. Qed.

(** And a negative size drives an offset below 0. *)
Lemma arena_alloc_negative_size_negative_offset :
  header cropped_state 16777216 = Some (0, 16, 0) ∧
  observe (arena_alloc 1 100 (-1) 1 0) cropped_state [100] [16777216]
    = Some (16777216 + sizeof_chunk, [Some (mkArena 16777216 16777216)],
            [Some (0, 16, -1)]).
Proof. repeat apply conj; vm_compute; reflexivity. Qed.

(** ** When an acquisition fails *)

(** The alignment padding moves an offset forward by less than the
    alignment. *)
Lemma fixup_bounds k p c :
  0 <= k < 63 → - half <= ch_offset c → ch_offset c + 2 ^ k < half →
  ch_offset c <= fixup p c (2 ^ k) < ch_offset c + 2 ^ k.
Proof.
  intros Hk Hlo Hhi. pose proof (pow2_ptrdiff k Hk) as Hp.
  unfold fixup.
  rewrite (uint_small (2 ^ k)) by (rewrite modulus_eq, half_eq in *; lia).
  pose proof (Z.mod_pos_bound (data_addr p (ch_offset c)) (2 ^ k) ltac:(lia)) as Hm.
  destruct (Z.eqb_spec (data_addr p (ch_offset c) `mod` 2 ^ k) 0); [lia|].
  rewrite (uint_small (2 ^ k - _)) by (rewrite modulus_eq, half_eq in *; lia).
  rewrite sint_uint by (unfold is_ptrdiff; lia). lia.
Qed.







(** ** The scan, run forward *)






(** One iteration of the scan. *)
Lemma alloc_scan_unfold fuel cursor alloc_size al st c :
  cursor ≠ 0 → chunks st !! cursor = Some c →
  alloc_scan (S fuel) cursor alloc_size al st =
    let off1 := fixup cursor c al in
    if alloc_size <=? sint (ch_size c - off1)
    then Ret (Some (data_addr cursor off1))
             (put_chunk st cursor (set_offset c (sint (off1 + alloc_size))))
    else alloc_scan fuel (ch_next c) alloc_size al
           (put_chunk st cursor (set_offset c off1)).
Proof.
  intros Hnz Hc. simpl. destruct (Z.eqb_spec cursor 0); [done|].
  rewrite (bind_run _ _ _ _ _ (load_chunk_run _ _ _ Hnz Hc)).
  set (st1 := put_chunk st cursor (set_offset c (fixup cursor c al))).
  assert ((if data_addr cursor (ch_offset c) `mod` uint al =? 0 then mret tt
           else store_field cursor set_offset
                  (sint (uint (ch_offset c +
                     uint (al - data_addr cursor (ch_offset c) `mod` uint al))))) st
          = Ret tt st1) as Hpad.
  { unfold st1, fixup. destruct (_ =? 0).
    - rewrite set_offset_same, put_chunk_same by done. done.
    - by rewrite (store_field_run _ _ _ _ c). }
  rewrite (bind_run _ _ _ _ _ Hpad).
  assert (chunks st1 !! cursor = Some (set_offset c (fixup cursor c al))) as Hc1
    by apply lookup_insert_eq.
  rewrite (bind_run _ _ _ _ _ (load_chunk_run _ _ _ Hnz Hc1)). simpl.
  destruct (alloc_size <=? _); [|done].
  rewrite (bind_run _ _ _ tt (put_chunk st cursor
             (set_offset c (sint (fixup cursor c al + alloc_size))))); [done|].
  rewrite (store_field_run _ _ _ _ _ Hnz Hc1). f_equal.
  unfold st1, put_chunk, set_chunks; simpl. by rewrite insert_insert_eq.
Qed.

(** First fit: the scan serves the request from the first chunk of the
    chain that has room after padding; the chunks before it are padded,
    all others are untouched. *)
Lemma alloc_scan_first_fit al alloc_size : ∀ l1 fuel st cursor p l2 c,
  chain (chunks st) cursor (l1 ++ p :: l2) → (length l1 < fuel)%nat →
  (∀ q cq, q ∈ l1 → chunks st !! q = Some cq →
           sint (ch_size cq - fixup q cq al) < alloc_size) →
  chunks st !! p = Some c → alloc_size <= sint (ch_size c - fixup p c al) →
  ∃ st', alloc_scan fuel cursor alloc_size al st
           = Ret (Some (data_addr p (fixup p c al))) st' ∧
    arenas st' = arenas st ∧ os st' = os st ∧
    chunks st' !! p = Some (set_offset c (sint (fixup p c al + alloc_size))) ∧
    (∀ q cq, q ∈ l1 → chunks st !! q = Some cq →
             chunks st' !! q = Some (set_offset cq (fixup q cq al))) ∧
    (∀ q, q ∉ l1 → q ≠ p → chunks st' !! q = chunks st !! q).
Proof.
  induction l1 as [|a l1 IH]; intros fuel st cursor p l2 c Hch Hf Hfull Hc Hfit.
  - simpl in Hch. destruct Hch as (-> & Hnz & _).
    destruct fuel as [|fuel]; [simpl in Hf; lia|].
    rewrite (alloc_scan_unfold _ _ _ _ _ _ Hnz Hc). simpl.
    destruct (Z.leb_spec alloc_size (sint (ch_size c - fixup p c al))); [|lia].
    eexists. split; [done|]. repeat split.
    + simpl. apply lookup_insert_eq.
    + intros q cq Hq. by apply not_elem_of_nil in Hq.
    + intros q _ Hq. simpl. by rewrite lookup_insert_ne.
  - pose proof (chain_NoDup _ _ _ Hch) as Hnd. simpl in Hnd.
    apply NoDup_cons in Hnd as [Hnin Hnd].
    simpl in Hch. destruct Hch as (-> & Hnz & ca & Hca & Hch).
    destruct fuel as [|fuel]; [simpl in Hf; lia|].
    rewrite (alloc_scan_unfold _ _ _ _ _ _ Hnz Hca). simpl.
    pose proof (Hfull a ca ltac:(left) Hca) as Hno.
    destruct (Z.leb_spec alloc_size (sint (ch_size ca - fixup a ca al))); [lia|].
    set (st1 := put_chunk st a (set_offset ca (fixup a ca al))).
    assert (∀ q, q ≠ a → chunks st1 !! q = chunks st !! q) as Hsame.
    { intros q Hq. simpl. by rewrite lookup_insert_ne. }
    assert (a ≠ p) as Hap.
    { intros ->. apply Hnin. apply elem_of_app. right. left. }
    assert (a ∉ l1) as Hal.
    { intros Hin. apply Hnin. apply elem_of_app. by left. }
    destruct (IH fuel st1 (ch_next ca) p l2 c) as (st' & Hrun & Har & Hos & Hp & Hpad & Hrest).
    + apply (chain_frame (chunks st)); [|done].
      intros q Hq. apply Hsame. by intros ->.
    + simpl in Hf. lia.
    + intros q cq Hq. rewrite Hsame by (by intros ->). apply Hfull. by right.
    + by rewrite Hsame.
    + done.
    + exists st'. split; [done|]. repeat split; [done..| |].
      * intros q cq Hq Hcq. apply elem_of_cons in Hq as [->|Hq].
        -- rewrite Hrest by done. simpl. rewrite lookup_insert_eq. congruence.
        -- apply Hpad; [done|]. rewrite Hsame; [done|]. by intros ->.
      * intros q Hq Hqp. apply not_elem_of_cons in Hq as [Hqa Hq].
        rewrite Hrest by done. by apply Hsame.
Qed.

(** On a chain, with one unit of fuel per chunk, the scan returns. *)
Lemma alloc_scan_total al alloc_size : ∀ l fuel st cursor,
  chain (chunks st) cursor l → (length l ≤ fuel)%nat →
  ∃ r st', alloc_scan fuel cursor alloc_size al st = Ret r st'.
Proof.
  induction l as [|a l IH]; intros fuel st cursor Hch Hf.
  - simpl in Hch. subst. exists None, st. by destruct fuel.
  - pose proof (chain_NoDup _ _ _ Hch) as Hnd.
    apply NoDup_cons in Hnd as [Hnin Hnd].
    simpl in Hch. destruct Hch as (-> & Hnz & ca & Hca & Hch).
    destruct fuel as [|fuel]; [simpl in Hf; lia|].
    rewrite (alloc_scan_unfold _ _ _ _ _ _ Hnz Hca). simpl.
    destruct (alloc_size <=? _); [eauto|].
    apply IH; [|simpl in Hf; lia].
    apply (chain_frame (chunks st)); [|done].
    intros q Hq. simpl. apply lookup_insert_ne. by intros ->.
Qed.

(** When no chunk of the chain has room, the scan pads every chunk and
    falls through. *)
Lemma alloc_scan_exhausted al alloc_size : ∀ l fuel st cursor,
  chain (chunks st) cursor l → (length l ≤ fuel)%nat →
  (∀ q cq, q ∈ l → chunks st !! q = Some cq →
           sint (ch_size cq - fixup q cq al) < alloc_size) →
  ∃ st', alloc_scan fuel cursor alloc_size al st = Ret None st' ∧
    arenas st' = arenas st ∧ os st' = os st ∧
    (∀ q cq, q ∈ l → chunks st !! q = Some cq →
             chunks st' !! q = Some (set_offset cq (fixup q cq al))) ∧
    (∀ q, q ∉ l → chunks st' !! q = chunks st !! q).
Proof.
  induction l as [|a l IH]; intros fuel st cursor Hch Hf Hfull.
  - simpl in Hch. subst. exists st. split; [by destruct fuel|].
    repeat split; try done. intros q cq Hq. by apply not_elem_of_nil in Hq.
  - pose proof (chain_NoDup _ _ _ Hch) as Hnd.
    apply NoDup_cons in Hnd as [Hnin Hnd].
    simpl in Hch. destruct Hch as (-> & Hnz & ca & Hca & Hch).
    destruct fuel as [|fuel]; [simpl in Hf; lia|].
    rewrite (alloc_scan_unfold _ _ _ _ _ _ Hnz Hca). simpl.
    pose proof (Hfull a ca ltac:(left) Hca) as Hno.
    destruct (Z.leb_spec alloc_size (sint (ch_size ca - fixup a ca al))); [lia|].
    set (st1 := put_chunk st a (set_offset ca (fixup a ca al))).
    assert (∀ q, q ≠ a → chunks st1 !! q = chunks st !! q) as Hsame.
    { intros q Hq. simpl. by rewrite lookup_insert_ne. }
    destruct (IH fuel st1 (ch_next ca)) as (st' & Hrun & Har & Hos & Hpad & Hrest).
    + apply (chain_frame (chunks st)); [|done].
      intros q Hq. apply Hsame. by intros ->.
    + simpl in Hf. lia.
    + intros q cq Hq. rewrite Hsame by (by intros ->). apply Hfull. by right.
    + exists st'. split; [done|]. repeat split; [done..| |].
      * intros q cq Hq Hcq. apply elem_of_cons in Hq as [->|Hq].
        -- rewrite Hrest by done. simpl. rewrite lookup_insert_eq. congruence.
        -- apply Hpad; [done|]. rewrite Hsame; [done|]. by intros ->.
      * intros q Hq. apply not_elem_of_cons in Hq as [Hqa Hq].
        rewrite Hrest by done. by apply Hsame.
Qed.

(** ** Allocate on a well-formed arena *)

(** The growth step, run forward from a successful acquisition. *)
Lemma alloc_grow_run arena alloc_size chunk_size al flags st new s1 ar t :
  alloc_chunk chunk_size flags st = Ret new s1 → new ≠ 0 →
  arena ≠ 0 → arenas st !! arena = Some ar → ar_tail ar ≠ 0 →
  let c0 := mkChunk 0 chunk_size 0 (zeros chunk_size) in
  let off1 := fixup new c0 al in
  let h1 := <[new := set_offset c0 (sint (off1 + alloc_size))]> (chunks st) in
  h1 !! ar_tail ar = Some t →
  alloc_grow arena alloc_size chunk_size al flags st =
    Ret (data_addr new off1)
        (mkState (<[arena := mkArena (ar_head ar) new]> (arenas st))
                 (<[ar_tail ar := set_next t new]> h1) (os s1) (leaked s1)).
Proof.
  intros Hnew Hnz Hanz Har Htl c0 off1 h1 Ht. unfold alloc_grow.
  rewrite (bind_run _ _ _ _ _ Hnew).
  apply alloc_chunk_inv in Hnew as [(-> & _)|(_ & Hos & Ha & Hc)]; [done|].
  destruct (Z.eqb_spec new 0); [done|].
  assert (chunks s1 !! new = Some c0) as H1 by (rewrite Hc; apply lookup_insert_eq).
  rewrite (bind_run _ _ _ _ _ (load_chunk_run _ _ _ Hnz H1)).
  set (s2 := put_chunk s1 new (set_offset c0 off1)).
  assert ((if data_addr new 0 `mod` uint al =? 0 then mret tt
           else store_field new set_offset
                  (sint (uint (ch_offset c0 + uint (al - data_addr new 0 `mod` uint al))))) s1
          = Ret tt s2) as Hpad.
  { unfold s2, off1, fixup. change (ch_offset c0) with 0. destruct (_ =? 0).
    - change (set_offset c0 0) with c0. by rewrite put_chunk_same.
    - by rewrite (store_field_run _ _ _ _ c0). }
  rewrite (bind_run _ _ _ _ _ Hpad).
  assert (chunks s2 !! new = Some (set_offset c0 off1)) as H2 by apply lookup_insert_eq.
  rewrite (bind_run _ _ _ _ _ (load_chunk_run _ _ _ Hnz H2)).
  rewrite (bind_run _ _ _ _ _ (store_field_run _ set_offset _ _ _ Hnz H2)).
  set (s3 := set_chunks s2 _).
  assert (chunks s3 = h1) as H3.
  { unfold s3, s2, h1, put_chunk, set_chunks; simpl.
    by rewrite !insert_insert_eq, Hc, insert_insert_eq. }
  assert (arenas s3 !! arena = Some ar) as Har3 by (simpl; by rewrite Ha).
  rewrite (bind_run _ _ _ _ _ (load_arena_run _ _ _ Hanz Har3)).
  assert (chunks s3 !! ar_tail ar = Some t) as Ht3 by (by rewrite H3).
  rewrite (bind_run _ _ _ _ _ (store_field_run _ set_next new _ _ Htl Ht3)).
  set (s4 := set_chunks s3 _).
  assert (arenas s4 !! arena = Some ar) as Har4 by done.
  rewrite (bind_run _ _ _ _ _ (load_arena_run _ _ _ Hanz Har4)).
  rewrite (bind_run _ _ _ _ _ (store_arena_run _ (mkArena (ar_head ar) new) _ _ Hanz Har4)).
  unfold mret, M_ret, set_arenas. f_equal.
  change (arenas s4) with (arenas s1).
  change (chunks s4) with (<[ar_tail ar := set_next t new]> (chunks s3)).
  change (os s4) with (os s1). by rewrite H3, Ha.
Qed.

(** The argument check passes: what [arena_alloc] does afterwards. *)
Lemma arena_alloc_nonempty fuel arena num_bytes al flags st ar :
  (arena =? 0) || (num_bytes =? 0) || (al =? 0)
     || negb (Z.land al (sint (al - 1)) =? 0) = false →
  arena ≠ 0 → arenas st !! arena = Some ar → ar_tail ar ≠ 0 →
  arena_alloc fuel arena num_bytes al flags st =
    alloc_find fuel arena (ROUND_UP num_bytes al)
      (ROUND_UP_DEFAULT (ROUND_UP num_bytes al)) al flags st.
Proof.
  intros Hchk Hnz Har Ht. unfold arena_alloc. rewrite Hchk.
  rewrite (bind_run _ _ _ _ _ (load_arena_run _ _ _ Hnz Har)).
  by destruct (Z.eqb_spec (ar_tail ar) 0).
Qed.

(** ... and on an arena without chunks, when the OS maps the first one. *)
Lemma arena_alloc_empty fuel arena num_bytes al flags st new s1 :
  (arena =? 0) || (num_bytes =? 0) || (al =? 0)
     || negb (Z.land al (sint (al - 1)) =? 0) = false →
  arena ≠ 0 → arenas st !! arena = Some (mkArena 0 0) →
  alloc_chunk (ROUND_UP_DEFAULT (ROUND_UP num_bytes al)) flags st = Ret new s1 →
  new ≠ 0 →
  arena_alloc fuel arena num_bytes al flags st =
    alloc_find fuel arena (ROUND_UP num_bytes al)
      (ROUND_UP_DEFAULT (ROUND_UP num_bytes al)) al flags
      (set_arenas s1 (<[arena := mkArena new new]> (arenas st))).
Proof.
  intros Hchk Hnz Har Hnew Hnewnz. unfold arena_alloc. rewrite Hchk.
  rewrite (bind_run _ _ _ _ _ (load_arena_run _ _ _ Hnz Har)). simpl.
  rewrite (bind_run _ _ _ tt st) by done.
  rewrite (bind_run _ _ _ _ _ Hnew).
  destruct (Z.eqb_spec new 0); [done|].
  apply alloc_chunk_inv in Hnew as [(-> & _)|(_ & Hos & Ha & Hc)]; [done|].
  assert (arenas s1 !! arena = Some (mkArena 0 0)) as Har1 by (by rewrite Ha).
  rewrite (bind_run _ _ _ _ _ (store_arena_run _ (mkArena new 0) _ _ Hnz Har1)).
  set (s2 := set_arenas s1 _).
  assert (arenas s2 !! arena = Some (mkArena new 0)) as Har2 by apply lookup_insert_eq.
  rewrite (bind_run _ _ _ _ _ (load_arena_run _ _ _ Hnz Har2)).
  rewrite (bind_run _ _ _ _ _ (store_arena_run _ (mkArena new new) _ _ Hnz Har2)).
  simpl. unfold s2, set_arenas; simpl. by rewrite insert_insert_eq, Ha.
Qed.

(** A request that the scan serves is served by [arena_alloc]. *)
Lemma arena_alloc_served fuel arena num_bytes k flags st l a st' :
  arena ≠ 0 → num_bytes ≠ 0 → 0 <= k < 63 → arena_wf st arena l → l ≠ [] →
  (∀ ar, arenas st !! arena = Some ar →
     alloc_scan fuel (ar_head ar) (ROUND_UP num_bytes (2 ^ k)) (2 ^ k) st
       = Ret (Some a) st') →
  arena_alloc fuel arena num_bytes (2 ^ k) flags st = Ret a st'.
Proof.
  intros Hnz Hn Hk Hwf Hne Hscan. pose proof Hwf as (ar & Har & Hch & Ht).
  destruct (arena_wf_tail _ _ _ _ Hwf Har) as [Hempty _].
  assert (ar_tail ar ≠ 0) as Htl by (intros E; by destruct (Hempty E)).
  rewrite (arena_alloc_nonempty _ _ _ _ _ _ ar); [|by apply arena_alloc_accepts|done..].
  unfold alloc_find. rewrite (bind_run _ _ _ _ _ (load_arena_run _ _ _ Hnz Har)).
  by rewrite (bind_run _ _ _ _ _ (Hscan ar Har)).
Qed.

(** ** The three ways of a request *)

(** X8. The first allocation in an arena without chunks.  When the OS
    maps a block at [new], [arena_alloc] makes it the only chunk of the
    arena, head and tail at once, of the default chunk size rounded up
    for the request, and serves the request from it: the returned
    address is the start of the chunk's data plus the padding that
    aligns it, and the offset of the chunk is padding plus reservation.
    This is the case in which the padded reservation fits the chunk;
    exactly one answer of the OS is consumed. *)
Theorem arena_alloc_first_chunk fuel arena num_bytes k flags st new rest :
  arena ≠ 0 → arena_wf st arena [] → 0 <= k < 63 → 0 < num_bytes →
  num_bytes + 2 ^ k <= half - DEFAULT_CHUNK_SIZE - sizeof_chunk →
  os st = Mapped new :: rest → new ≠ 0 →
  let alloc_size := ROUND_UP num_bytes (2 ^ k) in
  let chunk_size := ROUND_UP_DEFAULT alloc_size in
  let pad := fixup new (mkChunk 0 chunk_size 0 (zeros chunk_size)) (2 ^ k) in
  pad + alloc_size <= chunk_size →
  arena_alloc (S fuel) arena num_bytes (2 ^ k) flags st =
    Ret (data_addr new pad)
        (mkState (<[arena := mkArena new new]> (arenas st))
                 (<[new := mkChunk 0 chunk_size (pad + alloc_size) (zeros chunk_size)]>
                    (chunks st))
                 rest (leaked st)) ∧
  0 <= pad < 2 ^ k ∧ num_bytes <= alloc_size.
Proof.
  intros Hnz (ar & Har & Hch & Ht) Hk Hn Hrange Hos Hnew alloc_size chunk_size pad Hfit.
  pose proof (pow2_ptrdiff k Hk) as Hp. pose proof half_eq as Hhalf.
  change DEFAULT_CHUNK_SIZE with 4194304 in *. unfold sizeof_chunk in Hrange.
  simpl in Hch. destruct ar as [hd tl]. simpl in *. subst hd.
  change (chain_last []) with 0 in Ht. subst tl.
  pose proof (ROUND_UP_bounds num_bytes k Hk) as Hsz.
  specialize (Hsz ltac:(lia) ltac:(lia)).
  fold alloc_size in Hsz.
  destruct (ROUND_UP_DEFAULT_bounds alloc_size) as [Hcs _].
  { change DEFAULT_CHUNK_SIZE with 4194304. lia. }
  fold chunk_size in Hcs. change DEFAULT_CHUNK_SIZE with 4194304 in Hcs.
  set (c0 := mkChunk 0 chunk_size 0 (zeros chunk_size)) in *.
  pose proof (fixup_bounds k new c0 Hk) as Hpad. simpl in Hpad. fold pad in Hpad.
  specialize (Hpad ltac:(lia) ltac:(lia)).
  split; [|lia].
  assert (alloc_chunk chunk_size flags st =
          Ret new (mkState (arenas st) (<[new := c0]> (chunks st)) rest (leaked st))) as Hrun.
  { apply alloc_chunk_run; [unfold sizeof_chunk; lia|done..]. }
  assert (num_bytes ≠ 0) as Hn0 by lia.
  rewrite (arena_alloc_empty _ _ _ _ _ _ new _ (arena_alloc_accepts _ _ _ Hnz Hn0 Hk)
             Hnz Har Hrun Hnew).
  fold alloc_size chunk_size. simpl.
  set (s := set_arenas _ _).
  assert (arenas s !! arena = Some (mkArena new new)) as Har' by apply lookup_insert_eq.
  unfold alloc_find.
  rewrite (bind_run _ _ _ _ _ (load_arena_run _ _ _ Hnz Har')). simpl.
  assert (chunks s !! new = Some c0) as Hc0 by apply lookup_insert_eq.
  assert (alloc_scan (S fuel) new alloc_size (2 ^ k) s =
          Ret (Some (data_addr new pad))
              (put_chunk s new (set_offset c0 (pad + alloc_size)))) as Hscan.
  { rewrite (alloc_scan_unfold fuel _ alloc_size (2 ^ k) _ _ Hnew Hc0).
    simpl. fold pad.
    rewrite (sint_small (chunk_size - pad)) by (unfold is_ptrdiff; lia).
    destruct (Z.leb_spec alloc_size (chunk_size - pad)); [|lia].
    by rewrite sint_small by (unfold is_ptrdiff; lia). }
  rewrite (bind_run _ _ _ _ _ Hscan).
  unfold mret, M_ret. f_equal. unfold s, put_chunk, set_chunks, set_arenas; simpl.
  by rewrite insert_insert_eq.
Qed.

Lemma arena_alloc_first_chunk_witness :
  let alloc_size := ROUND_UP 8 (2 ^ 3) in
  let chunk_size := ROUND_UP_DEFAULT alloc_size in
  let pad := fixup 65536 (mkChunk 0 chunk_size 0 (zeros chunk_size)) (2 ^ 3) in
  arena_alloc 1 100 8 (2 ^ 3) 0 (fresh_state [Mapped 65536]) =
    Ret (data_addr 65536 pad)
        (mkState (<[100 := mkArena 65536 65536]> (arenas (fresh_state [Mapped 65536])))
                 (<[65536 := mkChunk 0 chunk_size (pad + alloc_size) (zeros chunk_size)]>
                    (chunks (fresh_state [Mapped 65536])))
                 [] (leaked (fresh_state [Mapped 65536]))) ∧
  0 <= pad < 2 ^ 3 ∧ 8 <= alloc_size.
Proof.
  apply (arena_alloc_first_chunk 0 100 8 3 0 (fresh_state [Mapped 65536]) 65536 []).
  - lia.
  - apply arena_wfb_spec. vm_compute. reflexivity.
  - lia.
  - lia.
  - vm_compute. done.
  - reflexivity.
  - lia.
  - vm_compute. done.
Defined.

(** X9. First fit.  On an arena with chunks, [arena_alloc] serves the
    request from the first chunk of the chain, in chain order, that has
    room for the reservation behind its padded offset.  The returned
    address is that padded position, the chunk's offset moves behind the
    reservation, every chunk before it is left with its padding (room
    that is lost until the next reset), and all other chunks, the arena
    structs and the OS are untouched: no chunk is acquired. *)
Theorem arena_alloc_first_fit fuel arena num_bytes k flags st l1 p l2 c :
  arena ≠ 0 → num_bytes ≠ 0 → 0 <= k < 63 →
  arena_wf st arena (l1 ++ p :: l2) → (length l1 < fuel)%nat →
  (∀ q cq, q ∈ l1 → chunks st !! q = Some cq →
     sint (ch_size cq - fixup q cq (2 ^ k)) < ROUND_UP num_bytes (2 ^ k)) →
  chunks st !! p = Some c →
  ROUND_UP num_bytes (2 ^ k) <= sint (ch_size c - fixup p c (2 ^ k)) →
  ∃ st', arena_alloc fuel arena num_bytes (2 ^ k) flags st
           = Ret (data_addr p (fixup p c (2 ^ k))) st' ∧
    arenas st' = arenas st ∧ os st' = os st ∧
    chunks st' !! p =
      Some (set_offset c (sint (fixup p c (2 ^ k) + ROUND_UP num_bytes (2 ^ k)))) ∧
    (∀ q cq, q ∈ l1 → chunks st !! q = Some cq →
       chunks st' !! q = Some (set_offset cq (fixup q cq (2 ^ k)))) ∧
    (∀ q, q ∉ l1 → q ≠ p → chunks st' !! q = chunks st !! q).
Proof.
  intros Hnz Hn Hk Hwf Hf Hfull Hc Hfit.
  pose proof Hwf as (ar & Har & Hch & Ht).
  destruct (alloc_scan_first_fit (2 ^ k) (ROUND_UP num_bytes (2 ^ k))
              l1 fuel st (ar_head ar) p l2 c Hch Hf Hfull Hc Hfit)
    as (st' & Hrun & Hrest).
  exists st'. split; [|done].
  apply (arena_alloc_served _ _ _ _ _ _ (l1 ++ p :: l2)); [done..|by destruct l1|].
  intros ar' Har'. by assert (ar' = ar) as -> by congruence.
Qed.


Lemma arena_alloc_first_fit_witness :
  ∃ st', arena_alloc 2 100 12 (2 ^ 0) 0 small_state
           = Ret (data_addr 8192 (fixup 8192 small_second (2 ^ 0))) st' ∧
    arenas st' = arenas small_state ∧ os st' = os small_state ∧
    chunks st' !! 8192 =
      Some (set_offset small_second
              (sint (fixup 8192 small_second (2 ^ 0) + ROUND_UP 12 (2 ^ 0)))) ∧
    (∀ q cq, q ∈ [4096] → chunks small_state !! q = Some cq →
       chunks st' !! q = Some (set_offset cq (fixup q cq (2 ^ 0)))) ∧
    (∀ q, q ∉ [4096] → q ≠ 8192 → chunks st' !! q = chunks small_state !! q).
Proof.
  apply (arena_alloc_first_fit 2 100 12 0 0 small_state [4096] 8192 [] small_second).
  - lia.
  - lia.
  - lia.
  - apply small_state_wf.
  - simpl. lia.
  - each_chunk. vm_compute. reflexivity.
  - reflexivity.
  - vm_compute. done.
Defined.

(** X10. Growth.  When no chunk of the chain has room for the padded
    reservation and the OS maps a block at a fresh address [new],
    [arena_alloc] appends it to the chain: the old tail links to it, it
    becomes the tail, the head stays, and the arena is well-formed with
    the chain [l ++ [new]].  The request is served from the start of the
    new chunk's data plus alignment padding, and the offset of the new
    chunk is padding plus reservation, with no comparison against its
    size.  The old chunks keep size and bytes; their offsets are
    padded. *)
Theorem arena_alloc_grows fuel arena num_bytes k flags st l new rest :
  arena ≠ 0 → 0 <= k < 63 → 0 < num_bytes →
  num_bytes + 2 * 2 ^ k <= half - DEFAULT_CHUNK_SIZE - sizeof_chunk →
  arena_wf st arena l → l ≠ [] → (length l ≤ fuel)%nat →
  let alloc_size := ROUND_UP num_bytes (2 ^ k) in
  let chunk_size := ROUND_UP_DEFAULT alloc_size in
  let pad := fixup new (mkChunk 0 chunk_size 0 (zeros chunk_size)) (2 ^ k) in
  (∀ q cq, q ∈ l → chunks st !! q = Some cq →
     sint (ch_size cq - fixup q cq (2 ^ k)) < alloc_size) →
  os st = Mapped new :: rest → new ≠ 0 → chunks st !! new = None →
  ∃ st', arena_alloc fuel arena num_bytes (2 ^ k) flags st = Ret (data_addr new pad) st' ∧
    arena_wf st' arena (l ++ [new]) ∧ os st' = rest ∧
    chunks st' !! new =
      Some (mkChunk 0 chunk_size (pad + alloc_size) (zeros chunk_size)) ∧
    (∀ q cq, q ∈ l → chunks st !! q = Some cq →
       ∃ c', chunks st' !! q = Some c' ∧ ch_offset c' = fixup q cq (2 ^ k) ∧
             ch_size c' = ch_size cq ∧ ch_data c' = ch_data cq) ∧
    (∀ q, q ∉ l → q ≠ new → chunks st' !! q = chunks st !! q).
Proof.
  intros Hnz Hk Hn Hrange Hwf Hne Hf alloc_size chunk_size pad Hfull Hos Hnew Hfresh.
  pose proof Hwf as (ar & Har & Hch & Ht).
  pose proof (pow2_ptrdiff k Hk) as Hp. pose proof half_eq as Hhalf.
  change DEFAULT_CHUNK_SIZE with 4194304 in *. unfold sizeof_chunk in Hrange.
  pose proof (ROUND_UP_bounds num_bytes k Hk) as Hsz.
  specialize (Hsz ltac:(lia) ltac:(lia)).
  fold alloc_size in Hsz.
  destruct (ROUND_UP_DEFAULT_bounds alloc_size) as [Hcs _].
  { change DEFAULT_CHUNK_SIZE with 4194304. lia. }
  fold chunk_size in Hcs. change DEFAULT_CHUNK_SIZE with 4194304 in Hcs.
  set (c0 := mkChunk 0 chunk_size 0 (zeros chunk_size)) in *.
  pose proof (fixup_bounds k new c0 Hk) as Hpad. simpl in Hpad. fold pad in Hpad.
  specialize (Hpad ltac:(lia) ltac:(lia)).
  pose proof (chain_last_elem l Hne) as Hlast. rewrite <- Ht in Hlast.
  destruct (chain_mapped _ _ _ _ Hch Hlast) as [Htl [t0 Ht0]].
  assert (new ∉ l) as Hnl.
  { intros Hin. destruct (chain_mapped _ _ _ _ Hch Hin) as [_ [? ?]]. congruence. }
  assert (num_bytes ≠ 0) as Hn0 by lia.
  rewrite (arena_alloc_nonempty _ _ _ _ _ _ ar); [|by apply arena_alloc_accepts|done..].
  fold alloc_size chunk_size.
  destruct (alloc_scan_exhausted (2 ^ k) alloc_size l fuel st (ar_head ar) Hch Hf Hfull)
    as (s1 & Hscan & Har1 & Hos1 & Hpadded & Hrest).
  unfold alloc_find.
  rewrite (bind_run _ _ _ _ _ (load_arena_run _ _ _ Hnz Har)).
  rewrite (bind_run _ _ _ _ _ Hscan).
  assert (alloc_chunk chunk_size flags s1 =
          Ret new (mkState (arenas s1) (<[new := c0]> (chunks s1)) rest (leaked s1))) as Hrun.
  { apply alloc_chunk_run; [unfold sizeof_chunk; lia|congruence|done]. }
  set (t := set_offset t0 (fixup (ar_tail ar) t0 (2 ^ k))).
  assert (chunks s1 !! ar_tail ar = Some t) as Ht1 by (by apply Hpadded).
  assert (ar_tail ar ≠ new) as Htn by (intros E; by rewrite E in Hlast).
  rewrite (alloc_grow_run arena alloc_size chunk_size (2 ^ k) flags s1 new _ ar t Hrun);
    [|done|done|by rewrite Har1|done|by rewrite lookup_insert_ne].
  fold c0 pad. rewrite sint_small by (unfold is_ptrdiff; lia).
  eexists. split; [done|]. simpl.
  assert (chain (chunks s1) (ar_head ar) l) as Hch1.
  { apply (chain_frame_rel (λ _ c c', ch_next c' = ch_next c) st s1); [done| |done].
    split; [done|]. intros q. destruct (decide (q ∈ l)) as [Hq|Hq].
    - destruct (chain_mapped _ _ _ _ Hch Hq) as [_ [cq Hcq]].
      by rewrite Hcq, (Hpadded q cq Hq Hcq).
    - rewrite (Hrest q Hq). by destruct (chunks st !! q). }
  repeat split.
  - exists (mkArena (ar_head ar) new). simpl. rewrite lookup_insert_eq. split; [done|].
    simpl. rewrite chain_last_snoc. split; [|done].
    rewrite Ht. apply chain_snoc; try done. by rewrite <- Ht.
  - by rewrite lookup_insert_ne, lookup_insert_eq.
  - intros q cq Hq Hcq. pose proof (Hpadded q cq Hq Hcq) as Hq1.
    assert (q ≠ new) by (by intros ->).
    destruct (decide (q = ar_tail ar)) as [->|Hqt].
    + rewrite lookup_insert_eq. eexists. split; [done|].
      assert (t0 = cq) as -> by congruence. done.
    + rewrite !lookup_insert_ne by done. rewrite Hq1. eexists. split; [done|]. done.
  - intros q Hq Hqn. rewrite !lookup_insert_ne; [by apply Hrest|done|].
    intros <-. done.
Qed.

Lemma arena_alloc_grows_witness :
  let alloc_size := ROUND_UP 64 (2 ^ 0) in
  let chunk_size := ROUND_UP_DEFAULT alloc_size in
  let pad := fixup 12288 (mkChunk 0 chunk_size 0 (zeros chunk_size)) (2 ^ 0) in
  ∃ st', arena_alloc 2 100 64 (2 ^ 0) 0 small_state = Ret (data_addr 12288 pad) st' ∧
    arena_wf st' 100 ([4096; 8192] ++ [12288]) ∧ os st' = [Mapped 16384; MapFails] ∧
    chunks st' !! 12288 =
      Some (mkChunk 0 chunk_size (pad + alloc_size) (zeros chunk_size)) ∧
    (∀ q cq, q ∈ [4096; 8192] → chunks small_state !! q = Some cq →
       ∃ c', chunks st' !! q = Some c' ∧ ch_offset c' = fixup q cq (2 ^ 0) ∧
             ch_size c' = ch_size cq ∧ ch_data c' = ch_data cq) ∧
    (∀ q, q ∉ [4096; 8192] → q ≠ 12288 → chunks st' !! q = chunks small_state !! q).
Proof.
  apply (arena_alloc_grows 2 100 64 0 0 small_state [4096; 8192] 12288
           [Mapped 16384; MapFails]).
  - lia.
  - lia.
  - lia.
  - vm_compute. done.
  - apply small_state_wf.
  - done.
  - simpl. lia.
  - each_chunk; vm_compute; reflexivity.
  - reflexivity.
  - lia.
  - reflexivity.
Defined.


(** ** Allocate always returns *)

Lemma alloc_find_total fuel arena alloc_size chunk_size al flags st l :
  arena ≠ 0 → arena_wf st arena l → l ≠ [] → (length l ≤ fuel)%nat →
  flag_set flags SOFTFAIL = true → (∀ a, Mapped a ∈ os st → a ≠ 0) →
  ∃ a st', alloc_find fuel arena alloc_size chunk_size al flags st = Ret a st'.
Proof.
  intros Hnz Hwf Hne Hf Hsoft Hos. pose proof Hwf as (ar & Har & Hch & Ht).
  destruct (arena_wf_tail _ _ _ _ Hwf Har) as [Hempty Htail].
  destruct (Z.eq_dec (ar_tail ar) 0) as [E|Htl]; [by destruct (Hempty E)|].
  destruct (Htail Htl) as [_ [t0 Ht0]].
  unfold alloc_find.
  rewrite (bind_run _ _ _ _ _ (load_arena_run _ _ _ Hnz Har)).
  destruct (alloc_scan_total al alloc_size l fuel st (ar_head ar) Hch Hf) as (r & s1 & Hscan).
  rewrite (bind_run _ _ _ _ _ Hscan).
  destruct r as [start|]; [eauto|].
  apply alloc_scan_frame in Hscan as [Hfr Hos1].
  destruct (frame_rel_lookup _ _ _ _ _ Hfr Ht0) as (t1 & Ht1 & _).
  destruct Hfr as [Har1 _].
  destruct (alloc_chunk_total chunk_size flags s1 Hsoft) as (new & s2 & Hnew);
    [by rewrite Hos1|].
  destruct (Z.eq_dec new 0) as [->|Hnew0].
  { unfold alloc_grow. rewrite (bind_run _ _ _ _ _ Hnew). simpl. eauto. }
  set (h1 := <[new := set_offset (mkChunk 0 chunk_size 0 (zeros chunk_size))
                        (sint (fixup new (mkChunk 0 chunk_size 0 (zeros chunk_size)) al
                               + alloc_size))]> (chunks s1)).
  assert (is_Some (h1 !! ar_tail ar)) as [t Ht'].
  { unfold h1. rewrite lookup_insert_is_Some. destruct (decide (new = ar_tail ar)); eauto. }
  erewrite (alloc_grow_run arena alloc_size chunk_size al flags s1 new s2 ar t);
    [eauto|done..|by rewrite Har1|done|done].
Qed.

(** X11. [arena_alloc] returns.  On a well-formed arena, with one unit
    of fuel more than the chain has chunks, with [SOFTFAIL] set and an OS
    that maps nothing at null, the call returns for all arguments and all
    answers of the OS: no null or dangling pointer is dereferenced, no
    assertion fails and the scan terminates. *)
Theorem arena_alloc_returns fuel arena num_bytes alignment flags st l :
  arena_wf st arena l → (length l < fuel)%nat →
  flag_set flags SOFTFAIL = true → (∀ a, Mapped a ∈ os st → a ≠ 0) →
  ∃ a st', arena_alloc fuel arena num_bytes alignment flags st = Ret a st'.
Proof.
  intros Hwf Hf Hsoft Hos.
  destruct ((arena =? 0) || (num_bytes =? 0) || (alignment =? 0)
            || negb (Z.land alignment (sint (alignment - 1)) =? 0)) eqn:Hchk.
  { unfold arena_alloc. rewrite Hchk. eauto. }
  assert (arena ≠ 0) as Hnz by (by destruct (Z.eqb_spec arena 0)).
  pose proof Hwf as (ar & Har & Hch & Ht).
  destruct (arena_wf_tail _ _ _ _ Hwf Har) as [Hempty Htail].
  destruct (Z.eq_dec (ar_tail ar) 0) as [E|Htl].
  - destruct (Hempty E) as [-> Hhead]. destruct ar as [hd tl]. simpl in *. subst.
    set (chunk_size := ROUND_UP_DEFAULT (ROUND_UP num_bytes alignment)).
    destruct (alloc_chunk_total chunk_size flags st Hsoft Hos) as (new & s1 & Hnew).
    destruct (Z.eq_dec new 0) as [->|Hnew0].
    { unfold arena_alloc. rewrite Hchk.
      rewrite (bind_run _ _ _ _ _ (load_arena_run _ _ _ Hnz Har)). simpl.
      rewrite (bind_run _ _ _ tt st) by done.
      fold chunk_size. rewrite (bind_run _ _ _ _ _ Hnew). simpl. eauto. }
    rewrite (arena_alloc_empty _ _ _ _ _ _ new s1 Hchk Hnz Har Hnew Hnew0).
    apply alloc_chunk_inv in Hnew as [(-> & _)|(_ & Hos1 & Ha & Hc)]; [done|].
    apply (alloc_find_total _ _ _ _ _ _ _ [new]); [done| |done|simpl in *; lia|done|].
    + exists (mkArena new new). simpl. rewrite lookup_insert_eq. split; [done|].
      split; [|done]. repeat split; [done|]. eexists.
      rewrite Hc, lookup_insert_eq. split; [done|]. done.
    + intros a Ha'. apply Hos. rewrite Hos1. by right.
  - rewrite (arena_alloc_nonempty _ _ _ _ _ _ ar Hchk Hnz Har Htl).
    destruct (Htail Htl) as [Hne _].
    apply (alloc_find_total _ _ _ _ _ _ _ l); [done..|lia|done|done].
Qed.

Lemma arena_alloc_returns_witness :
  ∃ a st', arena_alloc 3 100 64 1 SOFTFAIL small_state = Ret a st'.
Proof.
  apply (arena_alloc_returns 3 100 64 1 SOFTFAIL small_state [4096; 8192]).
  - apply small_state_wf.
  - simpl. lia.
  - reflexivity.
  - intros a Ha. by apply (os_sound_nonzero small_state a small_state_sound).
Defined.


(** ** The chain is an invariant of Allocate *)

Lemma alloc_find_preserves_wf fuel arena alloc_size chunk_size al flags st l a st' :
  arena_wf st arena l → l ≠ [] → os_sound st →
  alloc_find fuel arena alloc_size chunk_size al flags st = Ret a st' →
  ∃ news, arena_wf st' arena (l ++ news) ∧ os_sound st' ∧
          (length news ≤ 1)%nat ∧ ∀ q, q ∈ news → Mapped q ∈ os st.
Proof.
  intros Hwf Hne Hsound H. pose proof Hwf as (ar & Har & Hch & Ht).
  destruct (arena_wf_tail _ _ _ _ Hwf Har) as [Hempty Htail].
  destruct (Z.eq_dec (ar_tail ar) 0) as [E|Htl]; [by destruct (Hempty E)|].
  destruct (Htail Htl) as [_ [t0 Ht0]].
  unfold alloc_find in H. step H as ar' s0 H0. inv_prim.
  assert (ar' = ar) as -> by congruence.
  step H as r s1 Hscan. apply alloc_scan_frame in Hscan as [Hfr Hos1].
  assert (chain (chunks s1) (ar_head ar) l) as Hch1.
  { apply (chain_frame_rel (padded al r) st s1); [|done..].
    by intros q c c' [[Hn _] _]. }
  assert (os_sound s1) as Hsound1.
  { apply (os_sound_same st); [done..|]. intros q.
    by apply (frame_rel_None (padded al r)). }
  destruct (frame_rel_lookup _ _ _ _ _ Hfr Ht0) as (t1 & Ht1 & _).
  destruct Hfr as [Har1 _].
  assert (arena_wf s1 arena l) as Hwf1 by (exists ar; by rewrite Har1).
  destruct r as [start|].
  { inv_prim. exists []. rewrite app_nil_r. split; [done|]. split; [done|]. split; [simpl; lia|].
    intros q Hq. by apply not_elem_of_nil in Hq. }
  apply alloc_grow_inv in H as [(-> & Ha & Hc & Ho)|(new & ar' & t & Hgrow)].
  - exists []. rewrite app_nil_r. split; [|split; [|split]].
    + exists ar. by rewrite Ha, Hc, Har1.
    + destruct Ho as [Ho|(r & Ho & Hr)].
      * apply (os_sound_same s1); [done..|]. by rewrite Hc.
      * apply (os_sound_failure s1 st' r); [done..|]. by rewrite Hc.
    + simpl; lia.
    + intros q Hq. by apply not_elem_of_nil in Hq.
  - simpl in Hgrow. destruct Hgrow as (Hnew & Ho & Har' & _ & Ht' & Hc & Ha).
    assert (ar' = ar) as -> by congruence.
    destruct (os_sound_next _ _ _ Hsound1 Ho) as [_ Hfresh].
    assert (ar_tail ar ≠ new) as Htn by (intros E; congruence).
    rewrite lookup_insert_ne in Ht' by done.
    assert (t = t1) as -> by congruence.
    assert (new ∉ l) as Hnl.
    { intros Hin. destruct (chain_mapped _ _ _ _ Hch1 Hin) as [_ [? ?]]. congruence. }
    exists [new]. split; [|split; [|split]].
    + exists (mkArena (ar_head ar) new). rewrite Ha, lookup_insert_eq.
      split; [done|]. simpl. rewrite chain_last_snoc. split; [|done].
      rewrite Hc, Ht. apply chain_snoc; try done. by rewrite <- Ht.
    + apply (os_sound_mapped s1 st' new); [done..|].
      intros q Hq Hnone. rewrite Hc.
      rewrite !lookup_insert_ne; [done|done|]. intros <-. congruence.
    + simpl; lia.
    + intros q Hq. apply list_elem_of_singleton in Hq as ->.
      rewrite <- Hos1, Ho. left.
Qed.

Lemma arena_alloc_chain_grows fuel arena num_bytes alignment flags st l a st' :
  arena_wf st arena l → os_sound st →
  arena_alloc fuel arena num_bytes alignment flags st = Ret a st' →
  ∃ news, arena_wf st' arena (l ++ news) ∧ os_sound st' ∧
          (length news ≤ 2)%nat ∧ ∀ q, q ∈ news → Mapped q ∈ os st.
Proof.
  intros Hwf Hsound H. pose proof Hwf as (ar & Har & Hch & Ht).
  destruct (arena_wf_tail _ _ _ _ Hwf Har) as [Hempty Htail].
  unfold arena_alloc in H. destruct (_ || _).
  { inv_prim. exists []. rewrite app_nil_r. split; [done|]. split; [done|]. split; [simpl; lia|].
    intros q Hq. by apply not_elem_of_nil in Hq. }
  step H as ar' s0 H0. inv_prim. assert (ar' = ar) as -> by congruence.
  destruct (Z.eqb_spec (ar_tail ar) 0) as [E|Htl].
  - destruct (Hempty E) as [-> Hhead].
    step H as u1 s1 H1. inv_prim. step H as new s2 Hnew.
    apply alloc_chunk_inv in Hnew as [(-> & Ha & Hc & Ho)|(Hnew & Ho & Ha & Hc)].
    + simpl in H. inv_prim. exists []. split; [|split; [|split]].
      * exists ar. by rewrite Ha, Hc.
      * destruct Ho as [Ho|(r & Ho & Hr)].
        -- apply (os_sound_same st); [done..|]. by rewrite Hc.
        -- apply (os_sound_failure st _ r); [done..|]. by rewrite Hc.
      * simpl; lia.
      * intros q Hq. by apply not_elem_of_nil in Hq.
    + destruct (Z.eqb_spec new 0); [done|].
      step H as u3 s3 H3. inv_prim. step H as ar3 s4 H4. inv_prim.
      step H as u5 s5 H5. inv_prim. simpl in *.
      rewrite lookup_insert_eq in Har1. simplify_eq. simpl in *.
      rewrite insert_insert_eq in H.
      destruct (os_sound_next _ _ _ Hsound Ho) as [_ Hfresh].
      apply (alloc_find_preserves_wf _ _ _ _ _ _ _ [new]) in H
        as (news & Hwf' & Hsound' & Hlen & Hin); [| |done|].
      * exists (new :: news). split; [done|]. split; [done|]. split; [simpl; lia|].
        intros q Hq. rewrite Ho. apply elem_of_cons in Hq as [->|Hq]; [left|].
        right. by apply Hin.
      * exists (mkArena new new). simpl. rewrite lookup_insert_eq. split; [done|].
        split; [|done]. repeat split; [done|]. eexists.
        rewrite Hc, lookup_insert_eq. split; [done|]. done.
      * apply (os_sound_mapped st _ new); [done..|].
        intros q Hq Hnone. simpl. rewrite Hc. by rewrite lookup_insert_ne.
  - destruct (Htail Htl) as [Hne _].
    apply (alloc_find_preserves_wf _ _ _ _ _ _ _ l) in H
      as (news & Hwf' & Hsound' & Hlen & Hin); [|done..].
    exists news. split; [done|]. split; [done|]. split; [lia|done].
Qed.

(** X12. The chain of the arena is an invariant of [arena_alloc].
    Whatever the arguments and whatever the OS answers, when the call
    returns on a well-formed arena the arena is well-formed again: head
    and tail are the ends of a chain of mapped chunks.  The chain is the
    old one with at most two chunks added at its end (two when the first
    chunk of an empty arena cannot hold the padded request), each at an
    address that the OS had to hand out; no chunk ever leaves the chain.
    The OS is assumed to hand out addresses that are not in use. *)
Theorem arena_alloc_preserves_wf fuel arena num_bytes alignment flags st l a st' :
  arena_wf st arena l → os_sound st →
  arena_alloc fuel arena num_bytes alignment flags st = Ret a st' →
  ∃ news, arena_wf st' arena (l ++ news) ∧ os_sound st' ∧
          (length news ≤ 2)%nat ∧ ∀ q, q ∈ news → Mapped q ∈ os st.
Proof. apply arena_alloc_chain_grows. Qed.


Lemma arena_alloc_preserves_wf_witness :
  ∃ news,
    arena_wf (final (arena_alloc 2 100 64 1 0) small_state) 100 ([4096; 8192] ++ news) ∧
    os_sound (final (arena_alloc 2 100 64 1 0) small_state) ∧
    (length news ≤ 2)%nat ∧ ∀ q, q ∈ news → Mapped q ∈ os small_state.
Proof.
  apply (arena_alloc_preserves_wf 2 100 64 1 0 small_state [4096; 8192] 12312).
  - apply small_state_wf.
  - apply small_state_sound.
  - apply ret_value_final. vm_compute. reflexivity.
Defined.


(** ** Blocks served from a chunk of the chain *)

Lemma pad_safe_intro k st :
  0 <= k < 63 →
  (∀ p c, chunks st !! p = Some c →
     0 <= ch_size c < half ∧ 0 <= ch_offset c ∧ ch_offset c + 2 ^ k < half) →
  pad_safe k st.
Proof.
  intros Hk H p c Hc. destruct (H p c Hc) as (Hs & Ho & Hlt).
  pose proof (fixup_bounds k p c Hk ltac:(pose proof half_eq; lia) Hlt). lia.
Qed.

Lemma fixup_idempotent k p c :
  0 <= k < 63 → fixup p (set_offset c (fixup p c (2 ^ k))) (2 ^ k) = fixup p c (2 ^ k).
Proof.
  intros Hk. pose proof (pow2_ptrdiff k Hk) as Hp.
  apply (fixup_aligned_id (2 ^ k) p (set_offset c (fixup p c (2 ^ k)))). simpl.
  rewrite uint_small by (rewrite modulus_eq, half_eq in *; lia).
  by apply fixup_aligned.
Qed.

Lemma pad_safe_put k st p c :
  0 <= k < 63 → pad_safe k st → chunks st !! p = Some c →
  pad_safe k (put_chunk st p (set_offset c (fixup p c (2 ^ k)))).
Proof.
  intros Hk Hsafe Hc q cq. simpl. destruct (decide (q = p)) as [->|Hq].
  - rewrite lookup_insert_eq. intros [= <-].
    rewrite fixup_idempotent by done. simpl.
    destruct (Hsafe p c Hc) as (? & ? & ? & ?).
    pose proof (pow2_ptrdiff k Hk). lia.
  - rewrite lookup_insert_ne by done. apply Hsafe.
Qed.

Lemma alloc_scan_block_in_capacity k alloc_size fuel : ∀ cursor st a st',
  0 <= k < 63 → 0 <= alloc_size → pad_safe k st →
  alloc_scan fuel cursor alloc_size (2 ^ k) st = Ret (Some a) st' →
  ∃ p c c' o, chunks st !! p = Some c ∧ chunks st' !! p = Some c' ∧
    same_layout c c' ∧ a = data_addr p o ∧
    ch_offset c <= o ∧ o + alloc_size = ch_offset c' ∧ ch_offset c' <= ch_size c.
Proof.
  induction fuel as [|fuel IH]; intros cursor st a st' Hk Hsz Hsafe H.
  - simpl in H. destruct (cursor =? 0); [by inv_prim | done].
  - destruct (Z.eqb_spec cursor 0) as [->|Hnz]; [simpl in H; by inv_prim|].
    apply alloc_scan_step in H as (c & Hc & H); [|done]. simpl in H.
    destruct (Hsafe cursor c Hc) as (Hs & Ho & Hlt & Hhalf).
    pose proof half_eq as Hh.
    destruct (Z.leb_spec alloc_size (sint (ch_size c - fixup cursor c (2 ^ k)))) as [Hfit|_].
    + destruct H as [[= ->] ->].
      rewrite sint_small in Hfit by (unfold is_ptrdiff; lia).
      exists cursor, c, (set_offset c (fixup cursor c (2 ^ k) + alloc_size)),
        (fixup cursor c (2 ^ k)).
      rewrite sint_small by (unfold is_ptrdiff; lia). simpl.
      rewrite lookup_insert_eq. repeat split; try done; lia.
    + apply IH in H as (p & c1 & c' & o & Hc1 & Hc' & Hlay & -> & Hlo & Hhi & Hcap);
        [|done..|by apply pad_safe_put].
      simpl in Hc1. destruct (decide (p = cursor)) as [->|Hp].
      * rewrite lookup_insert_eq in Hc1. injection Hc1 as <-.
        exists cursor, c, c', o. simpl in *.
        repeat split; try done; try lia. all: by destruct Hlay as (? & ? & ?).
      * rewrite lookup_insert_ne in Hc1 by done.
        exists p, c1, c', o. done.
Qed.

Lemma alloc_find_os fuel arena alloc_size chunk_size al flags st a st' :
  alloc_find fuel arena alloc_size chunk_size al flags st = Ret a st' →
  os st' = os st ∨ ∃ r, os st = r :: os st'.
Proof.
  unfold alloc_find. intros H. step H as ar s0 H0. inv_prim.
  step H as r s1 Hscan. apply alloc_scan_frame in Hscan as [_ Hos].
  destruct r as [start|]; [inv_prim; by left|].
  apply alloc_grow_inv in H as [(_ & _ & _ & [Ho|(r & Ho & _)])|(new & ar' & t & Hgrow)].
  - left. congruence.
  - right. exists r. congruence.
  - simpl in Hgrow. destruct Hgrow as (_ & Ho & _). right. exists (Mapped new). congruence.
Qed.

(** X13. A block that [arena_alloc] takes from a chunk of the chain
    (the call returns non-null and has not asked the OS) lies inside the
    capacity of that chunk and behind everything handed out from it
    before: it starts at an offset [o] not below the old offset and ends
    with the new offset, which is at most the size of the chunk; the
    chunk's link, size and bytes are unchanged.  The sizes and offsets
    of the chunks are assumed far enough from [PTRDIFF_MAX] for the
    padding not to wrap. *)
Theorem arena_alloc_reused_block_in_capacity fuel arena num_bytes k flags st a st' :
  0 < num_bytes → 0 <= k < 63 → num_bytes + 2 ^ k < half →
  (∀ p c, chunks st !! p = Some c →
     0 <= ch_size c < half ∧ 0 <= ch_offset c ∧ ch_offset c + 2 ^ k < half) →
  arena_alloc fuel arena num_bytes (2 ^ k) flags st = Ret a st' →
  a ≠ 0 → os st' = os st →
  ∃ p c c' o, chunks st !! p = Some c ∧ chunks st' !! p = Some c' ∧
    same_layout c c' ∧ a = data_addr p o ∧
    ch_offset c <= o ∧ o + num_bytes <= ch_offset c' ∧ ch_offset c' <= ch_size c.
Proof.
  intros Hn Hk Hrange Hchunks H Ha Hos.
  pose proof half_eq as Hh. pose proof (pow2_ptrdiff k Hk) as Hp.
  pose proof (ROUND_UP_bounds num_bytes k Hk) as Hsz.
  specialize (Hsz ltac:(lia) ltac:(lia)).
  assert (∀ s, pad_safe k s →
            alloc_find fuel arena (ROUND_UP num_bytes (2 ^ k))
              (ROUND_UP_DEFAULT (ROUND_UP num_bytes (2 ^ k))) (2 ^ k) flags s = Ret a st' →
            os st' = os s →
            ∃ p c c' o, chunks s !! p = Some c ∧ chunks st' !! p = Some c' ∧
              same_layout c c' ∧ a = data_addr p o ∧
              ch_offset c <= o ∧ o + num_bytes <= ch_offset c' ∧ ch_offset c' <= ch_size c)
    as Hfind.
  { intros s Hsafe Hf Hos'. unfold alloc_find in Hf. step Hf as ar s0 H0. inv_prim.
    step Hf as r s1 Hscan. destruct r as [start|].
    - inv_prim.
      apply alloc_scan_block_in_capacity in Hscan
        as (p & c & c' & o & Hc & Hc' & Hlay & -> & Hlo & Hhi & Hcap); [|done|lia|done].
      exists p, c, c', o. do 4 (split; [done|]). lia.
    - apply alloc_scan_frame in Hscan as [_ Hos1].
      apply alloc_grow_inv in Hf as [(-> & _)|(new & ar' & t & Hgrow)]; [done|].
      simpl in Hgrow. destruct Hgrow as (_ & Ho & _).
      exfalso. apply (app_cons_neq_tail [] (Mapped new) (os st')).
      simpl. congruence. }
  unfold arena_alloc in H. destruct (_ || _); [inv_prim; done|].
  step H as ar s0 H0. inv_prim.
  destruct (Z.eqb_spec (ar_tail ar) 0) as [E|Htl];
    [|by apply (Hfind st); [apply pad_safe_intro|..]].
  exfalso. step H as u1 s1 H1. inv_prim. step H as new s2 Hnew.
  apply alloc_chunk_inv in Hnew as [(-> & _)|(Hnew & Ho & _)]; [simpl in H; by inv_prim|].
  destruct (Z.eqb_spec new 0); [done|].
  step H as u3 s3 H3. inv_prim. step H as ar3 s4 H4. inv_prim.
  step H as u5 s5 H5. inv_prim.
  apply alloc_find_os in H as [Ho'|(r & Ho')]; simpl in Ho'.
  - apply (app_cons_neq_tail [] (Mapped new) (os st')). simpl. congruence.
  - apply (app_cons_neq_tail [Mapped new] r (os st')). simpl. congruence.
Qed.

Lemma arena_alloc_reused_block_in_capacity_witness :
  ∃ p c c' o, chunks small_state !! p = Some c ∧
    chunks (final (arena_alloc 2 100 12 (2 ^ 0) 0) small_state) !! p = Some c' ∧
    same_layout c c' ∧ 8219 = data_addr p o ∧
    ch_offset c <= o ∧ o + 12 <= ch_offset c' ∧ ch_offset c' <= ch_size c.
Proof.
  apply (arena_alloc_reused_block_in_capacity 2 100 12 0 0 small_state 8219).
  - lia.
  - lia.
  - vm_compute. reflexivity.
  - intros p c Hc.
    change (chunks small_state)
      with (<[4096 := small_head]> ({[8192 := small_second]} : gmap Z chunk)) in Hc.
    apply lookup_insert_Some in Hc as [[<- <-]|[_ Hc]]; [vm_compute; done|].
    apply lookup_singleton_Some in Hc as [<- <-]. vm_compute. done.
  - apply ret_value_final. vm_compute. reflexivity.
  - lia.
  - vm_compute. reflexivity.
Defined.


(** * Push *)



Lemma store_bytes_inv dst src n st u st' :
  store_bytes dst src n st = Ret u st' →
  ∃ p c bytes, chunks st !! p = Some c ∧
    memcpy_data (ch_data c) (dst - (p + sizeof_chunk)) src n = Some bytes ∧
    st' = put_chunk st p (set_data c bytes).
Proof.
  unfold store_bytes. intros H.
  destruct (find _ _) as [[p c]|] eqn:Hfind; [|done].
  apply find_some in Hfind as [Hin _].
  apply list_elem_of_In, elem_of_map_to_list in Hin.
  destruct (memcpy_data _ _ _ _) as [bytes|] eqn:Hcpy; [|done].
  injection H as <-. by exists p, c, bytes.
Qed.

(** X14. [arena_push] is [arena_alloc] followed by a copy of the
    buffer.  It returns what [arena_alloc] returns for the same
    arguments.  When that is null the state is the one [arena_alloc]
    left.  Otherwise the state differs from it in the bytes of one chunk
    only, whose data region contains the returned block: the first
    [size] bytes of the buffer now stand at the returned address, the
    bytes before and behind are as they were, and link, size and offset
    of the chunk are unchanged.  A buffer shorter than [size] makes the
    call fault instead of return. *)
Theorem arena_push_stores_buffer fuel arena buffer size alignment flags st a st' :
  0 < size < half →
  arena_push fuel arena (Some buffer) size alignment flags st = Ret a st' →
  ∃ st1, arena_alloc fuel arena size alignment flags st = Ret a st1 ∧
    (a = 0 → st' = st1) ∧
    (a ≠ 0 →
     ∃ p c c', chunks st1 !! p = Some c ∧ st' = put_chunk st1 p c' ∧
       ch_next c' = ch_next c ∧ ch_size c' = ch_size c ∧ ch_offset c' = ch_offset c ∧
       let at_ := a - (p + sizeof_chunk) in
       0 <= at_ ∧ at_ + size <= Z.of_nat (length (ch_data c)) ∧
       size <= Z.of_nat (length buffer) ∧
       ch_data c' = take (Z.to_nat at_) (ch_data c) ++ take (Z.to_nat size) buffer
                      ++ drop (Z.to_nat (at_ + size)) (ch_data c) ∧
       take (Z.to_nat size) (drop (Z.to_nat at_) (ch_data c')) = take (Z.to_nat size) buffer).
Proof.
  intros Hsz H. unfold arena_push in H.
  destruct (Z.eqb_spec arena 0) as [->|Hnz].
  { inv_prim. subst a. by exists st. }
  step H as start s1 Halloc. destruct (Z.eqb_spec start 0) as [->|Hstart].
  { inv_prim. subst a. exists s1. done. }
  step H as u2 s2 Hstore. inv_prim. subst a. exists s1. split; [done|]. split; [done|].
  intros _. apply store_bytes_inv in Hstore as (p & c & bytes & Hc & Hcpy & ->).
  apply memcpy_data_inv in Hcpy as (Hat & Hfit & Hsrc & ->); [|done].
  exists p, c, (set_data c (take (Z.to_nat (start - (p + sizeof_chunk))) (ch_data c) ++
                            take (Z.to_nat size) buffer ++
                            drop (Z.to_nat (start - (p + sizeof_chunk) + size)) (ch_data c))).
  do 5 (split; [done|]). simpl. do 4 (split; [done|]).
  rewrite drop_app_length'; [|rewrite length_take; lia].
  rewrite take_app_length'; [done|]. rewrite length_take. lia.
Qed.

Lemma arena_push_stores_buffer_witness :
  let st' := final (arena_push 2 100 (Some [Byte.x2a; Byte.x2b]) 2 1 0) small_state in
  ∃ st1, arena_alloc 2 100 2 1 0 small_state = Ret 4125 st1 ∧
    (4125 = 0 → st' = st1) ∧
    (4125 ≠ 0 →
     ∃ p c c', chunks st1 !! p = Some c ∧ st' = put_chunk st1 p c' ∧
       ch_next c' = ch_next c ∧ ch_size c' = ch_size c ∧ ch_offset c' = ch_offset c ∧
       let at_ := 4125 - (p + sizeof_chunk) in
       0 <= at_ ∧ at_ + 2 <= Z.of_nat (length (ch_data c)) ∧
       2 <= Z.of_nat (length [Byte.x2a; Byte.x2b]) ∧
       ch_data c' = take (Z.to_nat at_) (ch_data c) ++ take (Z.to_nat 2) [Byte.x2a; Byte.x2b]
                      ++ drop (Z.to_nat (at_ + 2)) (ch_data c) ∧
       take (Z.to_nat 2) (drop (Z.to_nat at_) (ch_data c'))
         = take (Z.to_nat 2) [Byte.x2a; Byte.x2b]).
Proof.
  apply (arena_push_stores_buffer 2 100 [Byte.x2a; Byte.x2b] 2 1 0 small_state 4125).
  - vm_compute. done.
  - apply ret_value_final. vm_compute. reflexivity.
Defined.


(** * CropAndCoalesce *)

(** ** On an arena without live bytes *)

(** C9. When the used size of the arena is 0 (it has no chunk, or all its
    chunks are reset), [arena_crop_and_coalesce] returns the failure
    value 0 and the state, in particular the arena's chain, is exactly as
    before: the acquisition of a chunk of size 0 fails before the OS is
    asked for anything. *)
Theorem crop_and_coalesce_unused_fails fuel arena flags st st1 :
  arena_get_size fuel arena st = Ret 0 st1 →
  arena_crop_and_coalesce fuel arena flags st = Ret 0 st.
Proof.
  intros Hsz. pose proof (arena_get_size_state _ _ _ _ _ Hsz) as ->.
  unfold arena_crop_and_coalesce. destruct (arena =? 0); [done|].
  rewrite (bind_run _ _ _ _ _ Hsz). reflexivity.
Qed.

Lemma crop_and_coalesce_unused_fails_witness :
  arena_crop_and_coalesce 1 100 0 reset_state = Ret 0 reset_state.
Proof.
  apply (crop_and_coalesce_unused_fails 1 100 0 reset_state
           (final (arena_get_size 1 100) reset_state)).
  apply ret_value_final. vm_compute. reflexivity.
Defined.

(** The same in terms of the chain: an arena whose chunks all have offset
    0 (among them the arena with no chunk) has used size 0, enough fuel
    lets [arena_get_size] say so, and the crop fails. *)
Lemma crop_and_coalesce_reset_chain_fails fuel arena flags st ar l :
  arena ≠ 0 → arenas st !! arena = Some ar →
  chain (chunks st) (ar_head ar) l → (length l ≤ fuel)%nat →
  (∀ a c, a ∈ l → chunks st !! a = Some c → ch_offset c = 0) →
  arena_crop_and_coalesce fuel arena flags st = Ret 0 st.
Proof.
  intros Hnz Har Hc Hf Hz.
  pose proof (arena_get_size_chain _ _ _ _ _ Hnz Har Hc Hf) as Hsz.
  rewrite sum_offsets_reset in Hsz by done.
  unfold arena_crop_and_coalesce. destruct (arena =? 0); [done|].
  by rewrite (bind_run _ _ _ _ _ Hsz).
Qed.

Lemma crop_and_coalesce_null fuel flags st :
  arena_crop_and_coalesce fuel 0 flags st = Ret 0 st.
Proof. reflexivity. Qed.

(** ** On an arena with live bytes *)

Lemma crop_loop_chain : ∀ l fuel st cropped p d done k,
  chain (chunks st) p l → cropped ∉ l → cropped ≠ 0 →
  chunks st !! cropped = Some d → ch_data d = done ++ zeros k →
  offsets_in_bounds (chunks st) l → releasable (chunks st) l →
  total_offsets (chunks st) l = k →
  Z.of_nat (length done) + k < half →
  (length l ≤ fuel)%nat →
  ∃ st', crop_loop fuel cropped p (Z.of_nat (length done)) st = Ret tt st' ∧
    arenas st' = arenas st ∧ os st' = os st ∧
    leaked st' = left_mapped (chunks st) l ++ leaked st ∧
    chunks st' !! cropped = Some (set_data d (done ++ live_bytes (chunks st) l)) ∧
    (∀ a, a ∈ l → chunks st' !! a = None) ∧
    (∀ q, q ∉ l → q ≠ cropped → chunks st' !! q = chunks st !! q).
Proof.
  induction l as [|a l IH];
    intros fuel st cropped p d done k Hch Hnin Hnz Hd Hdata Hb Hrel Hk Hlt Hf.
  - simpl in *. subst p k. exists st. split; [by destruct fuel|].
    repeat split; try done.
    + rewrite Hd. f_equal. destruct d; simpl in *. unfold set_data; simpl.
      by rewrite Hdata.
    + intros a Ha. by apply not_elem_of_nil in Ha.
  - pose proof (chain_NoDup _ _ _ Hch) as Hnd. apply NoDup_cons in Hnd as [Hal Hnd].
    simpl in Hch. destruct Hch as (-> & Ha & c & Hc & Hl).
    apply not_elem_of_cons in Hnin as [Hne Hnin].
    destruct fuel as [|fuel]; [simpl in Hf; lia|].
    simpl in Hk. rewrite Hc in Hk.
    pose proof (Hb a c ltac:(left) Hc) as Hoff.
    assert (offsets_in_bounds (chunks st) l) as Hb'
      by (intros q c' Hq; apply Hb; by right).
    pose proof (total_offsets_nonneg _ _ Hb') as Hpos.
    set (n := ch_offset c) in *.
    set (bytes := done ++ take (Z.to_nat n) (ch_data c) ++ zeros (k - n)).
    set (d' := set_data d bytes).
    set (s1 := put_chunk st cropped d').
    set (s2 := unmapped s1 a c (sizeof_pointer + ch_size c)).
    assert (∀ q, q ∈ l → chunks s2 !! q = chunks st !! q) as Hsame.
    { intros q Hq. simpl. rewrite lookup_delete_ne by (intros ->; done).
      rewrite lookup_insert_ne by (intros ->; done). done. }
    destruct (IH fuel s2 cropped (ch_next c) d' (done ++ take (Z.to_nat n) (ch_data c)) (k - n))
      as (st' & Hrun & Har & Hos & Hlk & Hcr & Hgone & Hframe).
    + by apply (chain_frame (chunks st)).
    + done.
    + done.
    + simpl. rewrite lookup_delete_ne by done. apply lookup_insert_eq.
    + simpl. unfold bytes. by rewrite <- app_assoc.
    + intros q c' Hq. rewrite Hsame by done. by apply Hb'.
    + intros q c' Hq. rewrite Hsame by done. apply Hrel. by right.
    + rewrite (total_offsets_frame (chunks st)) by done. lia.
    + rewrite length_app, length_take_le by lia. lia.
    + simpl in Hf. lia.
    + exists st'. split.
      * simpl. destruct (Z.eqb_spec a 0); [done|].
        rewrite (bind_run _ _ _ _ _ (load_chunk_run _ _ _ Ha Hc)).
        rewrite (bind_run _ _ _ _ _ (load_chunk_run _ _ _ Hnz Hd)).
        rewrite Hdata. fold n. rewrite memcpy_data_append by lia.
        fold bytes. fold d'.
        rewrite (bind_run _ _ _ _ _ (store_chunk_run _ d' _ _ Hnz Hd)).
        fold (put_chunk st cropped d'). fold s1.
        assert (chunks s1 !! a = Some c) as Hc1.
        { simpl. by rewrite lookup_insert_ne. }
        rewrite (bind_run _ _ _ _ _ (load_chunk_run _ _ _ Ha Hc1)).
        assert (free_chunk a s1 = Ret tt s2) as Hfree.
        { apply free_chunk_run; [done..|]. apply (Hrel a c); [left|done]. }
        rewrite (bind_run _ _ _ _ _ Hfree). fold n.
        rewrite sint_small by (unfold is_ptrdiff; rewrite half_eq in *; lia).
        rewrite length_app, length_take_le, Nat2Z.inj_add, Z2Nat.id in Hrun by lia.
        done.
      * do 2 (split; [done|]). split; [|split; [|split]].
        -- rewrite Hlk, (left_mapped_frame (chunks st)) by done.
           simpl. rewrite Hc. by rewrite <- app_assoc.
        -- rewrite Hcr. f_equal. unfold d', set_data; simpl. f_equal.
           rewrite (live_bytes_frame (chunks st)) by done.
           simpl. rewrite Hc. by rewrite <- app_assoc.
        -- intros q Hq. apply elem_of_cons in Hq as [->|Hq]; [|by apply Hgone].
           rewrite Hframe by done. simpl. apply lookup_delete_eq.
        -- intros q Hq Hqc. apply not_elem_of_cons in Hq as [Hqa Hq].
           rewrite Hframe by done. simpl.
           rewrite lookup_delete_ne by done. by rewrite lookup_insert_ne.
Qed.

(** X15. What [arena_crop_and_coalesce] does on a well-formed arena with live
    bytes when the OS maps the new chunk and every old chunk records a
    size that [free_chunk] can release: more than -8, within the address
    space and within the mapping of the chunk ([free_chunk] fails its
    [assert] on a size of -8 or less, lemma [free_chunk_refused]).
    The arena becomes the single new chunk, whose data is exactly the
    live bytes of the old chain in chain order and whose address plus
    header size is returned; the header page of every old chunk is
    unmapped, and what [free_chunk] leaves mapped of them, the last page
    of a chunk whose length is a page short, is lost.  The offset of the
    new chunk, however, is left at 0, so [arena_get_size] is [total]
    before the call and 0 after it. *)
Lemma arena_crop_and_coalesce_spec fuel arena flags st ar l new rest :
  arena ≠ 0 → arenas st !! arena = Some ar →
  chain (chunks st) (ar_head ar) l → (length l ≤ fuel)%nat →
  offsets_in_bounds (chunks st) l → releasable (chunks st) l →
  let total := total_offsets (chunks st) l in
  0 < total < half - sizeof_chunk →
  os st = Mapped new :: rest → new ≠ 0 → chunks st !! new = None →
  ∃ st', arena_crop_and_coalesce fuel arena flags st = Ret (data_addr new 0) st' ∧
    arena_get_size fuel arena st = Ret total st ∧
    arenas st' !! arena = Some (mkArena new new) ∧
    chunks st' !! new = Some (mkChunk 0 total 0 (live_bytes (chunks st) l)) ∧
    (∀ a, a ∈ l → chunks st' !! a = None) ∧
    leaked st' = left_mapped (chunks st) l ++ leaked st ∧
    arena_get_size 1 arena st' = Ret 0 st'.
Proof.
  intros Hnz Har Hch Hf Hb Hrel total Htot Hos Hnew Hfresh.
  assert (arena_get_size fuel arena st = Ret total st) as Hsz.
  { rewrite (arena_get_size_chain _ _ _ _ _ Hnz Har Hch Hf). f_equal.
    rewrite sum_offsets_exact; [done..|lia|unfold sizeof_chunk in *; lia]. }
  set (d := mkChunk 0 total 0 (zeros total)).
  set (s1 := mkState (arenas st) (<[new := d]> (chunks st)) rest (leaked st)).
  assert (new ∉ l) as Hnin.
  { intros Hin. apply list_elem_of_split in Hin as (l1 & l2 & ->).
    pose proof (chain_suffix _ _ _ _ _ _ Hch eq_refl) as (_ & _ & c & Hc & _).
    congruence. }
  assert (∀ q, q ∈ l → chunks s1 !! q = chunks st !! q) as Hsame.
  { intros q Hq. simpl. apply lookup_insert_ne. by intros ->. }
  destruct (crop_loop_chain l fuel s1 new (ar_head ar) d [] total)
    as (s2 & Hrun & Har2 & Hos2 & Hlk2 & Hcr & Hgone & Hframe).
  { by apply (chain_frame (chunks st)). }
  { done. } { done. } { apply lookup_insert_eq. } { done. }
  { intros q c Hq. rewrite Hsame by done. by apply Hb. }
  { intros q c Hq. rewrite Hsame by done. by apply Hrel. }
  { by apply total_offsets_frame. }
  { simpl. unfold sizeof_chunk in *. lia. }
  { done. }
  simpl in Hrun, Hcr. rewrite (live_bytes_frame (chunks st)) in Hcr by done.
  set (s3 := set_arenas s2 (<[arena := mkArena new (ar_tail ar)]> (arenas s2))).
  set (s4 := set_arenas s3 (<[arena := mkArena new new]> (arenas s3))).
  exists s4. split; [|split; [done|]].
  - unfold arena_crop_and_coalesce. destruct (Z.eqb_spec arena 0); [done|].
    rewrite (bind_run _ _ _ _ _ Hsz).
    rewrite (bind_run _ _ _ _ _ (alloc_chunk_run _ flags _ _ _ Htot Hos Hnew)).
    fold d. fold s1. destruct (Z.eqb_spec new 0); [done|].
    assert (arenas s1 !! arena = Some ar) as Har1 by done.
    rewrite (bind_run _ _ _ _ _ (load_arena_run _ _ _ Hnz Har1)).
    rewrite (bind_run _ _ _ _ _ Hrun).
    assert (arenas s2 !! arena = Some ar) as Har2' by (by rewrite Har2).
    rewrite (bind_run _ _ _ _ _ (load_arena_run _ _ _ Hnz Har2')).
    rewrite (bind_run _ _ _ _ _ (store_arena_run _ (mkArena new (ar_tail ar)) _ _ Hnz Har2')).
    fold s3.
    assert (arenas s3 !! arena = Some (mkArena new (ar_tail ar))) as Har3
      by apply lookup_insert_eq.
    rewrite (bind_run _ _ _ _ _ (load_arena_run _ _ _ Hnz Har3)).
    rewrite (bind_run _ _ _ _ _ (store_arena_run _ (mkArena new new) _ _ Hnz Har3)).
    done.
  - assert (arenas s4 !! arena = Some (mkArena new new)) as Har4
      by apply lookup_insert_eq.
    assert (chunks s4 !! new = Some (mkChunk 0 total 0 (live_bytes (chunks st) l)))
      as Hc4. { simpl. rewrite Hcr. done. }
    do 2 (split; [done|]). split; [|split].
    + intros a Ha. simpl. by apply Hgone.
    + simpl. rewrite Hlk2. f_equal. by apply left_mapped_frame.
    + unfold arena_get_size. destruct (Z.eqb_spec arena 0); [done|].
      rewrite (bind_run _ _ _ _ _ (load_arena_run _ _ _ Hnz Har4)). simpl.
      destruct (Z.eqb_spec new 0); [done|].
      rewrite (bind_run _ _ _ _ _ (load_chunk_run _ _ _ Hnew Hc4)). done.
Qed.

Lemma arena_crop_and_coalesce_spec_witness :
  let total := total_offsets (chunks small_state) [4096; 8192] in
  ∃ st', arena_crop_and_coalesce 2 100 0 small_state = Ret (data_addr 12288 0) st' ∧
    arena_get_size 2 100 small_state = Ret total small_state ∧
    arenas st' !! 100 = Some (mkArena 12288 12288) ∧
    chunks st' !! 12288
      = Some (mkChunk 0 total 0 (live_bytes (chunks small_state) [4096; 8192])) ∧
    (∀ a, a ∈ [4096; 8192] → chunks st' !! a = None) ∧
    leaked st' = left_mapped (chunks small_state) [4096; 8192] ++ leaked small_state ∧
    arena_get_size 1 100 st' = Ret 0 st'.
Proof.
  apply (arena_crop_and_coalesce_spec 2 100 0 small_state (mkArena 4096 8192)
           [4096; 8192] 12288 [Mapped 16384; MapFails]).
  - lia.
  - reflexivity.
  - apply chainb_spec. vm_compute. reflexivity.
  - simpl. lia.
  - each_chunk; vm_compute; done.
  - each_chunk; vm_compute; done.
  - vm_compute. done.
  - reflexivity.
  - lia.
  - reflexivity.
Defined.

(** C1 on a concrete arena.  The int 42 and two more bytes have been
    pushed, 6 bytes are in use.  [arena_crop_and_coalesce] succeeds: the
    arena becomes a single new chunk of size 6 (head = tail), the old
    chunk is unmapped, the returned address is the start of the new
    chunk's data, and that data is the six bytes in the order they were
    pushed.  But the offset of the new chunk is still 0, so
    [arena_get_size] then reports 0 bytes in use instead of 6. *)
Theorem crop_and_coalesce_forgets_used_size :
  let crop := arena_crop_and_coalesce 1 100 0 in
  value (arena_get_size 1 100) pushed_state = Some 6 ∧
  observe crop pushed_state [100] [16777216; 65536]
    = Some (16777216 + sizeof_chunk,
            [Some (mkArena 16777216 16777216)], [Some (0, 6, 0); None]) ∧
  ch_data <$> chunks (final crop pushed_state) !! 16777216
    = Some [Byte.x2a; Byte.x00; Byte.x00; Byte.x00; Byte.x01; Byte.x02] ∧
  value (crop;; arena_get_size 1 100) pushed_state = Some 0.
Proof. repeat apply conj; vm_compute; reflexivity. Qed.

(** * Copy *)

(** ** The source is only read *)

Lemma copy_chunk_arenas new s st u st' :
  copy_chunk new s st = Ret u st' → arenas st' = arenas st ∧ os st' = os st.
Proof.
  unfold copy_chunk. intros H.
  step H as c1 s1 H1. inv_prim. step H as u2 s2 H2. inv_prim.
  step H as c3 s3 H3. inv_prim. step H as u4 s4 H4. inv_prim.
  step H as c5 s5 H5. inv_prim. step H as n s6 H6. inv_prim.
  destruct (memcpy_data _ _ _ _) as [bytes|]; [|done]. by inv_prim.
Qed.

Section CopyFrame.

Variable h0 : gmap Z chunk.
Variable src : Z.
Variable a0 : option arena.

Local Abbreviation inv := (copy_inv h0 src a0).

Lemma copy_inv_put st p c :
  inv st → h0 !! p = None → (ch_next c ≠ 0 → h0 !! ch_next c = None) →
  inv (put_chunk st p c).
Proof.
  intros (Ha & H1 & H2 & H3) Hp Hc. repeat split; simpl; try done.
  - intros q d Hq. rewrite lookup_insert_ne; [eauto|]. congruence.
  - intros q d Hq. destruct (decide (p = q)) as [->|Hne].
    + rewrite lookup_insert_eq. intros [= <-]. done.
    + rewrite lookup_insert_ne by done. eauto.
Qed.

Lemma copy_inv_delete st p c len :
  inv st → h0 !! p = None → inv (unmapped st p c len).
Proof.
  intros (Ha & H1 & H2 & H3) Hp. repeat split; simpl; try done.
  - intros q d Hq. rewrite lookup_delete_ne; [eauto|]. congruence.
  - intros q d Hq. rewrite lookup_delete_Some. intros [_ Hd]. eauto.
Qed.

Lemma copy_inv_arena st dst a :
  inv st → dst ≠ src → inv (set_arenas st (<[dst := a]> (arenas st))).
Proof.
  intros (Ha & H1 & H2 & H3) Hne. repeat split; simpl; try done.
  by rewrite lookup_insert_ne.
Qed.

Lemma copy_inv_next st p c :
  inv st → h0 !! p = None → chunks st !! p = Some c →
  ch_next c ≠ 0 → h0 !! ch_next c = None.
Proof. intros (_ & _ & H2 & _). eauto. Qed.

Lemma copy_inv_store_field st p upd v u st' :
  inv st → h0 !! p = None → (∀ c, ch_next (upd c v) = ch_next c) →
  store_field p upd v st = Ret u st' → inv st'.
Proof.
  intros Hinv Hp Hupd H. inv_prim. apply copy_inv_put; [done..|].
  rewrite Hupd. by eapply copy_inv_next.
Qed.

Lemma copy_inv_alloc_chunk st size flags a st' :
  inv st → alloc_chunk size flags st = Ret a st' →
  inv st' ∧ (a = 0 ∨ (h0 !! a = None ∧ a ≠ 0)).
Proof.
  intros (Ha & H1 & H2 & H3) H.
  apply alloc_chunk_inv in H as [(-> & Ea & Ec & Eo)|(Hnz & Eo & Ea & Ec)].
  - split; [|by left]. unfold copy_inv. rewrite Ea, Ec. repeat split; try done.
    intros a Hin. apply H3.
    destruct Eo as [Eo|(r & Eo & _)]; [by rewrite <- Eo | rewrite Eo; by right].
  - assert (h0 !! a = None) by (apply H3; rewrite Eo; left).
    split; [|by right]. unfold copy_inv. rewrite Ea, Ec. repeat split; try done.
    + intros q d Hq. rewrite lookup_insert_ne; [eauto|]. congruence.
    + intros q d Hq. destruct (decide (a = q)) as [->|Hne].
      * rewrite lookup_insert_eq. by intros [= <-].
      * rewrite lookup_insert_ne by done. eauto.
    + intros b Hin. apply H3. rewrite Eo. by right.
Qed.

Lemma copy_inv_copy_chunk st new s u st' :
  inv st → h0 !! new = None → copy_chunk new s st = Ret u st' → inv st'.
Proof.
  intros Hinv Hnew H. unfold copy_chunk in H.
  step H as c1 s1 H1. inv_prim. step H as u2 s2 H2.
  eapply copy_inv_store_field in H2; [|done..]. 
  step H as c3 s3 H3. inv_prim. step H as u4 s4 H4.
  eapply copy_inv_store_field in H4; [|done..].
  step H as c5 s5 H5. inv_prim. step H as n s6 H6. inv_prim.
  destruct (memcpy_data _ _ _ _) as [bytes|]; [|done]. inv_prim.
  apply copy_inv_put; [done..|]. simpl. by eapply copy_inv_next.
Qed.

Lemma copy_inv_free_loop flags fuel : ∀ cursor st u st',
  inv st → (cursor ≠ 0 → h0 !! cursor = None) →
  free_loop fuel cursor flags st = Ret u st' → inv st'.
Proof.
  induction fuel as [|fuel IH]; intros cursor st u st' Hinv Hcur H; simpl in H.
  { destruct (cursor =? 0); [by inv_prim | done]. }
  destruct (Z.eqb_spec cursor 0); [by inv_prim|].
  specialize (Hcur ltac:(done)).
  step H as u1 s1 H1.
  assert (inv s1) as Hinv1.
  { destruct (flag_set flags ZEROMEM); [|by inv_prim].
    unfold memset_chunk in H1. step H1 as c s0 H0. inv_prim.
    destruct (memset_data _ _); [|done]. inv_prim. by apply copy_inv_put. }
  step H as c s2 H2. inv_prim.
  step H as u3 s3 H3.
  apply free_chunk_inv in H3 as [[? _]|(_ & c' & Hc' & ->)]; [done|].
  assert (c' = c) as -> by congruence.
  eapply IH; [..|apply H].
  - by apply copy_inv_delete.
  - intros Hn. by eapply copy_inv_next.
Qed.

Lemma copy_inv_arena_free st fuel dst flags u st' d :
  inv st → arenas st !! dst = Some d → (ar_head d ≠ 0 → h0 !! ar_head d = None) →
  arena_free fuel dst flags st = Ret u st' → inv st'.
Proof.
  intros Hinv Hd Hhead H. unfold arena_free in H.
  destruct (dst =? 0); [by inv_prim|].
  step H as d' s1 H1. inv_prim. assert (d' = d) as -> by congruence.
  by eapply copy_inv_free_loop.
Qed.

Lemma copy_inv_copy_loop dst flags free_fuel fuel : ∀ src_cursor dst_cursor st u st',
  dst ≠ src → inv st → h0 !! dst_cursor = None →
  (∀ d, arenas st !! dst = Some d → ar_head d ≠ 0 → h0 !! ar_head d = None) →
  copy_loop free_fuel fuel dst src_cursor dst_cursor flags st = Ret u st' →
  inv st'.
Proof.
  induction fuel as [|fuel IH]; intros src_cursor dst_cursor st u st' Hne Hinv Hdc Hhd H;
    simpl in H.
  { destruct (src_cursor =? 0); [by inv_prim | done]. }
  destruct (src_cursor =? 0); [by inv_prim|].
  step H as s s1 H1. inv_prim. step H as new s2 H2.
  pose proof H2 as H2'. apply alloc_chunk_inv in H2' as Hshape.
  eapply copy_inv_alloc_chunk in H2 as [Hinv2 Hnew]; [|done].
  assert (arenas s2 = arenas st) as Har2 by (destruct Hshape; tauto).
  destruct (Z.eqb_spec new 0) as [->|Hnew0].
  { unfold arena_free in H. destruct (dst =? 0); [by inv_prim|].
    step H as d s3 H3. inv_prim. eapply copy_inv_free_loop; [done| |done].
    rewrite Har2 in Har. eauto. }
  destruct Hnew as [?|[Hnew _]]; [done|].
  step H as u3 s3 H3. eapply copy_inv_copy_chunk in H3 as Hinv3; [|done..].
  step H as u4 s4 H4. inv_prim.
  step H as d s5 H5. inv_prim. step H as u6 s6 H6. inv_prim.
  step H as s' s7 H7. inv_prim.
  eapply IH; [done| |done| |apply H].
  - apply copy_inv_arena; [|done]. by apply copy_inv_put.
  - simpl. rewrite lookup_insert_eq. intros ? [= <-]. simpl.
    intros Hh. apply Hhd; [|done]. simpl in Har.
    apply copy_chunk_arenas in H3 as [H3 _]. congruence.
Qed.

End CopyFrame.

(** C10. [arena_copy] leaves the source as it found it.  Whenever the
    call returns (having copied everything, or having cleaned up after a
    failed acquisition in the loop), the source arena struct is
    unchanged and every chunk that was mapped before the call, so every
    chunk of the source, is unchanged in all its fields: link, size,
    offset and bytes.  In particular the chain of the source is the same
    chain.  The destination and the source are distinct structs (they
    are [restrict] pointers) and the OS maps new blocks at addresses that
    are not in use. *)
Theorem arena_copy_preserves_source fuel copy_dst copy_src flags st u st' :
  copy_dst ≠ copy_src → os_fresh st →
  arena_copy fuel copy_dst copy_src flags st = Ret u st' →
  arenas st' !! copy_src = arenas st !! copy_src ∧
  (∀ p c, chunks st !! p = Some c → chunks st' !! p = Some c) ∧
  (∀ l p, chain (chunks st) p l → chain (chunks st') p l).
Proof.
  intros Hne Hfresh H.
  cut (copy_inv (chunks st) copy_src (arenas st !! copy_src) st').
  { intros (Ha & H1 & _). repeat split; [done..|].
    intros l p. by apply chain_preserved. }
  assert (copy_inv (chunks st) copy_src (arenas st !! copy_src) st) as Hinv.
  { repeat split; [done| |done]. intros p c Hnone Hsome. congruence. }
  unfold arena_copy in H. destruct (_ || _); [by inv_prim|].
  step H as src s1 H1. inv_prim. destruct (_ || _); [by inv_prim|].
  step H as h s2 H2. inv_prim. step H as dst_head s3 H3.
  eapply copy_inv_alloc_chunk in H3 as [Hinv3 Hnew]; [|done].
  step H as u4 s4 H4.
  destruct Hnew as [->|[Hnew Hnz']].
  { unfold copy_chunk in H4. step H4 as c1 s5 H5. inv_prim.
    step H4 as u6 s6 H6. unfold store_field, load_chunk in H6. done. }
  eapply copy_inv_copy_chunk in H4 as Hinv4; [|done..].
  step H as d s5 H5. inv_prim. step H as u6 s6 H6. inv_prim.
  step H as d' s7 H7. inv_prim. step H as u8 s8 H8. inv_prim.
  step H as src' s9 H9. inv_prim. step H as h' s10 H10. inv_prim.
  simpl in *. rewrite lookup_insert_eq in Har1. simplify_eq. simpl in *.
  eapply copy_inv_copy_loop; [done| |done| |apply H].
  - do 2 (apply copy_inv_arena; [|done]). done.
  - simpl. rewrite lookup_insert_eq. intros ? [= <-]. done.
Qed.

Lemma arena_copy_preserves_source_witness :
  let st := one_chunk_state in
  let st' := final (arena_copy 1 200 100 0) one_chunk_state in
  arenas st' !! 100 = arenas st !! 100 ∧
  (∀ p c, chunks st !! p = Some c → chunks st' !! p = Some c) ∧
  (∀ l p, chain (chunks st) p l → chain (chunks st') p l).
Proof.
  apply (arena_copy_preserves_source 1 200 100 0 one_chunk_state tt).
  - lia.
  - apply os_freshb_spec. vm_compute. reflexivity.
  - apply ret_value_final. vm_compute. reflexivity.
Defined.

(** ** When an acquisition fails *)

(** The result of the first [alloc_chunk] of [arena_copy] is used
    unchecked: when that acquisition fails, the copy dereferences null. *)
Lemma arena_copy_head_acquisition_fails fuel copy_dst copy_src flags st src h st1 :
  copy_dst ≠ 0 → copy_src ≠ 0 →
  arenas st !! copy_src = Some src → ar_head src ≠ 0 → ar_tail src ≠ 0 →
  chunks st !! ar_head src = Some h →
  alloc_chunk (ch_size h) flags st = Ret 0 st1 →
  arena_copy fuel copy_dst copy_src flags st = Fault.
Proof.
  intros Hd Hs Hsrc Hh Ht Hch Halloc. unfold arena_copy.
  destruct (Z.eqb_spec copy_dst 0); [done|].
  destruct (Z.eqb_spec copy_src 0); [done|]. simpl.
  rewrite (bind_run _ _ _ _ _ (load_arena_run _ _ _ Hs Hsrc)).
  destruct (Z.eqb_spec (ar_head src) 0); [done|].
  destruct (Z.eqb_spec (ar_tail src) 0); [done|]. simpl.
  rewrite (bind_run _ _ _ _ _ (load_chunk_run _ _ _ Hh Hch)).
  rewrite (bind_run _ _ _ _ _ Halloc).
  apply bind_fault. unfold copy_chunk.
  apply alloc_chunk_inv in Halloc as [(_ & _ & Hc1 & _)|(? & _)]; [|done].
  rewrite <- Hc1 in Hch.
  rewrite (bind_run _ _ _ _ _ (load_chunk_run _ _ _ Hh Hch)).
  apply bind_fault. reflexivity.
Qed.

(** C7 on a concrete call: the source holds one chunk and the acquisition
    of the first chunk of the copy fails ([open] fails).  The result of
    [alloc_chunk] is not checked before it is written through: the copy
    does not return. *)
Theorem arena_copy_first_acquisition_unchecked :
  value (arena_get_size 1 100) no_descriptor_state = Some 8 ∧
  os no_descriptor_state = [OpenFails] ∧
  arena_copy 1 200 100 SOFTFAIL no_descriptor_state = Fault.
Proof. repeat apply conj; vm_compute; reflexivity. Qed.

(** When an acquisition fails inside the loop, the chunks of the copy are
    released but the destination struct keeps their addresses: its head
    and tail refer to unmapped memory, and asking for its used size
    faults. *)
Lemma arena_copy_failure_leaves_stale_destination :
  arenas three_chunk_state !! 200 = Some (mkArena 0 0) ∧
  observe (arena_copy 3 200 100 SOFTFAIL) three_chunk_state
          [200] [50331648; 67108864]
    = Some (tt, [Some (mkArena 50331648 67108864)], [None; None]) ∧
  (arena_copy 3 200 100 SOFTFAIL;; arena_get_size 3 200) three_chunk_state = Fault.
Proof. repeat apply conj; vm_compute; reflexivity. Qed.

(** With [ZEROMEM] the clean-up of [arena_free] zeroes the header of the
    first chunk before it reads [ch_next] from it, so it stops after one
    chunk: the second chunk of the failed copy stays mapped. *)
Lemma arena_copy_failure_zeromem_keeps_chunk :
  observe (arena_copy 3 200 100 (Z.lor SOFTFAIL ZEROMEM)) three_chunk_state
          [200] [50331648; 67108864]
    = Some (tt, [Some (mkArena 50331648 67108864)],
                [None; Some (0, 4194304, 0)]).
Proof. vm_compute. reflexivity. Qed.

(** ** The copy of a well-formed arena *)

Lemma copy_chunk_run new src st cn cs k :
  new ≠ 0 → src ≠ 0 → new ≠ src →
  chunks st !! new = Some cn → chunks st !! src = Some cs →
  ch_data cn = zeros k → k < half →
  0 <= ch_offset cs <= Z.of_nat (length (ch_data cs)) → ch_offset cs <= k →
  copy_chunk new src st =
    Ret tt (put_chunk st new
              (mkChunk (ch_next cn) (ch_size cs) (ch_offset cs)
                 (take (Z.to_nat (ch_offset cs)) (ch_data cs) ++ zeros (k - ch_offset cs)))).
Proof.
  intros Hn Hs Hne Hcn Hcs Hdata Hk Hoff Hfit. unfold copy_chunk.
  rewrite (bind_run _ _ _ _ _ (load_chunk_run _ _ _ Hs Hcs)).
  rewrite (bind_run _ _ _ _ _ (store_field_run _ set_offset _ _ _ Hn Hcn)).
  set (s1 := set_chunks st _).
  assert (chunks s1 !! src = Some cs) as Hcs1 by (simpl; by rewrite lookup_insert_ne).
  assert (chunks s1 !! new = Some (set_offset cn (ch_offset cs))) as Hcn1
    by apply lookup_insert_eq.
  rewrite (bind_run _ _ _ _ _ (load_chunk_run _ _ _ Hs Hcs1)).
  rewrite (bind_run _ _ _ _ _ (store_field_run _ set_size _ _ _ Hn Hcn1)).
  set (s2 := set_chunks s1 _).
  assert (chunks s2 !! src = Some cs) as Hcs2 by (simpl; by rewrite !lookup_insert_ne).
  assert (chunks s2 !! new = Some (set_size (set_offset cn (ch_offset cs)) (ch_size cs)))
    as Hcn2 by apply lookup_insert_eq.
  rewrite (bind_run _ _ _ _ _ (load_chunk_run _ _ _ Hs Hcs2)).
  rewrite (bind_run _ _ _ _ _ (load_chunk_run _ _ _ Hn Hcn2)).
  change (ch_data (set_size (set_offset cn (ch_offset cs)) (ch_size cs))) with (ch_data cn).
  rewrite Hdata.
  pose proof (memcpy_data_append [] k (ch_data cs) (ch_offset cs)) as Hcpy.
  change ([] ++ zeros k) with (zeros k) in Hcpy.
  change (Z.of_nat (length (@nil Byte.byte))) with 0 in Hcpy.
  rewrite Hcpy by lia.
  rewrite (store_chunk_run _ _ _ _ Hn Hcn2). f_equal.
  unfold s2, s1, put_chunk, set_chunks; simpl. by rewrite !insert_insert_eq.
Qed.

Lemma copied_frame h1 h h' l news :
  Forall2 (copied h1 h') l news → (∀ q, q ∈ l → h1 !! q = h !! q) →
  Forall2 (copied h h') l news.
Proof.
  induction 1 as [|a b l news (ca & cb & Ha & Hb & Hrest) _ IH]; intros Hsame; [done|].
  constructor.
  - exists ca, cb. rewrite <- Hsame by left. done.
  - apply IH. intros q Hq. apply Hsame. by right.
Qed.

Lemma copy_loop_chain copy_dst flags free_fuel rest : ∀ l news fuel st src_cursor dst_cursor dc d,
  copy_dst ≠ 0 → arenas st !! copy_dst = Some d → ar_tail d = dst_cursor →
  chain (chunks st) src_cursor l → copyable (chunks st) l →
  os st = map Mapped news ++ rest → length news = length l → NoDup news →
  (∀ b, b ∈ news → b ≠ 0 ∧ chunks st !! b = None) →
  dst_cursor ≠ 0 → chunks st !! dst_cursor = Some dc → ch_next dc = 0 →
  dst_cursor ∉ l → dst_cursor ∉ news → (length l ≤ fuel)%nat →
  ∃ st', copy_loop free_fuel fuel copy_dst src_cursor dst_cursor flags st = Ret tt st' ∧
    os st' = rest ∧
    arenas st' =
      <[copy_dst := mkArena (ar_head d) (chain_last (dst_cursor :: news))]> (arenas st) ∧
    chain (chunks st') dst_cursor (dst_cursor :: news) ∧
    (∃ dc', chunks st' !! dst_cursor = Some dc' ∧ ch_size dc' = ch_size dc ∧
            ch_offset dc' = ch_offset dc ∧ ch_data dc' = ch_data dc) ∧
    (∀ q, q ∉ news → q ≠ dst_cursor → chunks st' !! q = chunks st !! q) ∧
    Forall2 (copied (chunks st) (chunks st')) l news.
Proof.
  induction l as [|a l IH];
    intros news fuel st src_cursor dst_cursor dc d Hdst Hd Htail Hch Hcp Hos Hlen Hnd
           Hfresh Hdc0 Hdc Hnext Hdl Hdn Hf.
  - destruct news; [|done]. simpl in *. subst src_cursor. exists st.
    split; [by destruct fuel|]. split; [done|]. split.
    { change (chain_last [dst_cursor]) with dst_cursor. rewrite <- Htail.
      destruct d. by rewrite insert_id. }
    split. { split; [done|]. split; [done|]. exists dc. by rewrite Hnext. }
    split; [by exists dc|]. split; [done|]. constructor.
  - destruct news as [|b news]; [done|].
    pose proof (chain_NoDup _ _ _ Hch) as Hndl. apply NoDup_cons in Hndl as [Hal Hndl].
    apply NoDup_cons in Hnd as [Hbn Hnd].
    simpl in Hch. destruct Hch as (-> & Ha & ca & Hca & Hch).
    destruct (Hfresh b ltac:(left)) as [Hb Hbfresh].
    destruct (Hcp a ca ltac:(left) Hca) as (Hsz & Hoff & Hlen').
    apply not_elem_of_cons in Hdl as [Hda Hdl].
    apply not_elem_of_cons in Hdn as [Hdb Hdn].
    destruct fuel as [|fuel]; [simpl in Hf; lia|].
    simpl in Hos.
    set (s1 := mkState (arenas st)
                 (<[b := mkChunk 0 (ch_size ca) 0 (zeros (ch_size ca))]> (chunks st))
                 (map Mapped news ++ rest) (leaked st)).
    assert (alloc_chunk (ch_size ca) flags st = Ret b s1) as Halloc
      by (by apply alloc_chunk_run).
    assert (a ≠ b) as Hab by (intros ->; congruence).
    set (cb := mkChunk 0 (ch_size ca) (ch_offset ca)
                 (take (Z.to_nat (ch_offset ca)) (ch_data ca)
                    ++ zeros (ch_size ca - ch_offset ca))).
    assert (copy_chunk b a s1 = Ret tt (put_chunk s1 b cb)) as Hcopy.
    { apply (copy_chunk_run b a s1 (mkChunk 0 (ch_size ca) 0 (zeros (ch_size ca)))
               ca (ch_size ca)); try done.
      - apply lookup_insert_eq.
      - simpl. by rewrite lookup_insert_ne.
      - unfold sizeof_chunk in *. lia.
      - lia.
      - lia. }
    set (s2 := put_chunk s1 b cb).
    assert (chunks s2 !! dst_cursor = Some dc) as Hdc2.
    { simpl. by rewrite !lookup_insert_ne. }
    set (s3 := set_chunks s2 (<[dst_cursor := set_next dc b]> (chunks s2))).
    set (s4 := set_arenas s3 (<[copy_dst := mkArena (ar_head d) b]> (arenas s3))).
    assert (∀ q, q ≠ b → q ≠ dst_cursor → chunks s4 !! q = chunks st !! q) as Hsame.
    { intros q Hqb Hqd. simpl. by rewrite !lookup_insert_ne. }
    assert (chunks s4 !! b = Some cb) as Hcb4.
    { simpl. rewrite lookup_insert_ne by done. rewrite insert_insert_eq.
      apply lookup_insert_eq. }
    assert (∀ q, q ∈ l → chunks s4 !! q = chunks st !! q) as Hsame_l.
    { intros q Hq. apply Hsame; [|by intros ->].
      intros ->. destruct (chain_mapped _ _ _ _ Hch Hq) as [_ [? ?]]. congruence. }
    destruct (IH news fuel s4 (ch_next ca) b cb (mkArena (ar_head d) b))
      as (st' & Hrun & Hos' & Har' & Hch' & Hb' & Hframe & Hall); try done.
    + simpl. apply lookup_insert_eq.
    + by apply (chain_frame (chunks st)).
    + intros q c Hq. rewrite Hsame_l by done. apply Hcp. by right.
    + simpl in Hlen. lia.
    + intros b' Hb'. destruct (Hfresh b' ltac:(by right)) as [? ?]. split; [done|].
      rewrite Hsame; [done| |]; intros ->; done.
    + intros Hin. destruct (chain_mapped _ _ _ _ Hch Hin) as [_ [? ?]]. congruence.
    + simpl in Hf. lia.
    + exists st'. split.
      { simpl. destruct (Z.eqb_spec a 0); [done|].
        rewrite (bind_run _ _ _ _ _ (load_chunk_run _ _ _ Ha Hca)).
        rewrite (bind_run _ _ _ _ _ Halloc).
        destruct (Z.eqb_spec b 0); [done|].
        rewrite (bind_run _ _ _ _ _ Hcopy). fold s2.
        rewrite (bind_run _ _ _ _ _ (store_field_run _ set_next b _ _ Hdc0 Hdc2)).
        fold s3.
        assert (arenas s3 !! copy_dst = Some d) as Hd3 by done.
        rewrite (bind_run _ _ _ _ _ (load_arena_run _ _ _ Hdst Hd3)).
        rewrite (bind_run _ _ _ _ _ (store_arena_run _ (mkArena (ar_head d) b) _ _ Hdst Hd3)).
        fold s4.
        assert (chunks s4 !! a = Some ca) as Hca4 by (by rewrite Hsame).
        by rewrite (bind_run _ _ _ _ _ (load_chunk_run _ _ _ Ha Hca4)). }
      split; [done|]. split.
      { rewrite Har'. simpl. rewrite insert_insert_eq. done. }
      assert (chunks st' !! dst_cursor = Some (set_next dc b)) as Hdc'.
      { rewrite Hframe by done. simpl. apply lookup_insert_eq. }
      split.
      { split; [done|]. split; [done|]. exists (set_next dc b). by split. }
      split; [by exists (set_next dc b)|]. split.
      { intros q Hq Hqd. apply not_elem_of_cons in Hq as [Hqb Hq].
        rewrite Hframe by done. by apply Hsame. }
      constructor.
      * destruct Hb' as (cb' & Hcb' & Hs' & Ho' & Hd').
        exists ca, cb'. rewrite Hs', Ho', Hd'. done.
      * by apply (copied_frame (chunks s4)).
Qed.

Lemma copied_live_bytes h h' l news :
  Forall2 (copied h h') l news → copyable h l →
  live_bytes h' news = live_bytes h l ∧ total_offsets h' news = total_offsets h l.
Proof.
  induction 1 as [|a b l news (ca & cb & Ha & Hb & Hs & Ho & Hd) _ IH]; intros Hcp; [done|].
  destruct (Hcp a ca ltac:(left) Ha) as (_ & Hoff & Hlen).
  destruct IH as [IH1 IH2]. { intros q c Hq. apply Hcp. by right. }
  simpl. rewrite Ha, Hb, Ho, Hd, IH1, IH2. split; [|done]. f_equal.
  rewrite take_app_length'; [done|]. rewrite length_take. lia.
Qed.

(** X16. A successful copy.  The source is a well-formed arena with
    chunks, whose sizes [alloc_chunk] accepts and whose used parts lie
    inside their data regions and sizes; the OS maps one fresh block for
    every chunk of the source.  Then [arena_copy] returns, having
    consumed exactly these answers, and the destination is a well-formed
    arena whose chain consists of the new blocks in the order in which
    they were handed out.  Chunk by chunk it has the size, the offset and
    the used bytes of the source, so the live bytes and the used size of
    the two arenas are equal.  The source arena is well-formed as before
    and every chunk that existed before the call is unchanged.  What the
    destination struct held before is overwritten without being
    released. *)
Theorem arena_copy_duplicates fuel copy_dst copy_src flags st d l news rest :
  copy_dst ≠ 0 → copy_src ≠ 0 → copy_dst ≠ copy_src →
  arenas st !! copy_dst = Some d →
  arena_wf st copy_src l → l ≠ [] → (length l ≤ S fuel)%nat →
  copyable (chunks st) l →
  os st = map Mapped news ++ rest → length news = length l → NoDup news →
  (∀ b, b ∈ news → b ≠ 0 ∧ chunks st !! b = None) →
  ∃ st', arena_copy fuel copy_dst copy_src flags st = Ret tt st' ∧
    os st' = rest ∧
    arena_wf st' copy_dst news ∧ arena_wf st' copy_src l ∧
    (∀ q, q ∉ news → chunks st' !! q = chunks st !! q) ∧
    Forall2 (copied (chunks st) (chunks st')) l news ∧
    live_bytes (chunks st') news = live_bytes (chunks st) l ∧
    total_offsets (chunks st') news = total_offsets (chunks st) l.
Proof.
  intros Hdst Hsrc Hne Hd Hwf Hnil Hf Hcp Hos Hlen Hnd Hfresh.
  pose proof Hwf as (ar & Har & Hch & Ht).
  destruct l as [|a l]; [done|]. destruct news as [|b news]; [done|].
  pose proof (chain_NoDup _ _ _ Hch) as Hndl. apply NoDup_cons in Hndl as [Hal Hndl].
  apply NoDup_cons in Hnd as [Hbn Hnd].
  pose proof Hch as Hch0.
  simpl in Hch. destruct Hch as (Hhead & Ha & ca & Hca & Hch).
  pose proof (chain_last_elem (a :: l) ltac:(done)) as Hlast. rewrite <- Ht in Hlast.
  destruct (chain_mapped _ _ _ _ Hch0 Hlast) as [Htl _].
  destruct (Hfresh b ltac:(left)) as [Hb Hbfresh].
  destruct (Hcp a ca ltac:(left) Hca) as (Hsz & Hoff & Hlen').
  simpl in Hos.
  set (s1 := mkState (arenas st)
               (<[b := mkChunk 0 (ch_size ca) 0 (zeros (ch_size ca))]> (chunks st))
               (map Mapped news ++ rest) (leaked st)).
  assert (alloc_chunk (ch_size ca) flags st = Ret b s1) as Halloc
    by (by apply alloc_chunk_run).
  assert (a ≠ b) as Hab by (intros ->; congruence).
  set (cb := mkChunk 0 (ch_size ca) (ch_offset ca)
               (take (Z.to_nat (ch_offset ca)) (ch_data ca)
                  ++ zeros (ch_size ca - ch_offset ca))).
  assert (copy_chunk b a s1 = Ret tt (put_chunk s1 b cb)) as Hcopy.
  { apply (copy_chunk_run b a s1 (mkChunk 0 (ch_size ca) 0 (zeros (ch_size ca)))
             ca (ch_size ca)); try done.
    - apply lookup_insert_eq.
    - simpl. by rewrite lookup_insert_ne.
    - unfold sizeof_chunk in *. lia.
    - lia.
    - lia. }
  set (s2 := put_chunk s1 b cb).
  set (s3 := set_arenas s2 (<[copy_dst := mkArena b (ar_tail d)]> (arenas s2))).
  set (s4 := set_arenas s3 (<[copy_dst := mkArena b b]> (arenas s3))).
  assert (∀ q, q ≠ b → chunks s4 !! q = chunks st !! q) as Hsame.
  { intros q Hqb. simpl. by rewrite !lookup_insert_ne. }
  assert (chunks s4 !! b = Some cb) as Hcb4.
  { simpl. rewrite insert_insert_eq. apply lookup_insert_eq. }
  assert (∀ q, q ∈ a :: l → q ≠ b) as Hold.
  { intros q Hq ->. destruct (chain_mapped _ _ _ _ Hch0 Hq) as [_ [? ?]]. congruence. }
  assert (arenas s4 !! copy_src = Some ar) as Har4.
  { simpl. by rewrite !lookup_insert_ne. }
  destruct (copy_loop_chain copy_dst flags (S fuel) rest l news fuel s4 (ch_next ca)
              b cb (mkArena b b))
    as (st' & Hrun & Hos' & Har' & Hch' & Hb' & Hframe & Hall); try done.
  { simpl. apply lookup_insert_eq. }
  { apply (chain_frame (chunks st)); [|done]. intros q Hq. apply Hsame, Hold. by right. }
  { intros q c Hq. rewrite Hsame by (apply Hold; by right). apply Hcp. by right. }
  { simpl in Hlen. lia. }
  { intros b' Hb''. destruct (Hfresh b' ltac:(by right)) as [? ?]. split; [done|].
    rewrite Hsame; [done|]. by intros ->. }
  { intros Hin. by apply (Hold b ltac:(by right)). }
  { simpl in Hf. lia. }
  assert (∀ q, q ∉ b :: news → chunks st' !! q = chunks st !! q) as Hframe'.
  { intros q Hq. apply not_elem_of_cons in Hq as [Hqb Hq].
    rewrite Hframe by done. by apply Hsame. }
  assert (∀ q, q ∈ a :: l → q ∉ b :: news) as Hdisj.
  { intros q Hq Hin. destruct (chain_mapped _ _ _ _ Hch0 Hq) as [_ [? ?]].
    destruct (Hfresh q Hin). congruence. }
  assert (Forall2 (copied (chunks st) (chunks st')) (a :: l) (b :: news)) as Hcopied.
  { constructor.
    - destruct Hb' as (cb' & Hcb' & Hs' & Ho' & Hd').
      exists ca, cb'. rewrite Hs', Ho', Hd'. done.
    - apply (copied_frame (chunks s4)); [done|].
      intros q Hq. apply Hsame, Hold. by right. }
  exists st'. split.
  { unfold arena_copy.
    destruct (Z.eqb_spec copy_dst 0); [done|]. destruct (Z.eqb_spec copy_src 0); [done|].
    simpl. rewrite (bind_run _ _ _ _ _ (load_arena_run _ _ _ Hsrc Har)).
    rewrite Hhead.
    destruct (Z.eqb_spec a 0); [done|].
    destruct (Z.eqb_spec (ar_tail ar) 0); [done|]. simpl.
    rewrite (bind_run _ _ _ _ _ (load_chunk_run _ _ _ Ha Hca)).
    rewrite (bind_run _ _ _ _ _ Halloc).
    rewrite (bind_run _ _ _ _ _ Hcopy). fold s2.
    assert (arenas s2 !! copy_dst = Some d) as Hd2 by done.
    rewrite (bind_run _ _ _ _ _ (load_arena_run _ _ _ Hdst Hd2)).
    rewrite (bind_run _ _ _ _ _ (store_arena_run _ (mkArena b (ar_tail d)) _ _ Hdst Hd2)).
    fold s3.
    assert (arenas s3 !! copy_dst = Some (mkArena b (ar_tail d))) as Hd3
      by apply lookup_insert_eq.
    rewrite (bind_run _ _ _ _ _ (load_arena_run _ _ _ Hdst Hd3)).
    rewrite (bind_run _ _ _ _ _ (store_arena_run _ (mkArena b b) _ _ Hdst Hd3)).
    fold s4.
    rewrite (bind_run _ _ _ _ _ (load_arena_run _ _ _ Hsrc Har4)). rewrite Hhead.
    assert (chunks s4 !! a = Some ca) as Hca4 by (by rewrite Hsame).
    by rewrite (bind_run _ _ _ _ _ (load_chunk_run _ _ _ Ha Hca4)). }
  split; [done|]. split.
  { exists (mkArena b (chain_last (b :: news))). rewrite Har', lookup_insert_eq. done. }
  split.
  { exists ar. rewrite Har', lookup_insert_ne by done. split; [done|]. split; [|done].
    apply (chain_frame (chunks st)); [|done]. intros q Hq. by apply Hframe', Hdisj. }
  split; [done|]. split; [done|].
  by apply copied_live_bytes.
Qed.

Lemma arena_copy_duplicates_witness :
  ∃ st', arena_copy 1 200 100 0 small_state = Ret tt st' ∧
    os st' = [MapFails] ∧
    arena_wf st' 200 [12288; 16384] ∧ arena_wf st' 100 [4096; 8192] ∧
    (∀ q, q ∉ [12288; 16384] → chunks st' !! q = chunks small_state !! q) ∧
    Forall2 (copied (chunks small_state) (chunks st')) [4096; 8192] [12288; 16384] ∧
    live_bytes (chunks st') [12288; 16384]
      = live_bytes (chunks small_state) [4096; 8192] ∧
    total_offsets (chunks st') [12288; 16384]
      = total_offsets (chunks small_state) [4096; 8192].
Proof.
  apply (arena_copy_duplicates 1 200 100 0 small_state (mkArena 0 0)
           [4096; 8192] [12288; 16384] [MapFails]).
  - lia.
  - lia.
  - lia.
  - reflexivity.
  - apply small_state_wf.
  - done.
  - simpl. lia.
  - each_chunk; vm_compute; done.
  - reflexivity.
  - reflexivity.
  - apply distinct_spec. vm_compute. reflexivity.
  - intros b Hb.
    repeat (apply elem_of_cons in Hb as [->|Hb]; [split; [lia|reflexivity]|]).
    by apply not_elem_of_nil in Hb.
Defined.


(** * Clear, Reset, Free *)

(** [arena_free] never writes to the arena struct, and never maps
    anything. *)
Lemma free_loop_shrinks flags fuel : ∀ cursor st u st',
  free_loop fuel cursor flags st = Ret u st' →
  arenas st' = arenas st ∧ os st' = os st ∧
  (∀ p, chunks st !! p = None → chunks st' !! p = None) ∧
  (cursor ≠ 0 → chunks st' !! cursor = None).
Proof.
  induction fuel as [|fuel IH]; intros cursor st u st' H; simpl in H.
  { destruct (Z.eqb_spec cursor 0); [by inv_prim | done]. }
  destruct (Z.eqb_spec cursor 0); [by inv_prim|].
  step H as u1 s1 H1.
  assert (arenas s1 = arenas st ∧ os s1 = os st ∧
          ∀ p, chunks st !! p = None → chunks s1 !! p = None) as (Ha1 & Ho1 & Hc1).
  { destruct (flag_set flags ZEROMEM); [|by inv_prim].
    unfold memset_chunk in H1. step H1 as c s0 H0. inv_prim.
    destruct (memset_data _ _); [|done]. inv_prim. repeat split; simpl.
    intros p Hp. rewrite lookup_insert_ne; [done|]. congruence. }
  step H as c s2 H2. inv_prim.
  step H as u3 s3 H3.
  apply free_chunk_inv in H3 as [[? _]|(_ & c' & Hc' & ->)]; [done|].
  apply IH in H as (Ha & Ho & Hc & _). simpl in *.
  repeat split; [congruence..| |].
  - intros p Hp. apply Hc. rewrite lookup_delete_None. auto.
  - intros _. apply Hc. apply lookup_delete_eq.
Qed.

Lemma arena_free_twice_faults fuel fuel' arena flags st u st' ar :
  arena ≠ 0 → arenas st !! arena = Some ar → ar_head ar ≠ 0 →
  arena_free fuel arena flags st = Ret u st' →
  arenas st' !! arena = Some ar ∧ chunks st' !! ar_head ar = None ∧
  arena_free (S fuel') arena flags st' = Fault.
Proof.
  intros Hnz Har Hhead H. unfold arena_free in H.
  destruct (Z.eqb_spec arena 0); [done|].
  step H as ar' s1 H1. inv_prim. assert (ar' = ar) as -> by congruence.
  apply free_loop_shrinks in H as (Ha & Ho & Hc & Hcur).
  specialize (Hcur Hhead). rewrite <- Ha in Har.
  repeat split; [done..|].
  unfold arena_free. destruct (Z.eqb_spec arena 0); [done|].
  rewrite (bind_run _ _ _ _ _ (load_arena_run _ _ _ Hnz Har)).
  simpl. destruct (Z.eqb_spec (ar_head ar) 0); [done|].
  destruct (flag_set flags ZEROMEM).
  - apply bind_fault. unfold memset_chunk. by apply bind_fault, load_chunk_fault.
  - rewrite (bind_run _ _ _ tt st') by done. by apply bind_fault, load_chunk_fault.
Qed.

(** C5, as the code has it.  [arena_free] on an absent arena or on an
    arena without chunks returns at once and changes nothing, so that
    calling it a second time does the same; [arena_clear] and
    [arena_reset] likewise return at once on an absent arena. *)
Theorem arena_free_empty_noop fuel arena flags st :
  arena = 0 ∨ (∃ ar, arenas st !! arena = Some ar ∧ ar_head ar = 0) →
  arena_free fuel arena flags st = Ret tt st ∧
  (arena_free fuel arena flags;; arena_free fuel arena flags) st = Ret tt st ∧
  (arena = 0 →
   arena_clear fuel arena st = Ret tt st ∧ arena_reset fuel arena st = Ret tt st).
Proof.
  intros Hcase.
  assert (arena_free fuel arena flags st = Ret tt st) as Hfree.
  { destruct Hcase as [->|(ar & Har & Hhead)]; [done|].
    unfold arena_free. destruct (Z.eqb_spec arena 0) as [|Hnz]; [done|].
    rewrite (bind_run _ _ _ _ _ (load_arena_run _ _ _ Hnz Har)).
    rewrite Hhead. by destruct fuel. }
  split; [done|]. split.
  - by rewrite (bind_run _ _ _ _ _ Hfree).
  - by intros ->.
Qed.

Lemma arena_free_empty_noop_witness :
  arena_free 1 200 ZEROMEM (fresh_state []) = Ret tt (fresh_state []) ∧
  (arena_free 1 200 ZEROMEM;; arena_free 1 200 ZEROMEM) (fresh_state [])
    = Ret tt (fresh_state []) ∧
  (200 = 0 →
   arena_clear 1 200 (fresh_state []) = Ret tt (fresh_state []) ∧
   arena_reset 1 200 (fresh_state []) = Ret tt (fresh_state [])).
Proof.
  apply (arena_free_empty_noop 1 200 ZEROMEM (fresh_state [])).
  right. exists (mkArena 0 0). split; reflexivity.
Defined.

(** C5 as stated fails: after [arena_free] on an arena that holds a
    chunk, a second [arena_free] on the same arena faults. *)
Lemma arena_free_twice_on_used_arena_faults :
  value (arena_free 1 100 0) one_chunk_state = Some tt ∧
  (arena_free 1 100 0;; arena_free 1 100 0) one_chunk_state = Fault.
Proof. split; vm_compute; reflexivity. Qed.

(** ** On a well-formed arena *)

Lemma reset_loop_chain : ∀ l fuel st p,
  chain (chunks st) p l → (length l ≤ fuel)%nat →
  ∃ st', reset_loop fuel p st = Ret tt st' ∧
    arenas st' = arenas st ∧ os st' = os st ∧
    (∀ q c, q ∈ l → chunks st !! q = Some c → chunks st' !! q = Some (set_offset c 0)) ∧
    (∀ q, q ∉ l → chunks st' !! q = chunks st !! q).
Proof.
  induction l as [|a l IH]; intros fuel st p Hch Hf.
  - simpl in Hch. subst. exists st. split; [by destruct fuel|].
    do 2 (split; [done|]). split; [|done].
    intros q c Hq. by apply not_elem_of_nil in Hq.
  - pose proof (chain_NoDup _ _ _ Hch) as Hnd.
    apply NoDup_cons in Hnd as [Hnin Hnd].
    simpl in Hch. destruct Hch as (-> & Hnz & ca & Hca & Hch).
    destruct fuel as [|fuel]; [simpl in Hf; lia|].
    set (st1 := put_chunk st a (set_offset ca 0)).
    assert (∀ q, q ≠ a → chunks st1 !! q = chunks st !! q) as Hsame.
    { intros q Hq. simpl. by rewrite lookup_insert_ne. }
    destruct (IH fuel st1 (ch_next ca)) as (st' & Hrun & Har & Hos & Hzero & Hrest).
    + apply (chain_frame (chunks st)); [|done].
      intros q Hq. apply Hsame. by intros ->.
    + simpl in Hf. lia.
    + exists st'. split.
      * simpl. destruct (Z.eqb_spec a 0); [done|].
        rewrite (bind_run _ _ _ _ _ (store_field_run _ set_offset 0 _ _ Hnz Hca)).
        fold (put_chunk st a (set_offset ca 0)). fold st1.
        assert (chunks st1 !! a = Some (set_offset ca 0)) as Hc1 by apply lookup_insert_eq.
        by rewrite (bind_run _ _ _ _ _ (load_chunk_run _ _ _ Hnz Hc1)).
      * do 2 (split; [done|]). split.
        -- intros q c Hq Hc. apply elem_of_cons in Hq as [->|Hq].
           ++ rewrite Hrest by done. simpl. rewrite lookup_insert_eq. congruence.
           ++ apply Hzero; [done|]. rewrite Hsame; [done|]. by intros ->.
        -- intros q Hq. apply not_elem_of_cons in Hq as [Hqa Hq].
           rewrite Hrest by done. by apply Hsame.
Qed.

(** [arena_reset] on a well-formed arena, run forward. *)
Lemma arena_reset_chain fuel arena st l :
  arena ≠ 0 → arena_wf st arena l → (length l ≤ fuel)%nat →
  ∃ st', arena_reset fuel arena st = Ret tt st' ∧
    arenas st' = arenas st ∧ os st' = os st ∧
    (∀ q c, q ∈ l → chunks st !! q = Some c → chunks st' !! q = Some (set_offset c 0)) ∧
    (∀ q, q ∉ l → chunks st' !! q = chunks st !! q) ∧
    arena_wf st' arena l.
Proof.
  intros Hnz (ar & Har & Hch & Ht) Hf.
  destruct (reset_loop_chain l fuel st (ar_head ar) Hch Hf)
    as (st' & Hrun & Har' & Hos & Hzero & Hrest).
  exists st'. split.
  { unfold arena_reset. destruct (Z.eqb_spec arena 0); [done|].
    by rewrite (bind_run _ _ _ _ _ (load_arena_run _ _ _ Hnz Har)). }
  do 4 (split; [done|]). exists ar. rewrite Har'. split; [done|]. split; [|done].
  apply (chain_frame_rel (λ _ c c', ch_next c' = ch_next c) st st'); [done| |done].
  split; [done|]. intros q. destruct (decide (q ∈ l)) as [Hq|Hq].
  - destruct (chain_mapped _ _ _ _ Hch Hq) as [_ [cq Hcq]].
    by rewrite Hcq, (Hzero q cq Hq Hcq).
  - rewrite (Hrest q Hq). by destruct (chunks st !! q).
Qed.

(** X17. [arena_reset] on a well-formed arena, with one unit of fuel per
    chunk: it returns, every chunk of the chain has offset 0 and is
    otherwise as it was (link, size and bytes: the memory is not
    touched), all other chunks, the arena structs and the OS are
    untouched, the arena is well-formed with the same chain, and
    [arena_get_size] now returns 0. *)
Theorem arena_reset_spec fuel arena st l :
  arena ≠ 0 → arena_wf st arena l → (length l ≤ fuel)%nat →
  ∃ st', arena_reset fuel arena st = Ret tt st' ∧
    arenas st' = arenas st ∧ os st' = os st ∧
    (∀ q c, q ∈ l → chunks st !! q = Some c → chunks st' !! q = Some (set_offset c 0)) ∧
    (∀ q, q ∉ l → chunks st' !! q = chunks st !! q) ∧
    arena_wf st' arena l ∧
    arena_get_size fuel arena st' = Ret 0 st'.
Proof.
  intros Hnz Hwf Hf. pose proof Hwf as (ar0 & _ & Hch & _).
  destruct (arena_reset_chain fuel arena st l Hnz Hwf Hf)
    as (st' & Hrun & Har' & Hos & Hzero & Hrest & Hwf').
  exists st'. do 6 (split; [done|]).
  destruct Hwf' as (ar & Har & Hch' & _).
  rewrite (arena_get_size_chain _ _ _ _ _ Hnz Har Hch' Hf).
  rewrite sum_offsets_reset; [done|].
  intros a c Ha Hc. destruct (chain_mapped _ _ _ _ Hch Ha) as [_ [c0 Hc0]].
  rewrite (Hzero a c0 Ha Hc0) in Hc. by injection Hc as <-.
Qed.

Lemma arena_reset_spec_witness :
  ∃ st', arena_reset 2 100 small_state = Ret tt st' ∧
    arenas st' = arenas small_state ∧ os st' = os small_state ∧
    (∀ q c, q ∈ [4096; 8192] → chunks small_state !! q = Some c →
            chunks st' !! q = Some (set_offset c 0)) ∧
    (∀ q, q ∉ [4096; 8192] → chunks st' !! q = chunks small_state !! q) ∧
    arena_wf st' 100 [4096; 8192] ∧
    arena_get_size 2 100 st' = Ret 0 st'.
Proof.
  apply (arena_reset_spec 2 100 small_state [4096; 8192]).
  - lia.
  - apply small_state_wf.
  - simpl. lia.
Defined.


Lemma clear_loop_chain : ∀ l fuel st p,
  chain (chunks st) p l → (length l ≤ fuel)%nat → sizes_in_bounds (chunks st) l →
  ∃ st', clear_loop fuel p st = Ret tt st' ∧
    arenas st' = arenas st ∧ os st' = os st ∧
    (∀ q c, q ∈ l → chunks st !! q = Some c → chunks st' !! q = Some (cleared c)) ∧
    (∀ q, q ∉ l → chunks st' !! q = chunks st !! q).
Proof.
  induction l as [|a l IH]; intros fuel st p Hch Hf Hb.
  - simpl in Hch. subst. exists st. split; [by destruct fuel|].
    do 2 (split; [done|]). split; [|done].
    intros q c Hq. by apply not_elem_of_nil in Hq.
  - pose proof (chain_NoDup _ _ _ Hch) as Hnd.
    apply NoDup_cons in Hnd as [Hnin Hnd].
    simpl in Hch. destruct Hch as (-> & Hnz & ca & Hca & Hch).
    destruct fuel as [|fuel]; [simpl in Hf; lia|].
    destruct (Hb a ca ltac:(left) Hca) as [Hsz Hlt].
    set (st1 := put_chunk st a (cleared ca)).
    assert (∀ q, q ≠ a → chunks st1 !! q = chunks st !! q) as Hsame.
    { intros q Hq. simpl. by rewrite lookup_insert_ne. }
    destruct (IH fuel st1 (ch_next ca)) as (st' & Hrun & Har & Hos & Hzero & Hrest).
    + apply (chain_frame (chunks st)); [|done].
      intros q Hq. apply Hsame. by intros ->.
    + simpl in Hf. lia.
    + intros q c Hq. rewrite Hsame by (by intros ->). apply Hb. by right.
    + exists st'. split.
      * simpl. destruct (Z.eqb_spec a 0); [done|].
        rewrite (bind_run _ _ _ _ _ (load_chunk_run _ _ _ Hnz Hca)).
        rewrite memset_data_run by done.
        rewrite (bind_run _ _ _ _ _ (store_chunk_run _ _ _ _ Hnz Hca)).
        set (s0 := set_chunks st _).
        assert (chunks s0 !! a = Some (set_data ca (zeros (ch_size ca) ++
                  drop (Z.to_nat (ch_size ca)) (ch_data ca)))) as Hc0
          by apply lookup_insert_eq.
        rewrite (bind_run _ _ _ _ _ (store_field_run _ set_offset 0 _ _ Hnz Hc0)).
        assert (set_chunks s0 (<[a := set_offset (set_data ca (zeros (ch_size ca) ++
                  drop (Z.to_nat (ch_size ca)) (ch_data ca))) 0]> (chunks s0)) = st1) as ->.
        { unfold st1, s0, put_chunk, set_chunks; simpl. by rewrite insert_insert_eq. }
        assert (chunks st1 !! a = Some (cleared ca)) as Hc1 by apply lookup_insert_eq.
        by rewrite (bind_run _ _ _ _ _ (load_chunk_run _ _ _ Hnz Hc1)).
      * do 2 (split; [done|]). split.
        -- intros q c Hq Hc. apply elem_of_cons in Hq as [->|Hq].
           ++ rewrite Hrest by done. simpl. rewrite lookup_insert_eq. congruence.
           ++ apply Hzero; [done|]. rewrite Hsame; [done|]. by intros ->.
        -- intros q Hq. apply not_elem_of_cons in Hq as [Hqa Hq].
           rewrite Hrest by done. by apply Hsame.
Qed.

(** X18. [arena_clear] on a well-formed arena whose chunks record a
    size that their data region holds: it returns, every chunk of the
    chain has offset 0 and its first [ch_size] bytes zero, link and size
    are as they were, all other chunks, the arena structs and the OS are
    untouched, the arena is well-formed with the same chain, and it has
    no live byte left: [arena_get_size] returns 0. *)
Theorem arena_clear_spec fuel arena st l :
  arena ≠ 0 → arena_wf st arena l → (length l ≤ fuel)%nat →
  sizes_in_bounds (chunks st) l →
  ∃ st', arena_clear fuel arena st = Ret tt st' ∧
    arenas st' = arenas st ∧ os st' = os st ∧
    (∀ q c, q ∈ l → chunks st !! q = Some c → chunks st' !! q = Some (cleared c)) ∧
    (∀ q, q ∉ l → chunks st' !! q = chunks st !! q) ∧
    arena_wf st' arena l ∧
    arena_get_size fuel arena st' = Ret 0 st' ∧
    live_bytes (chunks st') l = [].
Proof.
  intros Hnz (ar & Har & Hch & Ht) Hf Hb.
  destruct (clear_loop_chain l fuel st (ar_head ar) Hch Hf Hb)
    as (st' & Hrun & Har' & Hos & Hzero & Hrest).
  assert (chain (chunks st') (ar_head ar) l) as Hch'.
  { apply (chain_frame_rel (λ _ c c', ch_next c' = ch_next c) st st'); [done| |done].
    split; [done|]. intros q. destruct (decide (q ∈ l)) as [Hq|Hq].
    - destruct (chain_mapped _ _ _ _ Hch Hq) as [_ [cq Hcq]].
      by rewrite Hcq, (Hzero q cq Hq Hcq).
    - rewrite (Hrest q Hq). by destruct (chunks st !! q). }
  assert (∀ a c, a ∈ l → chunks st' !! a = Some c → ch_offset c = 0) as Hoff.
  { intros a c Ha Hc. destruct (chain_mapped _ _ _ _ Hch Ha) as [_ [c0 Hc0]].
    rewrite (Hzero a c0 Ha Hc0) in Hc. by injection Hc as <-. }
  exists st'. split.
  { unfold arena_clear. destruct (Z.eqb_spec arena 0); [done|].
    by rewrite (bind_run _ _ _ _ _ (load_arena_run _ _ _ Hnz Har)). }
  do 4 (split; [done|]). split.
  { exists ar. by rewrite Har'. }
  split.
  - rewrite <- Har' in Har.
    rewrite (arena_get_size_chain _ _ _ _ _ Hnz Har Hch' Hf).
    by rewrite sum_offsets_reset.
  - clear Hch' Hch Hf Hb Hzero Hrest Ht. induction l as [|a l IH]; [done|]. simpl.
    destruct (chunks st' !! a) as [c|] eqn:Hc; [|done].
    rewrite (Hoff a c ltac:(left) Hc). simpl. apply IH.
    intros q cq Hq. apply Hoff. by right.
Qed.

Lemma arena_clear_spec_witness :
  ∃ st', arena_clear 2 100 small_state = Ret tt st' ∧
    arenas st' = arenas small_state ∧ os st' = os small_state ∧
    (∀ q c, q ∈ [4096; 8192] → chunks small_state !! q = Some c →
            chunks st' !! q = Some (cleared c)) ∧
    (∀ q, q ∉ [4096; 8192] → chunks st' !! q = chunks small_state !! q) ∧
    arena_wf st' 100 [4096; 8192] ∧
    arena_get_size 2 100 st' = Ret 0 st' ∧
    live_bytes (chunks st') [4096; 8192] = [].
Proof.
  apply (arena_clear_spec 2 100 small_state [4096; 8192]).
  - lia.
  - apply small_state_wf.
  - simpl. lia.
  - each_chunk; vm_compute; done.
Defined.

(** X19. Reset, then Allocate.  After [arena_reset] the next
    [arena_alloc] whose reservation fits the first chunk is served from
    the start of that chunk (plus the padding that aligns it): the memory
    handed out before the reset is handed out again, and the OS is not
    asked for anything.  All other chunks of the chain are left with
    offset 0. *)
Theorem arena_reset_then_alloc_reuses_head fuel arena num_bytes k flags st p l c :
  arena ≠ 0 → num_bytes ≠ 0 → 0 <= k < 63 →
  arena_wf st arena (p :: l) → (length (p :: l) ≤ fuel)%nat →
  chunks st !! p = Some c →
  let alloc_size := ROUND_UP num_bytes (2 ^ k) in
  let pad := fixup p (set_offset c 0) (2 ^ k) in
  alloc_size <= sint (ch_size c - pad) →
  ∃ st', (arena_reset fuel arena;; arena_alloc fuel arena num_bytes (2 ^ k) flags) st
           = Ret (data_addr p pad) st' ∧
    arenas st' = arenas st ∧ os st' = os st ∧
    chunks st' !! p = Some (set_offset c (sint (pad + alloc_size))) ∧
    (∀ q cq, q ∈ l → chunks st !! q = Some cq → chunks st' !! q = Some (set_offset cq 0)) ∧
    (∀ q, q ∉ p :: l → chunks st' !! q = chunks st !! q).
Proof.
  intros Hnz Hn Hk Hwf Hf Hc alloc_size pad Hfit.
  destruct (arena_reset_chain fuel arena st (p :: l) Hnz Hwf Hf)
    as (s1 & Hreset & Har1 & Hos1 & Hzero & Hrest & Hwf1).
  pose proof (Hzero p c ltac:(left) Hc) as Hc1.
  pose proof Hwf1 as (ar & Har & Hch & _).
  destruct (alloc_scan_first_fit (2 ^ k) alloc_size [] fuel s1 (ar_head ar) p l
              (set_offset c 0))
    as (st' & Hscan & Har' & Hos' & Hp' & _ & Hframe); try done.
  { simpl in *. lia. }
  { intros q cq Hq. by apply not_elem_of_nil in Hq. }
  assert (arena_alloc fuel arena num_bytes (2 ^ k) flags s1 = Ret (data_addr p pad) st')
    as Halloc.
  { apply (arena_alloc_served _ _ _ _ _ _ (p :: l)); [done..|].
    intros ar' Har''. by assert (ar' = ar) as -> by congruence. }
  exists st'. split; [by rewrite (bind_run _ _ _ _ _ Hreset)|].
  split; [congruence|]. split; [congruence|]. split; [done|]. split.
  - intros q cq Hq Hcq. pose proof (chain_NoDup _ _ _ Hch) as Hnd.
    apply NoDup_cons in Hnd as [Hpl _].
    rewrite Hframe; [|apply not_elem_of_nil|by intros ->].
    apply Hzero; [by right|done].
  - intros q Hq. rewrite Hframe; [by apply Hrest|apply not_elem_of_nil|].
    intros ->. apply Hq. left.
Qed.

Lemma arena_reset_then_alloc_reuses_head_witness :
  let alloc_size := ROUND_UP 8 (2 ^ 3) in
  let pad := fixup 4096 (set_offset small_head 0) (2 ^ 3) in
  ∃ st', (arena_reset 2 100;; arena_alloc 2 100 8 (2 ^ 3) 0) small_state
           = Ret (data_addr 4096 pad) st' ∧
    arenas st' = arenas small_state ∧ os st' = os small_state ∧
    chunks st' !! 4096 = Some (set_offset small_head (sint (pad + alloc_size))) ∧
    (∀ q cq, q ∈ [8192] → chunks small_state !! q = Some cq →
             chunks st' !! q = Some (set_offset cq 0)) ∧
    (∀ q, q ∉ [4096; 8192] → chunks st' !! q = chunks small_state !! q).
Proof.
  apply (arena_reset_then_alloc_reuses_head 2 100 8 3 0 small_state 4096 [8192] small_head).
  - lia.
  - lia.
  - lia.
  - apply small_state_wf.
  - simpl. lia.
  - reflexivity.
  - vm_compute. done.
Defined.

(** ** Free *)


Lemma free_loop_chain flags : ∀ l fuel st p,
  flag_set flags ZEROMEM = false →
  chain (chunks st) p l → (length l ≤ fuel)%nat → releasable (chunks st) l →
  ∃ st', free_loop fuel p flags st = Ret tt st' ∧
    arenas st' = arenas st ∧ os st' = os st ∧
    (∀ q, q ∈ l → chunks st' !! q = None) ∧
    (∀ q, q ∉ l → chunks st' !! q = chunks st !! q) ∧
    leaked st' = left_mapped (chunks st) l ++ leaked st.
Proof.
  induction l as [|a l IH]; intros fuel st p Hz Hch Hf Hrel.
  - simpl in Hch. subst. exists st. split; [by destruct fuel|].
    do 2 (split; [done|]). split; [|done].
    intros q Hq. by apply not_elem_of_nil in Hq.
  - pose proof (chain_NoDup _ _ _ Hch) as Hnd.
    apply NoDup_cons in Hnd as [Hnin Hnd].
    simpl in Hch. destruct Hch as (-> & Hnz & ca & Hca & Hch).
    destruct fuel as [|fuel]; [simpl in Hf; lia|].
    set (st1 := unmapped st a ca (sizeof_pointer + ch_size ca)).
    assert (∀ q, q ≠ a → chunks st1 !! q = chunks st !! q) as Hsame.
    { intros q Hq. simpl. by rewrite lookup_delete_ne. }
    assert (∀ q, q ∈ l → chunks st1 !! q = chunks st !! q) as Hsame'.
    { intros q Hq. apply Hsame. by intros ->. }
    destruct (IH fuel st1 (ch_next ca) Hz)
      as (st' & Hrun & Har & Hos & Hgone & Hrest & Hlk).
    + by apply (chain_frame (chunks st)).
    + simpl in Hf. lia.
    + intros q c Hq. rewrite Hsame' by done. apply Hrel. by right.
    + exists st'. split.
      * simpl. destruct (Z.eqb_spec a 0); [done|]. rewrite Hz.
        rewrite (bind_run _ _ _ tt st) by done.
        rewrite (bind_run _ _ _ _ _ (load_chunk_run _ _ _ Hnz Hca)).
        rewrite (bind_run _ _ _ _ st1 (free_chunk_run _ _ _ Hnz Hca
                   (proj1 (Hrel a ca ltac:(left) Hca)))).
        done.
      * do 2 (split; [done|]). split; [|split].
        -- intros q Hq. apply elem_of_cons in Hq as [->|Hq]; [|by apply Hgone].
           rewrite Hrest by done. simpl. apply lookup_delete_eq.
        -- intros q Hq. apply not_elem_of_cons in Hq as [Hqa Hq].
           rewrite Hrest by done. by apply Hsame.
        -- rewrite Hlk, (left_mapped_frame (chunks st)) by done.
           simpl. rewrite Hca. by rewrite <- app_assoc.
Qed.

(** X20. [arena_free] without [ZEROMEM] on a well-formed arena, with
    one unit of fuel per chunk, when every chunk of the chain records a
    size that [free_chunk] can release: more than -8, within the address
    space and within the mapping of the chunk ([free_chunk] fails its
    [assert] on a size of -8 or less, lemma [free_chunk_refused]).  The
    call returns, the header page of every chunk of the chain is
    unmapped, so that none of them can be accessed any more, every other
    chunk is untouched, and the arena struct is not written: head and
    tail keep the addresses of the released chunks.  [free_chunk] passes
    [8 + ch_size] to [munmap] where [24 + ch_size] bytes were mapped;
    what that leaves mapped of the chunks, [left_mapped], is lost, and
    it is nothing when the length of each release covers the mapping of
    its chunk. *)
Theorem arena_free_releases_chain fuel arena flags st l :
  arena ≠ 0 → arena_wf st arena l → (length l ≤ fuel)%nat →
  flag_set flags ZEROMEM = false → releasable (chunks st) l →
  ∃ st', arena_free fuel arena flags st = Ret tt st' ∧
    arenas st' = arenas st ∧ os st' = os st ∧
    (∀ q, q ∈ l → chunks st' !! q = None) ∧
    (∀ q, q ∉ l → chunks st' !! q = chunks st !! q) ∧
    leaked st' = left_mapped (chunks st) l ++ leaked st ∧
    ((∀ a c, a ∈ l → chunks st !! a = Some c →
        extent c <= page_span (sizeof_pointer + ch_size c)) →
     leaked st' = leaked st).
Proof.
  intros Hnz (ar & Har & Hch & Ht) Hf Hz Hrel.
  destruct (free_loop_chain flags l fuel st (ar_head ar) Hz Hch Hf Hrel)
    as (st' & Hrun & Ha & Ho & Hgone & Hrest & Hlk).
  exists st'. split.
  { unfold arena_free. destruct (Z.eqb_spec arena 0); [done|].
    by rewrite (bind_run _ _ _ _ _ (load_arena_run _ _ _ Hnz Har)). }
  do 5 (split; [done|]). intros Hcov. by rewrite Hlk, left_mapped_covered.
Qed.

Lemma arena_free_releases_chain_witness :
  ∃ st', arena_free 2 100 0 small_state = Ret tt st' ∧
    arenas st' = arenas small_state ∧ os st' = os small_state ∧
    (∀ q, q ∈ [4096; 8192] → chunks st' !! q = None) ∧
    (∀ q, q ∉ [4096; 8192] → chunks st' !! q = chunks small_state !! q) ∧
    leaked st' = left_mapped (chunks small_state) [4096; 8192] ++ leaked small_state ∧
    ((∀ a c, a ∈ [4096; 8192] → chunks small_state !! a = Some c →
        extent c <= page_span (sizeof_pointer + ch_size c)) →
     leaked st' = leaked small_state).
Proof.
  apply (arena_free_releases_chain 2 100 0 small_state [4096; 8192]).
  - lia.
  - apply small_state_wf.
  - simpl. lia.
  - reflexivity.
  - each_chunk; vm_compute; done.
Defined.

(** X21. [arena_free] with [ZEROMEM] releases the first chunk only.
    The [memset] starts at the chunk itself, so it zeroes the header
    before [ch_next] is read from it: the loop ends after the first
    chunk.  Whatever the chain behind the head is, the call returns a
    state in which exactly the head chunk is unmapped; the chunks behind
    it stay mapped and are no longer reachable from the arena.  The
    [memset] has also zeroed [ch_size], so [free_chunk] passes the length
    8 to [munmap]: of the head chunk only the first page is released,
    and the pages behind it stay mapped. *)
Theorem arena_free_zeromem_releases_head_only fuel arena flags st ar c :
  arena ≠ 0 → arenas st !! arena = Some ar → ar_head ar ≠ 0 →
  chunks st !! ar_head ar = Some c →
  0 <= ch_size c <= Z.of_nat (length (ch_data c)) → ch_size c < half - sizeof_chunk →
  flag_set flags ZEROMEM = true →
  arena_free (S fuel) arena flags st =
    Ret tt (unmapped st (ar_head ar) c sizeof_pointer).
Proof.
  intros Hnz Har Hhead Hc Hsz Hlt Hz.
  unfold arena_free. destruct (Z.eqb_spec arena 0); [done|].
  rewrite (bind_run _ _ _ _ _ (load_arena_run _ _ _ Hnz Har)).
  simpl. destruct (Z.eqb_spec (ar_head ar) 0); [done|]. rewrite Hz.
  set (zc := mkChunk 0 0 0 (zeros (ch_size c) ++ drop (Z.to_nat (ch_size c)) (ch_data c))).
  assert (memset_chunk (ar_head ar) st = Ret tt (put_chunk st (ar_head ar) zc)) as Hms.
  { unfold memset_chunk. rewrite (bind_run _ _ _ _ _ (load_chunk_run _ _ _ Hhead Hc)).
    rewrite CHUNK_ALLOC_SIZE_exact by lia.
    replace (sizeof_chunk + ch_size c - sizeof_chunk) with (sizeof_char * ch_size c)
      by (unfold sizeof_char; lia).
    rewrite memset_data_run by (unfold sizeof_chunk in *; lia).
    by rewrite (store_chunk_run _ _ _ _ Hhead Hc). }
  rewrite (bind_run _ _ _ _ _ Hms).
  assert (chunks (put_chunk st (ar_head ar) zc) !! ar_head ar = Some zc) as Hzc
    by apply lookup_insert_eq.
  rewrite (bind_run _ _ _ _ _ (load_chunk_run _ _ _ Hhead Hzc)).
  assert (free_chunk (ar_head ar) (put_chunk st (ar_head ar) zc) =
          Ret tt (unmapped st (ar_head ar) c sizeof_pointer)) as Hfree.
  { rewrite (free_chunk_run _ _ _ Hhead Hzc)
      by (change (ch_size zc) with 0; rewrite TASK_SIZE_eq; unfold sizeof_pointer; lia).
    f_equal. unfold unmapped, put_chunk. simpl. rewrite delete_insert_eq.
    f_equal. f_equal. change (ch_size zc) with 0. rewrite Z.add_0_r.
    unfold kept, extent. simpl.
    by rewrite length_app, zeros_length, length_drop,
      <- Nat.le_add_sub by lia. }
  rewrite (bind_run _ _ _ _ _ Hfree).
  change (ch_next zc) with 0. by destruct fuel.
Qed.

Lemma arena_free_zeromem_releases_head_only_witness :
  arena_free 1 100 ZEROMEM small_state =
    Ret tt (unmapped small_state (ar_head (mkArena 4096 8192)) small_head sizeof_pointer).
Proof.
  apply (arena_free_zeromem_releases_head_only 0 100 ZEROMEM small_state
           (mkArena 4096 8192) small_head).
  - lia.
  - reflexivity.
  - simpl. lia.
  - reflexivity.
  - vm_compute. done.
  - vm_compute. reflexivity.
  - reflexivity.
Defined.

(** X22. [arena_free] leaves the arena struct dangling.  After a call
    that returned on an arena with chunks, head and tail still hold the
    addresses of released chunks, and every operation on the arena
    dereferences released memory: [arena_get_size], [arena_reset],
    [arena_clear], [arena_crop_and_coalesce], [arena_free],
    [arena_alloc] with valid arguments and [arena_copy] from it all
    fault.  The caller has to zero the struct before the arena is used
    again. *)
Theorem arena_use_after_free fuel fuel' arena flags st u st' ar :
  arena ≠ 0 → arenas st !! arena = Some ar → ar_head ar ≠ 0 → ar_tail ar ≠ 0 →
  arena_free fuel arena flags st = Ret u st' →
  arena_get_size (S fuel') arena st' = Fault ∧
  arena_reset (S fuel') arena st' = Fault ∧
  arena_clear (S fuel') arena st' = Fault ∧
  (∀ fl, arena_crop_and_coalesce (S fuel') arena fl st' = Fault) ∧
  (∀ fl, arena_free (S fuel') arena fl st' = Fault) ∧
  (∀ num_bytes k fl, num_bytes ≠ 0 → 0 <= k < 63 →
     arena_alloc (S fuel') arena num_bytes (2 ^ k) fl st' = Fault) ∧
  (∀ dst fl, dst ≠ 0 → arena_copy (S fuel') dst arena fl st' = Fault).
Proof.
  intros Hnz Har Hhead Htail H. unfold arena_free in H.
  destruct (Z.eqb_spec arena 0); [done|].
  step H as ar' s1 H1. inv_prim. assert (ar' = ar) as -> by congruence.
  apply free_loop_shrinks in H as (Ha & _ & _ & Hcur).
  specialize (Hcur Hhead). rewrite <- Ha in Har.
  pose proof (load_arena_run _ _ _ Hnz Har) as Hload.
  assert (arena_get_size (S fuel') arena st' = Fault) as Hsize.
  { unfold arena_get_size. destruct (Z.eqb_spec arena 0); [done|].
    rewrite (bind_run _ _ _ _ _ Hload). simpl.
    destruct (Z.eqb_spec (ar_head ar) 0); [done|].
    by apply bind_fault, load_chunk_fault. }
  split; [done|]. split; [|split; [|split; [|split; [|split]]]].
  - unfold arena_reset. destruct (Z.eqb_spec arena 0); [done|].
    rewrite (bind_run _ _ _ _ _ Hload). simpl.
    destruct (Z.eqb_spec (ar_head ar) 0); [done|].
    apply bind_fault. unfold store_field. by apply bind_fault, load_chunk_fault.
  - unfold arena_clear. destruct (Z.eqb_spec arena 0); [done|].
    rewrite (bind_run _ _ _ _ _ Hload). simpl.
    destruct (Z.eqb_spec (ar_head ar) 0); [done|].
    by apply bind_fault, load_chunk_fault.
  - intros fl. unfold arena_crop_and_coalesce. destruct (Z.eqb_spec arena 0); [done|].
    by apply bind_fault.
  - intros fl. unfold arena_free. destruct (Z.eqb_spec arena 0); [done|].
    rewrite (bind_run _ _ _ _ _ Hload). simpl.
    destruct (Z.eqb_spec (ar_head ar) 0); [done|].
    destruct (flag_set fl ZEROMEM).
    + apply bind_fault. unfold memset_chunk. by apply bind_fault, load_chunk_fault.
    + rewrite (bind_run _ _ _ tt st') by done. by apply bind_fault, load_chunk_fault.
  - intros num_bytes k fl Hn Hk.
    rewrite (arena_alloc_nonempty _ _ _ _ _ _ ar); [|by apply arena_alloc_accepts|done..].
    unfold alloc_find. rewrite (bind_run _ _ _ _ _ Hload).
    apply bind_fault. simpl. destruct (Z.eqb_spec (ar_head ar) 0); [done|].
    by apply bind_fault, load_chunk_fault.
  - intros dst fl Hdst. unfold arena_copy.
    destruct (Z.eqb_spec dst 0); [done|]. destruct (Z.eqb_spec arena 0); [done|]. simpl.
    rewrite (bind_run _ _ _ _ _ Hload).
    destruct (Z.eqb_spec (ar_head ar) 0); [done|].
    destruct (Z.eqb_spec (ar_tail ar) 0); [done|]. simpl.
    by apply bind_fault, load_chunk_fault.
Qed.

Lemma arena_use_after_free_witness :
  let st' := final (arena_free 2 100 0) small_state in
  arena_get_size 1 100 st' = Fault ∧
  arena_reset 1 100 st' = Fault ∧
  arena_clear 1 100 st' = Fault ∧
  (∀ fl, arena_crop_and_coalesce 1 100 fl st' = Fault) ∧
  (∀ fl, arena_free 1 100 fl st' = Fault) ∧
  (∀ num_bytes k fl, num_bytes ≠ 0 → 0 <= k < 63 →
     arena_alloc 1 100 num_bytes (2 ^ k) fl st' = Fault) ∧
  (∀ dst fl, dst ≠ 0 → arena_copy 1 dst 100 fl st' = Fault).
Proof.
  apply (arena_use_after_free 2 0 100 0 small_state tt
           (final (arena_free 2 100 0) small_state) (mkArena 4096 8192)).
  - lia.
  - reflexivity.
  - simpl. lia.
  - simpl. lia.
  - apply ret_value_final. vm_compute. reflexivity.
Defined.

(** * The chain as an invariant *)

(** Reset and Clear write offsets and bytes only. *)
Lemma reset_loop_frame fuel : ∀ cursor st u st',
  reset_loop fuel cursor st = Ret u st' →
  frame_rel (λ _, same_layout) st st' ∧ os st' = os st.
Proof.
  induction fuel as [|fuel IH]; intros cursor st u st' H; simpl in H.
  { destruct (cursor =? 0); [|done]. inv_prim. split; [|done].
    apply frame_rel_refl. intros _ c. apply same_layout_refl. }
  destruct (cursor =? 0).
  { inv_prim. split; [|done]. apply frame_rel_refl. intros _ c. apply same_layout_refl. }
  step H as u1 s1 H1. inv_prim. step H as c1 s2 H2. inv_prim.
  apply IH in H as [Hfr Hos]. split; [|done].
  eapply frame_rel_trans; [|  |apply Hfr].
  { intros _ a b d. apply same_layout_trans. }
  apply (frame_rel_put (λ _, same_layout) st cursor c); [|done|].
  - intros _ c'. apply same_layout_refl.
  - apply same_layout_set_offset.
Qed.

Lemma clear_loop_frame fuel : ∀ cursor st u st',
  clear_loop fuel cursor st = Ret u st' →
  frame_rel (λ _ c c', ch_next c' = ch_next c) st st' ∧ os st' = os st.
Proof.
  induction fuel as [|fuel IH]; intros cursor st u st' H; simpl in H.
  { destruct (cursor =? 0); [|done]. inv_prim. split; [|done]. by apply frame_rel_refl. }
  destruct (cursor =? 0).
  { inv_prim. split; [|done]. by apply frame_rel_refl. }
  step H as c s1 H1. inv_prim.
  destruct (memset_data _ _) as [bytes|]; [|done].
  step H as u2 s2 H2. inv_prim. step H as u3 s3 H3. inv_prim.
  step H as c3 s4 H4. inv_prim.
  apply IH in H as [Hfr Hos]. split; [|done].
  eapply frame_rel_trans; [| |apply Hfr].
  { intros _ a b d. congruence. }
  simpl in *. rewrite lookup_insert_eq in Hch0. simplify_eq.
  unfold set_chunks; simpl. rewrite insert_insert_eq.
  by apply (frame_rel_put (λ _ c c', ch_next c' = ch_next c) st cursor c).
Qed.



(** The copy loop of the crop, on a chain that does not contain the new
    chunk: it releases the chain and leaves the new chunk linked as it
    was. *)
Lemma crop_loop_chain_inv cropped : ∀ l fuel st p off u st',
  chain (chunks st) p l → cropped ∉ l →
  crop_loop fuel cropped p off st = Ret u st' →
  arenas st' = arenas st ∧ os st' = os st ∧
  (∀ q, chunks st !! q = None → chunks st' !! q = None) ∧
  (∀ d, chunks st !! cropped = Some d →
        ∃ d', chunks st' !! cropped = Some d' ∧ ch_next d' = ch_next d).
Proof.
  induction l as [|a l IH]; intros fuel st p off u st' Hch Hnin H.
  - simpl in Hch. subst p. destruct fuel; simpl in H; inv_prim;
      (do 3 (split; [done|])); eauto.
  - pose proof (chain_NoDup _ _ _ Hch) as Hnd. apply NoDup_cons in Hnd as [Hal Hnd].
    simpl in Hch. destruct Hch as (-> & Ha & c & Hc & Hch).
    apply not_elem_of_cons in Hnin as [Hne Hnin].
    destruct fuel as [|fuel]; simpl in H; destruct (Z.eqb_spec a 0); try done.
    step H as c' s1 H1. apply load_chunk_inv in H1 as (-> & _ & Hc').
    assert (c' = c) as -> by congruence.
    step H as d s2 H2. apply load_chunk_inv in H2 as (-> & Hcr0 & Hd).
    destruct (memcpy_data _ _ _ _) as [bytes|]; [|done].
    step H as u3 s3 H3. apply store_chunk_inv in H3 as (-> & _ & _).
    step H as c3 s4 H4. apply load_chunk_inv in H4 as (-> & _ & Hc3).
    simpl in Hc3. rewrite lookup_insert_ne in Hc3 by done.
    assert (c3 = c) as -> by congruence.
    step H as u5 s5 H5.
    apply free_chunk_inv in H5 as [[? _]|(_ & c5 & Hc5 & ->)]; [done|].
    apply IH in H as (Har & Hos & Hnone & Hcr); [|  |done].
    + simpl in *. split; [done|]. split; [done|]. split.
      * intros q Hq. apply Hnone. rewrite lookup_delete_None. right.
        rewrite lookup_insert_ne; [done|]. congruence.
      * intros d0 Hd0. assert (d0 = d) as -> by congruence.
        destruct (Hcr (set_data d bytes)) as (d' & Hd' & Hn'); [|by eauto].
        rewrite lookup_delete_ne by done. apply lookup_insert_eq.
    + apply (chain_frame (chunks st)); [|done]. intros q Hq. simpl.
      rewrite lookup_delete_ne by (by intros ->).
      rewrite lookup_insert_ne; [done|]. by intros ->.
Qed.

Lemma exec_preserves_wf fuel arena c st l u st' :
  targets arena c → arena_wf st arena l → os_sound st →
  exec fuel c st = Ret u st' →
  ∃ l', arena_wf st' arena l' ∧ os_sound st'.
Proof.
  intros Htgt Hwf Hsound H. destruct c as [a n al fl|a data n al fl|a fl|dst src fl|a|a];
    simpl in Htgt; try done; subst a; simpl in H.
  - (* Allocate *)
    step H as v s1 H1. inv_prim.
    apply (arena_alloc_chain_grows _ _ _ _ _ _ l) in H1 as (news & ? & ? & _); eauto.
  - (* Push *)
    step H as v s1 H1. inv_prim. unfold arena_push in H1.
    destruct data as [buffer|]; [|inv_prim; eauto].
    destruct (arena =? 0); [inv_prim; eauto|].
    step H1 as start s2 H2.
    apply (arena_alloc_chain_grows _ _ _ _ _ _ l) in H2 as (news & Hwf2 & Hs2 & _);
      [|done..].
    destruct (start =? 0); [inv_prim; eauto|].
    step H1 as u3 s3 H3. inv_prim.
    apply store_bytes_inv in H3 as (p & c & bytes & Hc & _ & ->).
    assert (frame_rel (λ _ c c', ch_next c' = ch_next c) s2
              (put_chunk s2 p (set_data c bytes))) as Hfr
      by (apply (frame_rel_put _ s2 p c); done).
    exists (l ++ news). split.
    + by apply (arena_wf_frame_rel _ _ _ _ _ (λ _ _ _ HR, HR) Hfr).
    + by apply (os_sound_frame_rel _ _ _ Hfr).
  - (* CropAndCoalesce *)
    step H as v s1 H1. inv_prim. unfold arena_crop_and_coalesce in H1.
    destruct (Z.eqb_spec arena 0) as [|Hnz]; [inv_prim; eauto|].
    step H1 as size s2 H2. apply arena_get_size_state in H2 as ->.
    step H1 as new s3 H3.
    apply alloc_chunk_inv in H3 as [(-> & Ha & Hc & Ho)|(Hnew & Ho & Ha & Hc)].
    + simpl in H1. inv_prim. exists l. split.
      * destruct Hwf as (ar & ? & ? & ?). exists ar. by rewrite Ha, Hc.
      * destruct Ho as [Ho|(r & Ho & Hr)].
        -- apply (os_sound_same st); [done..|]. by rewrite Hc.
        -- apply (os_sound_failure st _ r); [done..|]. by rewrite Hc.
    + destruct (Z.eqb_spec new 0); [done|].
      destruct (os_sound_next _ _ _ Hsound Ho) as [_ Hfresh].
      pose proof Hwf as (ar & Har & Hch & Ht).
      step H1 as ar1 s4 H4. inv_prim. rewrite Ha in Har0.
      assert (ar1 = ar) as -> by congruence.
      step H1 as u5 s5 H5.
      apply (crop_loop_chain_inv new l) in H5 as (Har5 & Hos5 & Hnone & Hcr).
      * destruct (Hcr (mkChunk 0 size 0 (zeros size))) as (d' & Hd' & Hn').
        { rewrite Hc. apply lookup_insert_eq. }
        step H1 as ar6 s6 H6. inv_prim. step H1 as u7 s7 H7. inv_prim.
        step H1 as ar8 s8 H8. inv_prim. step H1 as u9 s9 H9. inv_prim.
        simpl in *. rewrite lookup_insert_eq in Har2. simplify_eq. simpl.
        exists [new]. split.
        -- exists (mkArena new new). simpl. rewrite lookup_insert_eq.
           split; [done|]. split; [|done]. split; [done|]. split; [done|].
           exists d'. by rewrite Hn'.
        -- apply (os_sound_mapped st _ new); [done|simpl; by rewrite Hos5|].
           intros q Hq Hnone'. simpl. apply Hnone. rewrite Hc.
           by rewrite lookup_insert_ne.
      * apply (chain_frame (chunks st)); [|done]. intros q Hq.
        rewrite Hc. apply lookup_insert_ne. intros ->.
        destruct (chain_mapped _ _ _ _ Hch Hq) as [_ [? ?]]. congruence.
      * intros Hin. destruct (chain_mapped _ _ _ _ Hch Hin) as [_ [? ?]]. congruence.
  - (* Clear *)
    unfold arena_clear in H. destruct (arena =? 0); [inv_prim; eauto|].
    step H as ar s1 H1. inv_prim. apply clear_loop_frame in H as [Hfr Hos].
    exists l. split.
    + by apply (arena_wf_frame_rel _ _ _ _ _ (λ _ _ _ HR, HR) Hfr).
    + by apply (os_sound_frame_rel _ _ _ Hfr).
  - (* Reset *)
    unfold arena_reset in H. destruct (arena =? 0); [inv_prim; eauto|].
    step H as ar s1 H1. inv_prim. apply reset_loop_frame in H as [Hfr Hos].
    exists l. split.
    + apply (arena_wf_frame_rel _ _ _ _ _ (λ _ c c' (HR : same_layout c c'), proj1 HR) Hfr).
      done.
    + by apply (os_sound_frame_rel _ _ _ Hfr).
Qed.

(** X23. The chain of an arena is an invariant of everything a client
    does with it.  Start from a well-formed arena (an arena struct
    initialised to zero is one) and an OS that hands out fresh
    addresses, and run any sequence of [arena_alloc], [arena_push],
    [arena_reset], [arena_clear] and [arena_crop_and_coalesce] calls on
    it, with any arguments, flags and outcomes of the acquisitions:
    whenever the sequence returns, head and tail of the arena are again
    the two ends of a chain of mapped chunks that ends in null, and the
    addresses the OS has still to hand out are not in use. *)
Theorem calls_preserve_wf fuel arena cs : ∀ st l st',
  Forall (targets arena) cs → arena_wf st arena l → os_sound st →
  exec_all fuel cs st = Ret tt st' →
  ∃ l', arena_wf st' arena l' ∧ os_sound st'.
Proof.
  induction cs as [|c cs IH]; intros st l st' Hall Hwf Hsound H; simpl in H.
  - inv_prim. eauto.
  - apply Forall_cons in Hall as [Hc Hall]. step H as u s1 H1.
    destruct (exec_preserves_wf _ _ _ _ _ _ _ Hc Hwf Hsound H1) as (l1 & Hwf1 & Hs1).
    by apply (IH s1 l1).
Qed.

Lemma calls_preserve_wf_witness :
  let st := fresh_state [Mapped 65536; Mapped 16777216] in
  ∃ l', arena_wf (final (exec_all 1 session) st) 100 l' ∧
        os_sound (final (exec_all 1 session) st).
Proof.
  apply (calls_preserve_wf 1 100 session
           (fresh_state [Mapped 65536; Mapped 16777216]) []).
  - repeat constructor.
  - apply arena_wfb_spec. vm_compute. reflexivity.
  - apply os_soundb_spec. vm_compute. reflexivity.
  - apply ret_value_final. vm_compute. reflexivity.
Defined.
